(** * edge-tts (Go): a shallow embedding of package [edgetts]

    The development follows the package file by file: the Go values the
    code works on (byte strings, errors), the library functions it calls
    ([bytes], [strings], [unicode/utf8], [regexp]), then [util.go],
    the DRM token, the [Communicate] session engine, [SubMaker] and the
    SRT renderer.  Go's [string] and [[]byte] are both lists of bytes;
    a byte is a [Z] in [0, 256).  Go's [int], [int64] and
    [time.Duration] are [Z] (no value in the code comes near 2^63). *)

From Stdlib Require Import String Ascii DecimalString.
From Stdlib Require Import ZArith QArith Qround List Sorted Permutation Lia Bool.
Import ListNotations.
Local Open Scope Z_scope.
Local Open Scope list_scope.

Set Implicit Arguments.

(* ================================================================== *)
(** ** Byte strings *)

Definition byte := Z.
Definition bytes := list Z.

(** A Go string literal. *)
Definition str (s : string) : bytes :=
  map (fun c => Z.of_N (N_of_ascii c)) (list_ascii_of_string s).

Definition bytes_eq_dec : forall a b : bytes, {a = b} + {a <> b} :=
  list_eq_dec Z.eq_dec.

(** [len(s)] *)
Definition len (s : bytes) : Z := Z.of_nat (length s).

(** [s[:k]], [s[k:]] and [s[a:b]] (the code only slices within bounds). *)
Definition slice_to (s : bytes) (k : Z) : bytes := firstn (Z.to_nat k) s.
Definition slice_from (s : bytes) (k : Z) : bytes := skipn (Z.to_nat k) s.
Definition slice (s : bytes) (a b : Z) : bytes := slice_to (slice_from s a) (b - a).

Definition NL : Z := 10.
Definition CR : Z := 13.
Definition SP : Z := 32.
Definition AMP : Z := 38.
Definition SEMI : Z := 59.

(** [bytes.Index(s, sep)], [bytes.LastIndex(s, sep)] and
    [bytes.Contains(s, sep)] for a separator of one byte, which is what
    every call in util.go passes. *)
Fixpoint Index (s : bytes) (c : Z) : Z :=
  match s with
  | [] => -1
  | b :: r =>
      if b =? c then 0
      else let i := Index r c in if i <? 0 then -1 else i + 1
  end.

Fixpoint LastIndex (s : bytes) (c : Z) : Z :=
  match s with
  | [] => -1
  | b :: r =>
      let i := LastIndex r c in
      if 0 <=? i then i + 1 else if b =? c then 0 else -1
  end.

Definition Contains (s : bytes) (c : Z) : bool := negb (Index s c =? -1).

(** [fmt.Sprintf("%d", z)] *)
Definition itoa (z : Z) : bytes := str (NilZero.string_of_int (Z.to_int z)).

(** [fmt.Sprintf("%0wd", z)]: zeros go between the sign and the digits. *)
Definition itoa_pad (w : nat) (z : Z) : bytes :=
  let ds := itoa (Z.abs z) in
  let sign := if z <? 0 then [45] else [] in
  sign ++ repeat 48 (w - length sign - length ds) ++ ds.

(* ================================================================== *)
(** ** unicode/utf8 *)

Module utf8.

Definition RuneError : Z := 0xFFFD.
Definition MaxRune : Z := 0x10FFFF.
Definition RuneSelf : Z := 0x80.

Definition between (lo hi b : Z) : bool := (lo <=? b) && (b <=? hi).

(** A continuation byte, 10xxxxxx. *)
Definition cont (b : Z) : bool := between 0x80 0xBF b.

(** The decoder's table for a first byte ([first] and [acceptRanges]
    in the library): how many bytes follow, and the range the first of
    them must lie in.  [None] for a byte that starts no rune. *)
Definition lead (b0 : Z) : option (nat * Z * Z) :=
  if between 0x00 0x7F b0 then Some (0%nat, 0x80, 0xBF)
  else if between 0xC2 0xDF b0 then Some (1%nat, 0x80, 0xBF)
  else if b0 =? 0xE0 then Some (2%nat, 0xA0, 0xBF)
  else if between 0xE1 0xEC b0 then Some (2%nat, 0x80, 0xBF)
  else if b0 =? 0xED then Some (2%nat, 0x80, 0x9F)
  else if between 0xEE 0xEF b0 then Some (2%nat, 0x80, 0xBF)
  else if b0 =? 0xF0 then Some (3%nat, 0x90, 0xBF)
  else if between 0xF1 0xF3 b0 then Some (3%nat, 0x80, 0xBF)
  else if b0 =? 0xF4 then Some (3%nat, 0x80, 0x8F)
  else None.

(** [utf8.Valid(p)]: [p] consists entirely of well-formed encoded runes. *)
Fixpoint Valid (p : bytes) : bool :=
  match p with
  | [] => true
  | b0 :: r0 =>
      match lead b0 with
      | Some (O, _, _) => Valid r0
      | Some (1%nat, lo, hi) =>
          match r0 with
          | b1 :: r1 => between lo hi b1 && Valid r1
          | _ => false
          end
      | Some (2%nat, lo, hi) =>
          match r0 with
          | b1 :: b2 :: r2 => between lo hi b1 && cont b2 && Valid r2
          | _ => false
          end
      | Some (3%nat, lo, hi) =>
          match r0 with
          | b1 :: b2 :: b3 :: r3 =>
              between lo hi b1 && cont b2 && cont b3 && Valid r3
          | _ => false
          end
      | _ => false
      end
  end.

(** [utf8.DecodeRune(p)]: the first rune of [p] and its width in bytes;
    [(RuneError, 1)] for an ill-formed start, [(RuneError, 0)] for the
    empty string.  On the accepted ranges the library's masks and shifts
    are the differences and products written here. *)
Definition DecodeRune (p : bytes) : Z * nat :=
  match p with
  | [] => (RuneError, O)
  | b0 :: r0 =>
      match lead b0, r0 with
      | Some (O, _, _), _ => (b0, 1%nat)
      | Some (1%nat, lo, hi), b1 :: _ =>
          if between lo hi b1
          then ((b0 - 0xC0) * 64 + (b1 - 0x80), 2%nat)
          else (RuneError, 1%nat)
      | Some (2%nat, lo, hi), b1 :: b2 :: _ =>
          if between lo hi b1 && cont b2
          then ((b0 - 0xE0) * 4096 + (b1 - 0x80) * 64 + (b2 - 0x80), 3%nat)
          else (RuneError, 1%nat)
      | Some (3%nat, lo, hi), b1 :: b2 :: b3 :: _ =>
          if between lo hi b1 && cont b2 && cont b3
          then ((b0 - 0xF0) * 262144 + (b1 - 0x80) * 4096
                + (b2 - 0x80) * 64 + (b3 - 0x80), 4%nat)
          else (RuneError, 1%nat)
      | _, _ => (RuneError, 1%nat)
      end
  end.

(** [for _, r := range s]: the runes of a string, an ill-formed byte
    read as [RuneError].  [skip] counts the bytes of the current rune
    still to pass over. *)
Fixpoint runes_from (skip : nat) (s : bytes) : list Z :=
  match s with
  | [] => []
  | _ :: rest =>
      match skip with
      | S k => runes_from k rest
      | O => let (r, n) := DecodeRune s in r :: runes_from (n - 1) rest
      end
  end.

Definition runes (s : bytes) : list Z := runes_from 0 s.

(** [utf8.AppendRune(nil, r)], which [strings.Builder.WriteRune] appends:
    a rune out of range or a surrogate is written as [RuneError]. *)
Definition EncodeRune (r : Z) : bytes :=
  if between 0 0x7F r then [r]
  else if between 0x80 0x7FF r then [0xC0 + r / 64; 0x80 + r mod 64]
  else if (r <? 0) || (MaxRune <? r) || between 0xD800 0xDFFF r
  then [0xEF; 0xBF; 0xBD]
  else if r <=? 0xFFFF
  then [0xE0 + r / 4096; 0x80 + (r / 64) mod 64; 0x80 + r mod 64]
  else [0xF0 + r / 262144; 0x80 + (r / 4096) mod 64;
        0x80 + (r / 64) mod 64; 0x80 + r mod 64].

End utf8.

(* ================================================================== *)
(** ** unicode.IsSpace, bytes.TrimSpace, strings.TrimSpace *)

(** The runes with Unicode's White_Space property. *)
Definition spaceRunes : list Z :=
  [0x09; 0x0A; 0x0B; 0x0C; 0x0D; 0x20; 0x85; 0xA0; 0x1680;
   0x2000; 0x2001; 0x2002; 0x2003; 0x2004; 0x2005; 0x2006; 0x2007;
   0x2008; 0x2009; 0x200A; 0x2028; 0x2029; 0x202F; 0x205F; 0x3000].

Definition IsSpace (r : Z) : bool :=
  if in_dec Z.eq_dec r spaceRunes then true else false.

(** The library reads a rune with [DecodeRune] from the front and
    [DecodeLastRune] from the back; both return a rune other than
    [RuneError] only from its well-formed encoding, so a white-space rune
    stands at an end of [s] exactly when its encoding does. *)
Definition spaceEncodings : list bytes := map utf8.EncodeRune spaceRunes.

Fixpoint prefixb (e s : bytes) : bool :=
  match e, s with
  | [], _ => true
  | x :: e', y :: s' => (x =? y) && prefixb e' s'
  | _ :: _, [] => false
  end.

(** Width of the entry of [table] that [s] starts with, [0] if none. *)
Definition startsWith (table : list bytes) (s : bytes) : nat :=
  match find (fun e => prefixb e s) table with
  | Some e => length e
  | None => O
  end.

(** Drop entries of [table] from the front of [s] as long as one is
    there; every round drops at least one byte, so [length s] rounds
    are enough ([trimFront_done]). *)
Fixpoint trimFront (table : list bytes) (fuel : nat) (s : bytes) : bytes :=
  match fuel with
  | O => s
  | S fuel' =>
      match startsWith table s with
      | O => s
      | k => trimFront table fuel' (skipn k s)
      end
  end.

Definition TrimLeftSpace (s : bytes) : bytes :=
  trimFront spaceEncodings (length s) s.

Definition TrimRightSpace (s : bytes) : bytes :=
  rev (trimFront (map (@rev Z) spaceEncodings) (length s) (rev s)).

(** [bytes.TrimSpace(s)] and [strings.TrimSpace(s)]: [s] without its
    leading and trailing white space, as defined by Unicode. *)
Definition TrimSpace (s : bytes) : bytes := TrimRightSpace (TrimLeftSpace s).

(* ================================================================== *)
(** ** exceptions.go and Go's [error] values *)

Inductive error : Type :=
| ErrUnknownResponse
| ErrUnexpectedResponse
| ErrNoAudioReceived
| ErrWebSocket
| ErrSkewAdjustment
| ErrInvalidVoice
| ErrInvalidRate
| ErrInvalidVolume
| ErrInvalidPitch
| ErrStreamAlreadyCalled
| Wrapf (e : error) (detail : bytes)   (* fmt.Errorf("%w: detail", e) *)
| Prefixed (what : bytes) (e : error)  (* fmt.Errorf("what: %w", e) *)
| Errorf (msg : bytes)                 (* fmt.Errorf(msg) *)
| LibError (msg : bytes).              (* an error made by a library *)

(* ================================================================== *)
(** ** types.go *)

Record TTSChunk : Type := {
  Type_ : bytes;     (* "audio", "WordBoundary", "SentenceBoundary" *)
  Data : bytes;
  Duration : Z;      (* 100 ns units, as the service sends them *)
  Offset : Z;
  Text : bytes
}.

Record TTSConfig : Type := {
  Voice : bytes;
  Rate : bytes;
  Volume : bytes;
  Pitch : bytes;
  Boundary : bytes
}.

Record CommunicateState : Type := {
  PartialText : bytes;
  OffsetCompensation : Z;
  LastDurationOffset : Z;
  StreamWasCalled : bool
}.

(** One entry of the "Metadata" array, as [json.Unmarshal] fills it in:
    [meta.Type], [meta.Data.Offset], [meta.Data.Duration] and
    [meta.Data.Text.Text]. *)
Record Metadata : Type := {
  meta_Type : bytes;
  meta_Offset : Z;
  meta_Duration : Z;
  meta_Text : bytes
}.

Definition MetadataResponse := list Metadata.

(* ================================================================== *)
(** ** util.go: the text preparer *)

Definition RemoveIncompatibleCharacters (s : bytes) : bytes :=
  flat_map
    (fun r =>
       let code := r in
       if ((0 <=? code) && (code <=? 8)) || ((11 <=? code) && (code <=? 12))
          || ((14 <=? code) && (code <=? 31))
       then utf8.EncodeRune SP
       else utf8.EncodeRune r)
    (utf8.runes s).

(** [html.EscapeString]: its replacer maps the five bytes below and
    copies every other byte. *)
Definition escapeByte (b : Z) : bytes :=
  if b =? 38 then str "&amp;"
  else if b =? 39 then str "&#39;"
  else if b =? 60 then str "&lt;"
  else if b =? 62 then str "&gt;"
  else if b =? 34 then str "&#34;"
  else [b].

Definition EscapeXML (s : bytes) : bytes := flat_map escapeByte s.

Definition findLastNewlineOrSpaceWithinLimit (text : bytes) (limit : Z) : Z :=
  let splitAt := LastIndex (slice_to text limit) NL in
  if splitAt <? 0 then LastIndex (slice_to text limit) SP else splitAt.

(** The loop of [findSafeUTF8SplitPoint], [n] being [splitAt]. *)
Fixpoint safeSplitFrom (n : nat) (textSegment : bytes) : Z :=
  match n with
  | O => 0
  | S n' =>
      if utf8.Valid (firstn n textSegment) then Z.of_nat n
      else safeSplitFrom n' textSegment
  end.

Definition findSafeUTF8SplitPoint (textSegment : bytes) : Z :=
  safeSplitFrom (length textSegment) textSegment.

(** The loop of [adjustSplitPointForXMLEntity].  Every round that does
    not leave the loop makes [splitAt] smaller, so [splitAt] rounds are
    enough ([adjust_exit]). *)
Fixpoint adjustLoop (fuel : nat) (text : bytes) (splitAt : Z) : Z :=
  match fuel with
  | O => splitAt
  | S fuel' =>
      if (0 <? splitAt) && Contains (slice_to text splitAt) AMP then
        let ampIndex := LastIndex (slice_to text splitAt) AMP in
        if negb (Index (slice text ampIndex splitAt) SEMI =? -1) then splitAt
        else adjustLoop fuel' text ampIndex
      else splitAt
  end.

Definition adjustSplitPointForXMLEntity (text : bytes) (splitAt : Z) : Z :=
  adjustLoop (Z.to_nat splitAt) text splitAt.

(** The split point one round of [SplitTextByByteLength] settles on. *)
Definition splitPoint (textBytes : bytes) (byteLength : Z) : Z :=
  let splitAt := findLastNewlineOrSpaceWithinLimit textBytes byteLength in
  let splitAt :=
    if splitAt <? 0
    then findSafeUTF8SplitPoint (slice_to textBytes byteLength)
    else splitAt in
  let splitAt := adjustSplitPointForXMLEntity textBytes splitAt in
  if splitAt <=? 0 then 1 else splitAt.

(** [if len(chunk) > 0 { result = append(result, chunk) }] *)
Definition emit (chunk : bytes) : list bytes :=
  if 0 <? len chunk then [chunk] else [].

(** The loop of [SplitTextByByteLength] and what follows it.  A round
    cuts at least one byte off [textBytes], so [length textBytes] rounds
    are enough and the branch for no fuel is never taken
    ([splitLoop_fuel]). *)
Fixpoint splitLoop (fuel : nat) (textBytes : bytes) (byteLength : Z)
  : list bytes :=
  if byteLength <? len textBytes then
    match fuel with
    | O => []
    | S fuel' =>
        let splitAt := splitPoint textBytes byteLength in
        emit (TrimSpace (slice_to textBytes splitAt))
        ++ splitLoop fuel' (slice_from textBytes splitAt) byteLength
    end
  else emit (TrimSpace textBytes).

Definition SplitTextByByteLength (text : bytes) (byteLength : Z) : list bytes :=
  if byteLength <=? 0 then []
  else splitLoop (length text) text byteLength.

(** The text pipeline of [NewCommunicate], for a byte budget [L]
    (the constructor passes 4096). *)
Definition escapedText (text : bytes) : bytes :=
  EscapeXML (RemoveIncompatibleCharacters text).

Definition prepareTexts (text : bytes) (L : Z) : list bytes :=
  SplitTextByByteLength (escapedText text) L.

Definition MKSSML (tc : TTSConfig) (escaped : bytes) : bytes :=
  str "<speak version='1.0' xmlns='http://www.w3.org/2001/10/synthesis' xml:lang='en-US'>"
  ++ str "<voice name='" ++ Voice tc ++ str "'>"
  ++ str "<prosody pitch='" ++ Pitch tc ++ str "' rate='" ++ Rate tc
  ++ str "' volume='" ++ Volume tc ++ str "'>"
  ++ escaped
  ++ str "</prosody>" ++ str "</voice>" ++ str "</speak>".

(* ------------------------------------------------------------------ *)
(** *** regexp

    Patterns over bytes, matched by derivatives.  The patterns of the
    package are anchored at both ends and use ASCII classes and [.]
    only, so matching the whole byte string is what
    [regexp.MatchString] does. *)

Inductive re : Type :=
| Void
| Eps
| Cls (p : Z -> bool)
| Cat (r1 r2 : re)
| Alt (r1 r2 : re)
| Star (r : re).

Fixpoint nullable (r : re) : bool :=
  match r with
  | Void => false
  | Eps => true
  | Cls _ => false
  | Cat r1 r2 => nullable r1 && nullable r2
  | Alt r1 r2 => nullable r1 || nullable r2
  | Star _ => true
  end.

Fixpoint deriv (c : Z) (r : re) : re :=
  match r with
  | Void => Void
  | Eps => Void
  | Cls p => if p c then Eps else Void
  | Cat r1 r2 =>
      if nullable r1 then Alt (Cat (deriv c r1) r2) (deriv c r2)
      else Cat (deriv c r1) r2
  | Alt r1 r2 => Alt (deriv c r1) (deriv c r2)
  | Star r1 => Cat (deriv c r1) (Star r1)
  end.

Fixpoint matchb (r : re) (s : bytes) : bool :=
  match s with
  | [] => nullable r
  | c :: s' => matchb (deriv c r) s'
  end.

Definition lit (c : Z) : re := Cls (fun b => b =? c).
Definition lits (s : bytes) : re := fold_right (fun c r => Cat (lit c) r) Eps s.
Definition plus (r : re) : re := Cat r (Star r).         (* r+ *)
Definition atLeast2 (r : re) : re := Cat r (Cat r (Star r)). (* r{2,} *)
Definition lower : re := Cls (utf8.between 97 122).      (* [a-z] *)
Definition upper : re := Cls (utf8.between 65 90).       (* [A-Z] *)
Definition digit : re := Cls (utf8.between 48 57).       (* \d *)
Definition dot : re := Cls (fun b => negb (b =? NL)).    (* . *)
Definition sign : re := Cls (fun b => (b =? 43) || (b =? 45)). (* [+-] *)
Definition DASH : Z := 45.

(** [^([a-z]{2,})-([A-Z]{2,})-(.+Neural)$] *)
Definition voicePattern : re :=
  Cat (atLeast2 lower)
    (Cat (lit DASH)
       (Cat (atLeast2 upper)
          (Cat (lit DASH) (Cat (plus dot) (lits (str "Neural")))))).

Definition voicePrefix : bytes := str "Microsoft Server Speech Text to Speech Voice (".

(** [^Microsoft Server Speech Text to Speech Voice \(.+,.+\)$] *)
Definition voiceFullPattern : re :=
  Cat (lits voicePrefix)
    (Cat (plus dot) (Cat (lit 44) (Cat (plus dot) (lit 41)))).

(** [^[+-]\d+%$] and [^[+-]\d+Hz$] *)
Definition ratePattern : re := Cat sign (Cat (plus digit) (lit 37)).
Definition volumePattern : re := Cat sign (Cat (plus digit) (lit 37)).
Definition pitchPattern : re := Cat sign (Cat (plus digit) (lits (str "Hz"))).

(** The part of [s] before the first [c] and the part after it. *)
Definition cut (s : bytes) (c : Z) : bytes * bytes :=
  let i := Index s c in
  if i <? 0 then (s, []) else (slice_to s i, slice_from s (i + 1)).

(** [voicePattern.FindStringSubmatch(voice)].  In a voice that matches,
    the first group is a run of [a-z] and the second a run of [A-Z],
    each closed by a dash: they end at the first and the second dash. *)
Definition FindStringSubmatch (voice : bytes) : option (bytes * bytes * bytes) :=
  if matchb voicePattern voice then
    let (lang, rest) := cut voice DASH in
    let (region, name) := cut rest DASH in
    Some (lang, region, name)
  else None.

Definition setVoice (tc : TTSConfig) (v : bytes) : TTSConfig :=
  {| Voice := v; Rate := Rate tc; Volume := Volume tc; Pitch := Pitch tc;
     Boundary := Boundary tc |}.

(** [ValidateTTSConfig] writes the voice through its pointer argument;
    the configuration it leaves is returned with the error. *)
Definition ValidateTTSConfig (tc : TTSConfig) : TTSConfig * option error :=
  let tc :=
    match FindStringSubmatch (Voice tc) with
    | Some (lang, region, name) =>
        let idx := Index name DASH in
        let '(region, name) :=
          if negb (idx =? -1)
          then (region ++ str "-" ++ slice_to name idx, slice_from name (idx + 1))
          else (region, name) in
        setVoice tc
          (voicePrefix ++ lang ++ str "-" ++ region ++ str ", " ++ name ++ str ")")
    | None => tc
    end in
  if negb (matchb voiceFullPattern (Voice tc)) then (tc, Some ErrInvalidVoice)
  else if negb (matchb ratePattern (Rate tc)) then (tc, Some ErrInvalidRate)
  else if negb (matchb volumePattern (Volume tc)) then (tc, Some ErrInvalidVolume)
  else if negb (matchb pitchPattern (Pitch tc)) then (tc, Some ErrInvalidPitch)
  else (tc, None).

(** [GetHeadersAndData]: the header map keeps, for a key, the value of
    its last line, so the newest binding is looked up first. *)
Definition Headers := list (bytes * bytes).

Fixpoint header (h : Headers) (k : bytes) : bytes :=
  match h with
  | [] => []
  | (k', v) :: h' => if bytes_eq_dec k' k then v else header h' k
  end.

(** [bytes.Split(s, "\r\n")], [cur] holding the current line reversed. *)
Fixpoint splitCRLF (s : bytes) (cur : bytes) : list bytes :=
  match s with
  | [] => [rev cur]
  | a :: rest =>
      match rest with
      | b :: rest' =>
          if (a =? CR) && (b =? NL) then rev cur :: splitCRLF rest' []
          else splitCRLF rest (a :: cur)
      | [] => [rev (a :: cur)]
      end
  end.

Definition GetHeadersAndData (data : bytes) (headerLength : Z) : Headers * bytes :=
  let headerLength := if len data <? headerLength then len data else headerLength in
  let headerBytes := slice_to data headerLength in
  let lines := splitCRLF headerBytes [] in
  let headers :=
    fold_left
      (fun h line =>
         let i := Index line 58 in
         if i <? 0 then h
         else (slice_to line i, slice_from line (i + 1)) :: h)
      lines [] in
  (headers, slice_from data headerLength).

(* ================================================================== *)
(** ** communicate.go: the session engine and the stream aggregator

    What arrives from the network is the input of the model.  A session
    is the list of results of [conn.ReadMessage], in order; a text
    message comes with what [json.Unmarshal] makes of its body.  The
    goroutine a call of [stream] or [Stream] starts is modelled by the
    call itself: an instance is used by one task, and [Stream] forwards
    the chunks of a session in the order the session sent them. *)

Inductive Message : Type :=
| CtxDone (err : error)                       (* <-ctx.Done() before the read *)
| ReadError (normalClosure : bool) (err : error)
| TextMessage (data : bytes) (json : error + MetadataResponse)
| BinaryMessage (data : bytes).

Inductive Conn : Type :=
| DialError (err : error)
| WriteConfigError (err : error)
| WriteSSMLError (err : error)
| Connected (msgs : list Message).

Record Communicate : Type := {
  ttsConfig : TTSConfig;
  texts : list bytes;
  state : CommunicateState
}.

Definition WordBoundary : bytes := str "WordBoundary".
Definition SentenceBoundary : bytes := str "SentenceBoundary".
Definition SessionEnd : bytes := str "SessionEnd".

Definition isBoundaryType (t : bytes) : bool :=
  if bytes_eq_dec t WordBoundary then true
  else if bytes_eq_dec t SentenceBoundary then true else false.

Definition setLastDurationOffset (st : CommunicateState) (v : Z) :=
  {| PartialText := PartialText st; OffsetCompensation := OffsetCompensation st;
     LastDurationOffset := v; StreamWasCalled := StreamWasCalled st |}.

Definition setOffsetCompensation (st : CommunicateState) (v : Z) :=
  {| PartialText := PartialText st; OffsetCompensation := v;
     LastDurationOffset := LastDurationOffset st;
     StreamWasCalled := StreamWasCalled st |}.

Definition setPartialText (st : CommunicateState) (t : bytes) :=
  {| PartialText := t; OffsetCompensation := OffsetCompensation st;
     LastDurationOffset := LastDurationOffset st;
     StreamWasCalled := StreamWasCalled st |}.

Definition setStreamWasCalled (st : CommunicateState) :=
  {| PartialText := PartialText st; OffsetCompensation := OffsetCompensation st;
     LastDurationOffset := LastDurationOffset st; StreamWasCalled := true |}.

Definition setState (c : Communicate) (st : CommunicateState) : Communicate :=
  {| ttsConfig := ttsConfig c; texts := texts c; state := st |}.

(** The header scan of [stream]:
    [for i := 0; i < len(data)-3; i++], stopping at the first CR LF CR LF. *)
Fixpoint findHeaderEnd (data : bytes) (i : Z) : Z :=
  match data with
  | a :: rest =>
      match rest with
      | b :: c :: d :: _ =>
          if (a =? CR) && (b =? NL) && (c =? CR) && (d =? NL) then i
          else findHeaderEnd rest (i + 1)
      | _ => -1
      end
  | [] => -1
  end.

(** The path of a text message: [headers["Path"]], when the message
    has the blank line that ends its headers ([stream] skips it when
    it has none). *)
Definition textPath (data : bytes) : option bytes :=
  let headerEnd := findHeaderEnd data 0 in
  if headerEnd <? 0 then None
  else
    let (headers, body) := GetHeadersAndData data headerEnd in
    Some (header headers (str "Path")).

Section Session.

(** [html.UnescapeString], which the session applies to the text of a
    boundary; no property here depends on what it returns. *)
Variable UnescapeXML : bytes -> bytes.

(** The loop of [parseMetadata] over [resp.Metadata]. *)
Fixpoint parseEntries (st : CommunicateState) (entries : list Metadata)
  : error + TTSChunk :=
  match entries with
  | [] => inl (Wrapf ErrUnexpectedResponse (str "no WordBoundary metadata found"))
  | meta :: rest =>
      if isBoundaryType (meta_Type meta) then
        let currentOffset := meta_Offset meta + OffsetCompensation st in
        inr {| Type_ := meta_Type meta;
               Data := [];
               Duration := meta_Duration meta;
               Offset := currentOffset;
               Text := UnescapeXML (meta_Text meta) |}
      else if bytes_eq_dec (meta_Type meta) SessionEnd then parseEntries st rest
      else inl (Wrapf ErrUnknownResponse
                  (str "unknown metadata type: " ++ meta_Type meta))
  end.

Definition parseMetadata (st : CommunicateState) (json : error + MetadataResponse)
  : error + TTSChunk :=
  match json with
  | inl err => inl err
  | inr resp => parseEntries st resp
  end.

(** What a session leaves: the state, the chunks sent on [chunkCh] in
    order, and the error sent on [errCh], if any. *)
Definition Outcome : Type := CommunicateState * list TTSChunk * option error.

Definition fail (st : CommunicateState) (e : error) : Outcome := (st, [], Some e).

Definition send (ch : TTSChunk) (o : Outcome) : Outcome :=
  let '(st, out, e) := o in (st, ch :: out, e).

(** The label [done] of [stream]. *)
Definition done (st : CommunicateState) (audioReceived : bool) : Outcome :=
  (st, [], if audioReceived then None else Some ErrNoAudioReceived).

(** One binary message: an error, a frame to skip, or audio to send. *)
Definition binaryFrame (data : bytes) : error + option TTSChunk :=
  if len data <? 2 then
    inl (Wrapf ErrUnexpectedResponse (str "binary message missing header length"))
  else
    let headerLength := nth 0 data 0 * 256 + nth 1 data 0 in
    if len data <? headerLength + 2 then
      inl (Wrapf ErrUnexpectedResponse (str "header length > data length"))
    else
      let (headers, body) := GetHeadersAndData (slice_from data 2) headerLength in
      if bytes_eq_dec (header headers (str "Path")) (str "audio") then
        let contentType := header headers (str "Content-Type") in
        if bytes_eq_dec contentType (str "audio/mpeg") then
          if len body =? 0 then
            inl (Wrapf ErrUnexpectedResponse (str "audio content type but no data"))
          else
            inr (Some {| Type_ := str "audio"; Data := body;
                         Duration := 0; Offset := 0; Text := [] |})
        else if bytes_eq_dec contentType [] then
          if len body =? 0 then inr None
          else inl (Wrapf ErrUnexpectedResponse (str "no content type but has data"))
        else
          inl (Wrapf ErrUnexpectedResponse
                 (str "unexpected content type: " ++ contentType))
      else
        inl (Wrapf ErrUnexpectedResponse (str "binary message path is not audio")).

(** The read loop of [stream].  When no message is left the read
    deadline passes, which [ReadMessage] reports as an error. *)
Fixpoint readLoop (st : CommunicateState) (audioReceived : bool)
  (msgs : list Message) : Outcome :=
  match msgs with
  | [] => fail st (Prefixed (str "read message error") (LibError (str "i/o timeout")))
  | CtxDone err :: _ => fail st err
  | ReadError normalClosure err :: _ =>
      if normalClosure then done st audioReceived
      else fail st (Prefixed (str "read message error") err)
  | TextMessage data json :: rest =>
      match textPath data with
      | None => readLoop st audioReceived rest
      | Some path =>
          if bytes_eq_dec path (str "audio.metadata") then
            match parseMetadata st json with
            | inl err => fail st err
            | inr parsed =>
                send parsed
                  (readLoop
                     (setLastDurationOffset st (Offset parsed + Duration parsed))
                     audioReceived rest)
            end
          else if bytes_eq_dec path (str "turn.end") then
            done (setOffsetCompensation st (LastDurationOffset st + 8750000))
              audioReceived
          else if bytes_eq_dec path (str "response") then
            readLoop st audioReceived rest
          else if bytes_eq_dec path (str "turn.start") then
            readLoop st audioReceived rest
          else fail st (Wrapf ErrUnknownResponse (str "unknown path: " ++ path))
      end
  | BinaryMessage data :: rest =>
      match binaryFrame data with
      | inl err => fail st err
      | inr None => readLoop st audioReceived rest
      | inr (Some ch) => send ch (readLoop st true rest)
      end
  end.

(** [stream]: one session, for the chunk in [PartialText]. *)
Definition stream (st : CommunicateState) (conn : Conn) : Outcome :=
  match conn with
  | DialError err => fail st (Prefixed (str "websocket dial error") err)
  | WriteConfigError err => fail st (Prefixed (str "write config error") err)
  | WriteSSMLError err => fail st (Prefixed (str "write ssml error") err)
  | Connected msgs => readLoop st false msgs
  end.

(** The loop of [Stream] over [c.texts]; [net] holds the connections
    the sessions get, one for each, in order: a session for which none
    is left finds the service silent.  The chunks of a session that
    fails are all forwarded here before its error; the [select] of the
    code may take the error first and leave chunks that are still
    buffered. *)
Fixpoint streamTexts (st : CommunicateState) (txts : list bytes)
  (net : list Conn) : Outcome :=
  match txts with
  | [] => (st, [], None)
  | text :: txts' =>
      let '(st1, out, e) := stream (setPartialText st text) (hd (Connected []) net) in
      match e with
      | Some err => (st1, out, Some err)
      | None =>
          let '(st2, out', e') := streamTexts st1 txts' (tl net) in
          (st2, out ++ out', e')
      end
  end.

(** [Stream]: the instance it leaves, the chunks and the error the
    caller receives. *)
Definition Stream (c : Communicate) (net : list Conn)
  : Communicate * list TTSChunk * option error :=
  if StreamWasCalled (state c) then (c, [], Some ErrStreamAlreadyCalled)
  else
    let '(st, out, e) := streamTexts (setStreamWasCalled (state c)) (texts c) net in
    (setState c st, out, e).

End Session.

(** The boundary [parseMetadata] makes of an entry. *)
Definition boundaryChunk (UnescapeXML : bytes -> bytes) (st : CommunicateState)
  (meta : Metadata) : TTSChunk :=
  {| Type_ := meta_Type meta;
     Data := [];
     Duration := meta_Duration meta;
     Offset := meta_Offset meta + OffsetCompensation st;
     Text := UnescapeXML (meta_Text meta) |}.

Definition isSessionEnd (meta : Metadata) : bool :=
  if bytes_eq_dec (meta_Type meta) SessionEnd then true else false.

(** The offsets of the boundaries among the chunks a caller receives. *)
Definition boundaryOffsets (out : list TTSChunk) : list Z :=
  map Offset (filter (fun ch => isBoundaryType (Type_ ch)) out).

(** The boundary entries the service sends in a message, and in a
    session, in order. *)
Definition frameBoundaries (m : Message) : list Metadata :=
  match m with
  | TextMessage data (inr resp) =>
      match textPath data with
      | Some path =>
          if bytes_eq_dec path (str "audio.metadata")
          then filter (fun e => isBoundaryType (meta_Type e)) resp
          else []
      | None => []
      end
  | _ => []
  end.

Definition serverBoundaries (conn : Conn) : list Metadata :=
  match conn with
  | Connected msgs => flat_map frameBoundaries msgs
  | _ => []
  end.

(** The service's offsets do not decrease within a session. *)
Definition offsetsAscend (conn : Conn) : Prop :=
  Sorted Z.le (map meta_Offset (serverBoundaries conn)).

(** No offset and no duration of the service is negative. *)
Definition timesNonNegative (conn : Conn) : Prop :=
  Forall (fun e => 0 <= meta_Offset e /\ 0 <= meta_Duration e)
    (serverBoundaries conn).

(** The service does not close the connection in place of [turn.end]. *)
Definition closedByPeer (m : Message) : bool :=
  match m with
  | ReadError true _ => true
  | _ => false
  end.

Definition notClosedByPeer (conn : Conn) : Prop :=
  match conn with
  | Connected msgs => forallb (fun m => negb (closedByPeer m)) msgs = true
  | _ => True
  end.

(** [NewCommunicate], the options applied in order. *)
Definition CommunicateOption := Communicate -> Communicate.

Definition withConfig (f : TTSConfig -> TTSConfig) : CommunicateOption :=
  fun c => {| ttsConfig := f (ttsConfig c); texts := texts c; state := state c |}.

Definition WithRate (rate : bytes) : CommunicateOption :=
  withConfig (fun tc => {| Voice := Voice tc; Rate := rate; Volume := Volume tc;
                           Pitch := Pitch tc; Boundary := Boundary tc |}).
Definition WithVolume (volume : bytes) : CommunicateOption :=
  withConfig (fun tc => {| Voice := Voice tc; Rate := Rate tc; Volume := volume;
                           Pitch := Pitch tc; Boundary := Boundary tc |}).
Definition WithPitch (pitch : bytes) : CommunicateOption :=
  withConfig (fun tc => {| Voice := Voice tc; Rate := Rate tc; Volume := Volume tc;
                           Pitch := pitch; Boundary := Boundary tc |}).
Definition WithBoundary (boundary : bytes) : CommunicateOption :=
  withConfig (fun tc => {| Voice := Voice tc; Rate := Rate tc; Volume := Volume tc;
                           Pitch := Pitch tc; Boundary := boundary |}).

Definition DefaultVoice : bytes := str "en-US-EmmaMultilingualNeural".

Definition NewCommunicate (text voice : bytes) (opts : list CommunicateOption)
  : error + Communicate :=
  let voice := if bytes_eq_dec voice [] then DefaultVoice else voice in
  let c :=
    {| ttsConfig := {| Voice := voice; Rate := str "+0%"; Volume := str "+0%";
                       Pitch := str "+0Hz"; Boundary := SentenceBoundary |};
       texts := [];
       state := {| PartialText := []; OffsetCompensation := 0;
                   LastDurationOffset := 0; StreamWasCalled := false |} |} in
  let c := fold_left (fun c opt => opt c) opts c in
  match ValidateTTSConfig (ttsConfig c) with
  | (_, Some err) => inl err
  | (tc, None) =>
      inr {| ttsConfig := tc; texts := prepareTexts text 4096; state := state c |}
  end.

(* ================================================================== *)
(** ** srt.go *)

(** [time.Duration], in nanoseconds. *)
Definition Microsecond : Z := 1000.

Record Subtitle : Type := {
  Index_ : Z;
  Start : Z;
  End_ : Z;
  Content : bytes
}.

(** [strings.Contains(content, "\n\n")] *)
Fixpoint hasBlankLine (s : bytes) : bool :=
  match s with
  | a :: rest =>
      match rest with
      | b :: _ => ((a =? NL) && (b =? NL)) || hasBlankLine rest
      | [] => false
      end
  | [] => false
  end.

Fixpoint dropNewlines (s : bytes) : bytes :=
  match s with
  | b :: rest => if b =? NL then dropNewlines rest else s
  | [] => []
  end.

(** [strings.Trim(content, "\n")] *)
Definition TrimNewlines (s : bytes) : bytes :=
  rev (dropNewlines (rev (dropNewlines s))).

(** [multiWSRegex.ReplaceAllString(content, "\n")] for the pattern
    [\n\n+]: a newline that another newline follows is dropped, which
    leaves one newline of every run. *)
Fixpoint collapseNewlines (s : bytes) : bytes :=
  match s with
  | a :: rest =>
      match rest with
      | b :: _ =>
          if (a =? NL) && (b =? NL) then collapseNewlines rest
          else a :: collapseNewlines rest
      | [] => [a]
      end
  | [] => []
  end.

Definition makeLegalContent (content : bytes) : bytes :=
  if negb (len content =? 0) && negb (nth 0 content 0 =? NL)
     && negb (hasBlankLine content)
  then content
  else collapseNewlines (TrimNewlines content).

(** [d.Seconds()] is a float; its conversion to [int64] drops the
    fraction, as Go's integer division and remainder do.  The float is
    the sum of the whole seconds and of the fraction; below 2^24
    seconds its whole part is the quotient taken here, from there on
    the sum can be rounded up to the next second. *)
Definition timeDurationToSRTTimestamp (d : Z) : bytes :=
  let totalSeconds := Z.quot d 1000000000 in
  let hours := Z.quot totalSeconds 3600 in
  let minutes := Z.quot (Z.rem totalSeconds 3600) 60 in
  let seconds := Z.rem totalSeconds 60 in
  let milliseconds := Z.rem (Z.quot d 1000000) 1000 in
  itoa_pad 2 hours ++ str ":" ++ itoa_pad 2 minutes ++ str ":"
  ++ itoa_pad 2 seconds ++ str "," ++ itoa_pad 3 milliseconds.

(** [strings.ReplaceAll(content, "\n", eol)] *)
Definition replaceNewlines (content eol : bytes) : bytes :=
  flat_map (fun b => if b =? NL then eol else [b]) content.

Definition ToSRT (s : Subtitle) (eol : bytes) : bytes :=
  let eol := if bytes_eq_dec eol [] then [NL] else eol in
  let content := makeLegalContent (Content s) in
  let content :=
    if bytes_eq_dec eol [NL] then content else replaceNewlines content eol in
  let idx := Index_ s in
  itoa idx ++ eol
  ++ timeDurationToSRTTimestamp (Start s) ++ str " --> "
  ++ timeDurationToSRTTimestamp (End_ s) ++ eol
  ++ content ++ eol ++ eol.

(** The order [sortAndReindex] hands to [sort.Slice]. *)
Definition less (a b : Subtitle) : bool :=
  if negb (Start a =? Start b) then Start a <? Start b
  else if negb (End_ a =? End_ b) then End_ a <? End_ b
  else Index_ a <? Index_ b.

(** What [less] compares. *)
Definition sortKey (c : Subtitle) : Z * Z * Z := (Start c, End_ c, Index_ c).

(** [sort.Slice] by insertion; cues equal in start, end and index keep
    their order here, which [sort.Slice] does not promise.  When no two
    cues agree in [sortKey] there is one sorted order only, and it is
    the one [sort.Slice] gives as well. *)
Fixpoint insertCue (x : Subtitle) (l : list Subtitle) : list Subtitle :=
  match l with
  | [] => [x]
  | y :: l' => if less y x then y :: insertCue x l' else x :: y :: l'
  end.

Fixpoint sortCues (l : list Subtitle) : list Subtitle :=
  match l with
  | [] => []
  | x :: l' => insertCue x (sortCues l')
  end.

(** [shouldSkip]: the three tests of the loop that [continue]. *)
Definition shouldSkip (sub : Subtitle) : bool :=
  (len (TrimSpace (Content sub)) =? 0)
  || (Start sub <? 0)
  || (End_ sub <=? Start sub).

(** The loop of [sortAndReindex] with its counters [idx] and [skipped]. *)
Fixpoint reindexLoop (sorted : list Subtitle) (skip : bool) (idx skipped : Z)
  : list Subtitle :=
  match sorted with
  | [] => []
  | sub :: rest =>
      if skip && shouldSkip sub then reindexLoop rest skip idx (skipped + 1)
      else
        {| Index_ := idx - skipped; Start := Start sub; End_ := End_ sub;
           Content := Content sub |}
        :: reindexLoop rest skip (idx + 1) skipped
  end.

Definition sortAndReindex (subtitles : list Subtitle) (startIndex : Z)
  (skip : bool) : list Subtitle :=
  reindexLoop (sortCues subtitles) skip startIndex 0.

Definition ComposeSRT (subtitles : list Subtitle) (reindex : bool)
  (startIndex : Z) (eol : bytes) : bytes :=
  let subtitles :=
    if reindex then sortAndReindex subtitles startIndex true else subtitles in
  flat_map (fun sub => ToSRT sub eol) subtitles.

(* ================================================================== *)
(** ** submaker.go *)

Record SubMaker : Type := {
  Cues : list Subtitle;
  CueType : bytes
}.

Definition NewSubMaker : SubMaker := {| Cues := []; CueType := [] |}.

(** [Feed] leaves the assembler it returns.  [msg.Offset] and
    [msg.Duration] are float64 in the source and whole numbers of ticks
    here; [msg.Offset / 10] is a float whose conversion to
    [time.Duration] drops the fraction, and the product with
    [time.Microsecond] is taken in int64.  The quotient and the product
    below are those of the code for the tick counts of [exactTimes];
    beyond them the float64 sum and quotient are rounded and the
    conversion and the product can leave int64, which is not followed
    here. *)
Definition Feed (sm : SubMaker) (msg : TTSChunk) : SubMaker * option error :=
  if negb (isBoundaryType (Type_ msg)) then
    (sm, Some (Errorf
       (str "invalid message type, expected 'WordBoundary' or 'SentenceBoundary', got '"
        ++ Type_ msg ++ str "'")))
  else
    let fed (sm : SubMaker) :=
      let startMicros := Z.quot (Offset msg) 10 in
      let endMicros := Z.quot (Offset msg + Duration msg) 10 in
      let subtitle :=
        {| Index_ := Z.of_nat (length (Cues sm)) + 1;
           Start := startMicros * Microsecond;
           End_ := endMicros * Microsecond;
           Content := Text msg |} in
      ({| Cues := Cues sm ++ [subtitle]; CueType := CueType sm |}, None) in
    if bytes_eq_dec (CueType sm) [] then
      fed {| Cues := Cues sm; CueType := Type_ msg |}
    else if bytes_eq_dec (CueType sm) (Type_ msg) then fed sm
    else
      (sm, Some (Errorf
         (str "expected message type '" ++ CueType sm ++ str "', but got '"
          ++ Type_ msg ++ str "'"))).

Definition GetSRT (sm : SubMaker) : bytes := ComposeSRT (Cues sm) true 1 [].

(** The tick counts at which [Feed] above computes what the code
    computes.  A whole number of up to 2^53 in size is a float64; the
    sum of two of them that stays in this range is exact; the float64
    quotient by 10 of such a number lies no more than 1/16 from the
    exact one, whose fraction is 9/10 at most, so that its whole part
    is [Z.quot _ 10]; and 1000 times this quotient is below 2^63 in
    size. *)
Definition exactTicks (x : Z) : Prop := - 2 ^ 53 <= x <= 2 ^ 53.

Definition exactTimes (msg : TTSChunk) : Prop :=
  exactTicks (Offset msg) /\ exactTicks (Duration msg)
  /\ exactTicks (Offset msg + Duration msg).

(** A boundary that ends before a hundred hours, in ticks of 100 ns:
    there, moreover, [timeDurationToSRTTimestamp] is what the code
    prints. *)
Definition underHundredHours (msg : TTSChunk) : Prop :=
  0 <= Offset msg /\ 0 <= Duration msg
  /\ Offset msg + Duration msg < 360000 * 10000000.

(* ================================================================== *)
(** ** crypto/sha256 and encoding/hex *)

Module sha256.

Definition mask32 (x : Z) : Z := x mod 4294967296.
Definition rotr (n x : Z) : Z :=
  Z.lor (Z.shiftr x n) (mask32 (Z.shiftl x (32 - n))).
Definition xor3 (x y z : Z) : Z := Z.lxor (Z.lxor x y) z.

Definition Ch (x y z : Z) : Z :=
  Z.lxor (Z.land x y) (Z.land (mask32 (Z.lnot x)) z).
Definition Maj (x y z : Z) : Z :=
  xor3 (Z.land x y) (Z.land x z) (Z.land y z).
Definition bigSigma0 (x : Z) : Z := xor3 (rotr 2 x) (rotr 13 x) (rotr 22 x).
Definition bigSigma1 (x : Z) : Z := xor3 (rotr 6 x) (rotr 11 x) (rotr 25 x).
Definition smallSigma0 (x : Z) : Z := xor3 (rotr 7 x) (rotr 18 x) (Z.shiftr x 3).
Definition smallSigma1 (x : Z) : Z := xor3 (rotr 17 x) (rotr 19 x) (Z.shiftr x 10).

(** The round constants: the first 32 bits of the fractional parts of
    the cube roots of the first 64 primes. *)
Definition K : list Z :=
  [1116352408; 1899447441; 3049323471; 3921009573; 961987163; 1508970993;
   2453635748; 2870763221; 3624381080; 310598401; 607225278; 1426881987;
   1925078388; 2162078206; 2614888103; 3248222580; 3835390401; 4022224774;
   264347078; 604807628; 770255983; 1249150122; 1555081692; 1996064986;
   2554220882; 2821834349; 2952996808; 3210313671; 3336571891; 3584528711;
   113926993; 338241895; 666307205; 773529912; 1294757372; 1396182291;
   1695183700; 1986661051; 2177026350; 2456956037; 2730485921; 2820302411;
   3259730800; 3345764771; 3516065817; 3600352804; 4094571909; 275423344;
   430227734; 506948616; 659060556; 883997877; 958139571; 1322822218;
   1537002063; 1747873779; 1955562222; 2024104815; 2227730452; 2361852424;
   2428436474; 2756734187; 3204031479; 3329325298].

(** The initial hash value, from the square roots of the first 8 primes. *)
Definition init : list Z :=
  [1779033703; 3144134277; 1013904242; 2773480762; 1359893119; 2600822924;
   528734635; 1541459225].

(** The message with its padding: a one bit, zeros, and the length in
    bits as 8 bytes, most significant first. *)
Definition be (n : nat) (x : Z) : bytes :=
  map (fun i => (x / 256 ^ Z.of_nat i) mod 256) (rev (seq 0 n)).

Definition pad (msg : bytes) : bytes :=
  msg ++ [128] ++ repeat 0 (Z.to_nat ((55 - len msg) mod 64)) ++ be 8 (8 * len msg).

Fixpoint words (n : nat) (block : bytes) : list Z :=
  match n with
  | O => []
  | S n' =>
      match block with
      | a :: b :: c :: d :: rest =>
          (((a * 256 + b) * 256 + c) * 256 + d) :: words n' rest
      | _ => []
      end
  end.

(** The message schedule, newest word first. *)
Fixpoint extend (n : nat) (w : list Z) : list Z :=
  match n with
  | O => w
  | S n' =>
      let x := mask32 (smallSigma1 (nth 1 w 0) + nth 6 w 0
                       + smallSigma0 (nth 14 w 0) + nth 15 w 0) in
      extend n' (x :: w)
  end.

Definition schedule (block : bytes) : list Z :=
  rev (extend 48 (rev (words 16 block))).

Definition round (s : list Z) (kw : Z * Z) : list Z :=
  match s with
  | [a; b; c; d; e; f; g; h] =>
      let t1 := h + bigSigma1 e + Ch e f g + fst kw + snd kw in
      let t2 := bigSigma0 a + Maj a b c in
      [mask32 (t1 + t2); a; b; c; mask32 (d + t1); e; f; g]
  | _ => s
  end.

Definition compress (h : list Z) (block : bytes) : list Z :=
  map (fun p => mask32 (fst p + snd p))
    (combine h (fold_left round (combine K (schedule block)) h)).

Fixpoint blocks (n : nat) (h : list Z) (data : bytes) : list Z :=
  match n with
  | O => h
  | S n' => blocks n' (compress h (firstn 64 data)) (skipn 64 data)
  end.

(** [sha256.Sum256(msg)], as 32 bytes. *)
Definition Sum256 (msg : bytes) : bytes :=
  let data := pad msg in
  flat_map (be 4) (blocks (length data / 64) init data).

End sha256.

(** [hex.EncodeToString] *)
Definition hexDigit (d : Z) : Z := if d <? 10 then 48 + d else 87 + d.
Definition EncodeToString (b : bytes) : bytes :=
  flat_map (fun x => [hexDigit (x / 16); hexDigit (x mod 16)]) b.

(** [strings.ToUpper], on the ASCII letters; the strings it is applied
    to here are hexadecimal digits. *)
Definition ToUpper (s : bytes) : bytes :=
  map (fun b => if utf8.between 97 122 b then b - 32 else b) s.

(* ================================================================== *)
(** ** drm.go and constants.go

    A [float64] is modelled by the rational it stands for and its
    arithmetic by exact arithmetic; the clock read by [time.Now] is the
    argument [now], in whole seconds as [Unix()] returns it. *)

Definition TrustedClientToken : bytes := str "6A5AA1D4EAFF4E9FB37E23D68491D6F4".
Definition WinEpoch : Z := 11644473600.
Definition SToNS : Z := 1000000000.

Record DRM : Type := { clockSkewSeconds : Q }.

Definition AdjClockSkewSeconds (d : DRM) (skewSeconds : Q) : DRM :=
  {| clockSkewSeconds := (clockSkewSeconds d + skewSeconds)%Q |}.

Definition GetUnixTimestamp (now : Z) (d : DRM) : Q :=
  (inject_Z now + clockSkewSeconds d)%Q.

(** [int64(x)] for a float [x]: the fraction is dropped. *)
Definition toInt64 (x : Q) : Z := Z.quot (Qnum x) (Zpos (Qden x)).

(** [fmt.Sprintf("%.0f", x)]: the nearest integer, a tie going to the
    even one. *)
Definition roundToInteger (x : Q) : Z :=
  let f := Qfloor x in
  match Qcompare (x - inject_Z f) (1 # 2) with
  | Lt => f
  | Gt => f + 1
  | Eq => if Z.even f then f else f + 1
  end.

(** [ticks] as [GenerateSecMSGEC] has it before formatting, the
    float64 operations taken without rounding: so they are for a clock
    and a correction in whole seconds. *)
Definition secMSGECTicks (now : Z) (d : DRM) : Q :=
  let ticks := GetUnixTimestamp now d in
  let ticks := (ticks + inject_Z WinEpoch)%Q in
  let ticks := (ticks - inject_Z (Z.rem (toInt64 ticks) 300))%Q in
  (ticks * inject_Z (SToNS / 100))%Q.

Definition strToHash (now : Z) (d : DRM) : bytes :=
  itoa (roundToInteger (secMSGECTicks now d)) ++ TrustedClientToken.

Definition GenerateSecMSGEC (now : Z) (d : DRM) : bytes :=
  ToUpper (EncodeToString (sha256.Sum256 (strToHash now d))).

(** The token as the specification words it: the corrected time moved
    to the Windows epoch, floored to a multiple of 300 seconds, in
    units of 100 ns. *)
Definition specTicks (t : Q) : Z :=
  Qfloor ((t + inject_Z WinEpoch) / inject_Z 300) * 300 * 10000000.

Definition specToken (t : Q) : bytes :=
  ToUpper (EncodeToString (sha256.Sum256 (itoa (specTicks t) ++ TrustedClientToken))).

(* ================================================================== *)
(** ** Values to run the code on *)

Definition cue (i s e : Z) (c : bytes) : Subtitle :=
  {| Index_ := i; Start := s; End_ := e; Content := c |}.

Definition boundary (kind : bytes) (offset duration : Z) (text : bytes) : TTSChunk :=
  {| Type_ := kind; Data := []; Duration := duration; Offset := offset; Text := text |}.

Definition entry (kind : bytes) (offset duration : Z) (text : bytes) : Metadata :=
  {| meta_Type := kind; meta_Offset := offset; meta_Duration := duration;
     meta_Text := text |}.

Definition CRLF : bytes := [CR; NL].

(** A text message with the one header [Path]. *)
Definition textFrame (path : bytes) (json : error + MetadataResponse) : Message :=
  TextMessage (str "Path:" ++ path ++ CRLF ++ CRLF) json.

Definition metadataFrame (entries : MetadataResponse) : Message :=
  textFrame (str "audio.metadata") (inr entries).

Definition turnEnd : Message := textFrame (str "turn.end") (inr []).

(** A binary message that carries audio. *)
Definition audioFrame (body : bytes) : Message :=
  let headers :=
    str "Content-Type:audio/mpeg" ++ CRLF ++ str "Path:audio" ++ CRLF in
  BinaryMessage ([len headers / 256; len headers mod 256] ++ headers ++ body).

(** The state [NewCommunicate] starts an instance in. *)
Definition freshState : CommunicateState :=
  {| PartialText := []; OffsetCompensation := 0; LastDurationOffset := 0;
     StreamWasCalled := false |}.

Definition defaultConfig (voice : bytes) : TTSConfig :=
  {| Voice := voice; Rate := str "+0%"; Volume := str "+0%";
     Pitch := str "+0Hz"; Boundary := SentenceBoundary |}.

(** On a text without [&], [html.UnescapeString] changes nothing. *)
Definition unescapePlain (s : bytes) : bytes := s.

(** A text the preparer cuts in two, and an instance made for it. *)
Definition twoChunkText : bytes := repeat 97 3000 ++ [SP] ++ repeat 98 3000.

Definition twoChunks : Communicate :=
  {| ttsConfig := defaultConfig (str "Microsoft Server Speech Text to Speech Voice (en-US, EmmaMultilingualNeural)");
     texts := [repeat 97 3000; repeat 98 3000];
     state := freshState |}.

(** Two sessions as the service runs them. *)
Definition netInOrder : list Conn :=
  [Connected [metadataFrame [entry WordBoundary 1000000 5000000 (str "a")];
              audioFrame [1];
              metadataFrame [entry WordBoundary 7000000 2000000 (str "a")];
              turnEnd];
   Connected [metadataFrame [entry WordBoundary 1000000 5000000 (str "b")];
              audioFrame [2];
              turnEnd]].

(** A first boundary with a negative duration. *)
Definition netNegativeDuration : list Conn :=
  [Connected [metadataFrame [entry WordBoundary 0 (-20000000) (str "a")];
              audioFrame [1];
              turnEnd];
   Connected [metadataFrame [entry WordBoundary 0 5000000 (str "b")];
              audioFrame [2];
              turnEnd]].

(** A first session the service closes without turn.end. *)
Definition netClosedEarly : list Conn :=
  [Connected [metadataFrame [entry WordBoundary 5000000 1000000 (str "a")];
              audioFrame [1];
              ReadError true (LibError (str "websocket: close 1000 (normal)"))];
   Connected [metadataFrame [entry WordBoundary 1000000 5000000 (str "b")];
              audioFrame [2];
              turnEnd]].

(* ================================================================== *)
(** ** What the properties of the text preparer are stated with *)

(** One well-formed encoded rune: a first byte, the continuation bytes
    the table asks for, and nothing that a following string could
    change. *)
Definition Rune (r : bytes) : Prop :=
  exists b tl lo hi,
    r = b :: tl /\ utf8.lead b = Some (length tl, lo, hi)
    /\ Forall (fun x => utf8.cont x = true) tl
    /\ forall q, utf8.Valid (r ++ q) = utf8.Valid q.

(** The entities [EscapeXML] writes. *)
Definition entities : list bytes :=
  [str "&amp;"; str "&#39;"; str "&lt;"; str "&gt;"; str "&#34;"].

(** One of the entities stands in [text] at index [i], whole. *)
Definition entityAt (text : bytes) (i : nat) : Prop :=
  exists e, In e entities /\ firstn (length e) (skipn i text) = e.

(** Every [&] of [text] starts an entity that is whole. *)
Definition entitiesWhole (text : bytes) : Prop :=
  forall i, nth_error text i = Some AMP -> entityAt text i.

(** The bytes of the entities between [&] and [;]. *)
Definition entityByte (c : Z) : Prop := In c (str "amp#39ltg4").

(** [x] is made of entries of [table], one after the other. *)
Inductive Spaces (table : list bytes) : bytes -> Prop :=
| Spaces_nil : Spaces table []
| Spaces_cons (e rest : bytes) :
    In e table -> Spaces table rest -> Spaces table (e ++ rest).

(** The first bytes of the encodings of the white-space runes. *)
Definition spaceLead (c : Z) : bool :=
  if in_dec Z.eq_dec c [9; 10; 11; 12; 13; 32; 194; 225; 226; 227]
  then true else false.

(** Every [&] of [chunk] is followed by a [;] in [chunk]. *)
Definition ampersandsClosed (chunk : bytes) : Prop :=
  forall i, nth_error chunk i = Some AMP ->
            exists j, (i < j)%nat /\ nth_error chunk j = Some SEMI.

(** [x] is white space: encoded white-space runes and nothing else. *)
Definition whiteSpace (x : bytes) : Prop := Spaces spaceEncodings x.

(** A piece of the text: white space, a chunk, white space. *)
Definition pieceOf (seg : bytes * bytes * bytes) : bytes :=
  let '(pre, mid, post) := seg in pre ++ mid ++ post.

Definition chunkOf (seg : bytes * bytes * bytes) : bytes :=
  let '(pre, mid, post) := seg in mid.

Definition trimmed (seg : bytes * bytes * bytes) : Prop :=
  let '(pre, mid, post) := seg in
  whiteSpace pre /\ whiteSpace post /\ mid = TrimSpace (pre ++ mid ++ post).

(** A text with an apostrophe, runes of three bytes, a control
    character and runs of [<] and [&]. *)
Definition sampleText : bytes :=
  str "Tom & Jerry's "
  ++ [228; 184; 173; 230; 150; 135; 228; 184; 173; 230; 150; 135;
      228; 184; 173; 230; 150; 135; 1]
  ++ str "<<<<<<&&&&&&" ++ [NL] ++ str "end".

(** A short voice name and the long form it is rewritten to. *)
Definition isLower (b : Z) : Prop := 97 <= b <= 122.
Definition isUpper (b : Z) : Prop := 65 <= b <= 90.

Definition shortVoice (lang region name : bytes) : bytes :=
  lang ++ str "-" ++ region ++ str "-" ++ name.

Definition longVoice (lang region name : bytes) : bytes :=
  voicePrefix ++ lang ++ str "-" ++ region ++ str ", " ++ name ++ str ")".

(** The voice short names are rewritten to: the name as it is, or,
    when it holds a dash, the part up to its first dash moved to the
    region. *)
Definition normalized (lang region name : bytes) : bytes :=
  if Index name DASH =? -1 then longVoice lang region name
  else longVoice lang (region ++ str "-" ++ slice_to name (Index name DASH))
         (slice_from name (Index name DASH + 1)).

(** A digit or a capital letter from A to F. *)
Definition isUpperHex (c : Z) : Prop := 48 <= c <= 57 \/ 65 <= c <= 70.

(** The content begins, or ends, with a newline. *)
Definition startsWithNewline (s : bytes) : Prop := nth_error s 0 = Some NL.
Definition endsWithNewline (s : bytes) : Prop := nth_error (rev s) 0 = Some NL.

(** The test of [makeLegalContent] for returning the content as it is. *)
Definition looksLegal (content : bytes) : bool :=
  negb (len content =? 0) && negb (nth 0 content 0 =? NL)
  && negb (hasBlankLine content).

(** The content without the newlines at its ends and with one newline
    for every run of them. *)
Definition sanitized (content : bytes) : bytes :=
  collapseNewlines (TrimNewlines content).

(* ================================================================== *)
(** ** What the further properties of util.go are stated with *)

(** The bytes [EscapeXML] replaces, the ampersand apart:
    the two quotes and the two angle brackets. *)
Definition markup (b : Z) : Prop := b = 34 \/ b = 39 \/ b = 60 \/ b = 62.

(** The test of [RemoveIncompatibleCharacters] on a code point. *)
Definition incompatible (code : Z) : bool :=
  ((0 <=? code) && (code <=? 8)) || ((11 <=? code) && (code <=? 12))
  || ((14 <=? code) && (code <=? 31)).

(** A text of ASCII control characters and white space only. *)
Definition blank (text : bytes) : Prop := Forall (fun b => 0 <= b <= 32) text.

(* ================================================================== *)
(** ** util.go: the request the client sends, and header blocks *)

Definition SSMLHeadersPlusData (requestID timestamp ssml : bytes) : bytes :=
  str "X-RequestId:" ++ requestID ++ CRLF
  ++ str "Content-Type:application/ssml+xml" ++ CRLF
  ++ str "X-Timestamp:" ++ timestamp ++ str "Z" ++ CRLF
  ++ str "Path:ssml" ++ CRLF ++ CRLF
  ++ ssml.

(** [bytes.Join(lines, "\r\n")]: the header block with the given lines. *)
Fixpoint joinCRLF (lines : list bytes) : bytes :=
  match lines with
  | [] => []
  | l :: rest =>
      match rest with
      | [] => l
      | _ :: _ => l ++ CRLF ++ joinCRLF rest
      end
  end.

Definition COLON : Z := 58.

(** The line starts with the key and a colon. *)
Definition headerLine (k line : bytes) : bool := prefixb (k ++ [COLON]) line.

(** The value the lines of a header block give a key: what follows the
    colon in the last line that starts with the key and a colon, and
    the empty string when there is none. *)
Definition valueOf (lines : list bytes) (k : bytes) : bytes :=
  match find (headerLine k) (rev lines) with
  | Some line => skipn (length k + 1) line
  | None => []
  end.

(** The four bytes that end a header block stand at index [i]. *)
Definition blankLineAt (data : bytes) (i : nat) : Prop :=
  firstn 4 (skipn i data) = CRLF ++ CRLF.

(* ================================================================== *)
(** ** What the further properties of the session are stated with *)

(** [chunk.Type == "audio"], the test of the callers of [Stream]. *)
Definition isAudio (ch : TTSChunk) : bool :=
  if bytes_eq_dec (Type_ ch) (str "audio") then true else false.

(** A chunk as the callers of [Stream] tell them apart: audio with its
    data, or a boundary, which carries none. *)
Definition wellFormedChunk (ch : TTSChunk) : Prop :=
  (Type_ ch = str "audio" /\ Data ch <> [])
  \/ (isBoundaryType (Type_ ch) = true /\ Data ch = []).

(* ================================================================== *)
(** ** What the further properties of ValidateTTSConfig are stated with *)

(** A pattern that matches nothing because its head is [Void]. *)
Fixpoint dead (r : re) : bool :=
  match r with
  | Void => true
  | Cat r1 _ => dead r1
  | Alt r1 r2 => dead r1 && dead r2
  | _ => false
  end.

(** The four tests of [ValidateTTSConfig], on the configuration as the
    rewriting of the voice leaves it. *)
Definition checked (tc : TTSConfig) : option error :=
  if negb (matchb voiceFullPattern (Voice tc)) then Some ErrInvalidVoice
  else if negb (matchb ratePattern (Rate tc)) then Some ErrInvalidRate
  else if negb (matchb volumePattern (Volume tc)) then Some ErrInvalidVolume
  else if negb (matchb pitchPattern (Pitch tc)) then Some ErrInvalidPitch
  else None.

Definition isDigit (b : Z) : Prop := 48 <= b <= 57.

(** A sign, one or more digits, and the unit. *)
Definition signed (unit s : bytes) : Prop :=
  exists sg ds,
    s = sg :: ds ++ unit /\ (sg = 43 \/ sg = 45) /\ ds <> [] /\ Forall isDigit ds.

Definition percent (s : bytes) : Prop := signed (str "%") s.
Definition hertz (s : bytes) : Prop := signed (str "Hz") s.

(** The long form of a voice: the fixed words, then two parts that are
    not empty and hold no newline, a comma between them, in brackets. *)
Definition fullVoice (v : bytes) : Prop :=
  exists a b,
    v = voicePrefix ++ a ++ [44] ++ b ++ [41]
    /\ a <> [] /\ b <> [] /\ ~ In NL a /\ ~ In NL b.

(* ================================================================== *)
(** ** What the further properties of the SRT renderer are stated with *)

(** A number below 100 in two decimal digits, one below 1000 in three. *)
Definition digits2 (n : Z) : bytes := [48 + n / 10; 48 + n mod 10].
Definition digits3 (n : Z) : bytes :=
  [48 + n / 100; 48 + (n / 10) mod 10; 48 + n mod 10].

(** What a cue shows: its times and its text. *)
Definition shown (c : Subtitle) : Z * Z * bytes := (Start c, End_ c, Content c).

(** [a] is not after [b]: it starts earlier, or at the same time and
    does not end later. *)
Definition byTime (a b : Subtitle) : Prop :=
  Start a < Start b \/ (Start a = Start b /\ End_ a <= End_ b).

(** Feeding a subtitle assembler one message after the other, an error
    of [Feed] being passed over, as handleSynthesizeWithSRT does. *)
Definition feedAll (sm : SubMaker) (msgs : list TTSChunk) : SubMaker :=
  fold_left (fun sm msg => fst (Feed sm msg)) msgs sm.

(** The cue [Feed] makes of a message when [i] cues are there. *)
Definition cueAt (i : nat) (msg : TTSChunk) : Subtitle :=
  {| Index_ := Z.of_nat i + 1;
     Start := Z.quot (Offset msg) 10 * Microsecond;
     End_ := Z.quot (Offset msg + Duration msg) 10 * Microsecond;
     Content := Text msg |}.

(** The cues of the messages, numbered from [i + 1]. *)
Fixpoint numberedFrom (i : nat) (msgs : list TTSChunk) : list Subtitle :=
  match msgs with
  | [] => []
  | msg :: rest => cueAt i msg :: numberedFrom (S i) rest
  end.

(** The kind a list of messages fixes an empty assembler to: the kind
    of its first boundary. *)
Definition firstKind (msgs : list TTSChunk) : bytes :=
  match find (fun msg => isBoundaryType (Type_ msg)) msgs with
  | Some msg => Type_ msg
  | None => []
  end.

Definition ofKind (kind : bytes) (msg : TTSChunk) : bool :=
  isBoundaryType (Type_ msg) && (if bytes_eq_dec (Type_ msg) kind then true else false).

(* ================================================================== *)
(** ** drm.go: the clock correction

    [time.Parse] is not modelled: what it makes of a date with the
    layout [time.RFC1123] and with the layout of the second try is given,
    as the seconds [t.Unix()] returns or an error. *)

Section Dates.

Variable parseRFC1123 : bytes -> error + Z.
Variable parseGMT : bytes -> error + Z.

Definition ParseRFC2616Date (dateStr : bytes) : error + Q :=
  match parseRFC1123 dateStr with
  | inr t => inr (inject_Z t)
  | inl _ =>
      match parseGMT dateStr with
      | inr t => inr (inject_Z t)
      | inl err => inl err
      end
  end.

(** [HandleClientResponseError]: [resp] is [None] for a response that is
    nil or has no headers, and otherwise what [resp.Header.Get("Date")]
    returns.  The DRM state it leaves is returned with the error. *)
Definition HandleClientResponseError (now : Z) (d : DRM) (resp : option bytes)
  : DRM * option error :=
  match resp with
  | None => (d, Some (Wrapf ErrSkewAdjustment (str "no server date in headers")))
  | Some serverDate =>
      if bytes_eq_dec serverDate [] then
        (d, Some (Wrapf ErrSkewAdjustment (str "no server date in headers")))
      else
        match ParseRFC2616Date serverDate with
        | inl _ =>
            (d, Some (Wrapf ErrSkewAdjustment
                        (str "failed to parse server date: " ++ serverDate)))
        | inr serverTimestamp =>
            let clientTimestamp := GetUnixTimestamp now d in
            (AdjClockSkewSeconds d (serverTimestamp - clientTimestamp)%Q, None)
        end
  end.

End Dates.

(* ================================================================== *)
(** ** voices.go: the voices manager *)

Record VoiceTag : Type := {
  ContentCategories : list bytes;
  VoicePersonalities : list bytes
}.

(** The type [Voice] of types.go; [Voice] is taken by the field of
    [TTSConfig]. *)
Record VoiceInfo : Type := {
  Name : bytes;
  ShortName : bytes;
  Gender : bytes;
  Locale : bytes;
  SuggestedCodec : bytes;
  FriendlyName : bytes;
  Status : bytes;
  Tag : VoiceTag;
  Language : bytes
}.

Record VoicesManager : Type := {
  Voices : list VoiceInfo;
  CalledCreate : bool
}.

Definition NewVoicesManager : VoicesManager :=
  {| Voices := []; CalledCreate := false |}.

(** [strings.Split(locale, "-")[0]] *)
Definition languageOf (locale : bytes) : bytes := fst (cut locale DASH).

Definition setLanguage (v : VoiceInfo) : VoiceInfo :=
  {| Name := Name v; ShortName := ShortName v; Gender := Gender v;
     Locale := Locale v; SuggestedCodec := SuggestedCodec v;
     FriendlyName := FriendlyName v; Status := Status v; Tag := Tag v;
     Language := languageOf (Locale v) |}.

(** [Create]: [customVoices] is [None] for nil, and then the voices are
    what [ListVoices] returns, which is given as [listed]. *)
Definition Create (vm : VoicesManager) (customVoices : option (list VoiceInfo))
  (listed : error + list VoiceInfo) : VoicesManager * option error :=
  let fill voices :=
    ({| Voices := map setLanguage voices; CalledCreate := true |}, None) in
  match customVoices with
  | Some voices => fill voices
  | None =>
      match listed with
      | inl err => (vm, Some err)
      | inr voices => fill voices
      end
  end.

Definition Find (vm : VoicesManager) (gender locale language : bytes)
  : error + list VoiceInfo :=
  if negb (CalledCreate vm) then
    inl (Errorf (str "VoicesManager.Find() called before VoicesManager.Create()"))
  else
    inr (filter
           (fun voice =>
              let match_ := true in
              let match_ :=
                if negb (len gender =? 0)
                   && (if bytes_eq_dec (Gender voice) gender then false else true)
                then false else match_ in
              let match_ :=
                if negb (len locale =? 0)
                   && (if bytes_eq_dec (Locale voice) locale then false else true)
                then false else match_ in
              let match_ :=
                if negb (len language =? 0)
                   && (if bytes_eq_dec (Language voice) language then false else true)
                then false else match_ in
              match_)
           (Voices vm)).

(* ================================================================== *)
(** * Properties *)

(* ------------------------------------------------------------------ *)
(** ** submaker.go *)

(** The events [Feed] turns down: a chunk that is no boundary, or one
    whose kind is not the kind the assembler is fixed to. *)
Definition rejected (sm : SubMaker) (msg : TTSChunk) : Prop :=
  (Type_ msg <> WordBoundary /\ Type_ msg <> SentenceBoundary)
  \/ (CueType sm <> [] /\ CueType sm <> Type_ msg).

(** The cue [Feed] makes of a boundary. *)
Definition cueOf (sm : SubMaker) (msg : TTSChunk) : Subtitle :=
  {| Index_ := Z.of_nat (length (Cues sm)) + 1;
     Start := Z.quot (Offset msg) 10 * 1000;
     End_ := Z.quot (Offset msg + Duration msg) 10 * 1000;
     Content := Text msg |}.

Lemma isBoundaryType_false (t : bytes) :
  isBoundaryType t = false <-> t <> WordBoundary /\ t <> SentenceBoundary.
Proof.
  unfold isBoundaryType.
  destruct (bytes_eq_dec t WordBoundary), (bytes_eq_dec t SentenceBoundary);
    split; intros H; try discriminate; try tauto.
Qed.

Lemma isBoundaryType_true (t : bytes) :
  isBoundaryType t = true <-> t = WordBoundary \/ t = SentenceBoundary.
Proof.
  unfold isBoundaryType.
  destruct (bytes_eq_dec t WordBoundary), (bytes_eq_dec t SentenceBoundary);
    split; intros H; try discriminate; try tauto; destruct H; contradiction.
Qed.

(** C8: [Feed] returns an error exactly for a chunk that is neither a
    word nor a sentence boundary or whose kind differs from the kind
    fixed by the first event fed; then the assembler is left as it was.
    Otherwise the kind is the kind of the event and one cue is appended,
    numbered one past the cues held and with the text of the event; for
    tick counts of up to 2^53 in size, sum included, the cue goes from
    offset/10 to (offset+duration)/10 microseconds. *)
Theorem Feed_accepts_one_kind (sm : SubMaker) (msg : TTSChunk) :
  (snd (Feed sm msg) <> None <-> rejected sm msg)
  /\ (rejected sm msg -> fst (Feed sm msg) = sm)
  /\ (~ rejected sm msg ->
      CueType (fst (Feed sm msg)) = Type_ msg
      /\ exists c : Subtitle,
           Cues (fst (Feed sm msg)) = Cues sm ++ [c]
           /\ Index_ c = Z.of_nat (length (Cues sm)) + 1
           /\ Content c = Text msg)
  /\ (~ rejected sm msg -> exactTimes msg ->
      Feed sm msg =
        ({| Cues := Cues sm ++ [cueOf sm msg]; CueType := Type_ msg |}, None)).
Proof.
  assert (Hok : ~ rejected sm msg ->
                Feed sm msg =
                  ({| Cues := Cues sm ++ [cueOf sm msg]; CueType := Type_ msg |}, None)).
  { unfold rejected, Feed, cueOf, Microsecond.
    destruct (isBoundaryType (Type_ msg)) eqn:Hb; cbn [negb fst snd].
    - apply isBoundaryType_true in Hb.
      destruct (bytes_eq_dec (CueType sm) []) as [He | He];
        [| destruct (bytes_eq_dec (CueType sm) (Type_ msg)) as [Ht | Ht]];
        cbn -[str app Z.quot Z.mul Z.add].
      + reflexivity.
      + rewrite <- Ht. reflexivity.
      + intros H. exfalso. apply H. right. split; assumption.
    - apply isBoundaryType_false in Hb. intros H. exfalso. apply H. left. exact Hb. }
  split; [| split; [| split; [| intros H _; exact (Hok H)]]].
  - unfold rejected, Feed.
    destruct (isBoundaryType (Type_ msg)) eqn:Hb; cbn [negb fst snd].
    + apply isBoundaryType_true in Hb.
      destruct (bytes_eq_dec (CueType sm) []) as [He | He];
        [| destruct (bytes_eq_dec (CueType sm) (Type_ msg)) as [Ht | Ht]];
        cbn -[str app Z.quot Z.mul Z.add]; intuition congruence.
    + apply isBoundaryType_false in Hb. intuition congruence.
  - unfold rejected, Feed.
    destruct (isBoundaryType (Type_ msg)) eqn:Hb; cbn [negb fst snd]; [| reflexivity].
    apply isBoundaryType_true in Hb.
    destruct (bytes_eq_dec (CueType sm) []) as [He | He];
      [| destruct (bytes_eq_dec (CueType sm) (Type_ msg)) as [Ht | Ht]];
      cbn -[str app Z.quot Z.mul Z.add]; intuition congruence.
  - intros H. rewrite (Hok H). cbn [fst Cues CueType]. split; [reflexivity |].
    exists (cueOf sm msg). repeat split.
Qed.

Lemma Feed_accepts_one_kind_witness :
  Feed NewSubMaker (boundary WordBoundary 1000000 500000 (str "hi"))
  = ({| Cues := [cue 1 100000000 150000000 (str "hi")]; CueType := WordBoundary |},
     None).
Proof.
  apply (proj2 (proj2 (proj2 (Feed_accepts_one_kind NewSubMaker
                                (boundary WordBoundary 1000000 500000 (str "hi")))))).
  - unfold rejected. cbn. intros [[H _] | [H _]]; apply H; reflexivity.
  - unfold exactTimes, exactTicks. cbn. lia.
Defined.

(* ------------------------------------------------------------------ *)
(** ** srt.go *)

(** C9: with a skipped cue ahead of it in sorted order, a surviving cue
    is not numbered from [startIndex]: [idx] is advanced for survivors
    only, and [skipped] is subtracted from it all the same.  The first
    survivor after one skipped cue gets index 0, and [GetSRT] prints
    it so. *)
Theorem sortAndReindex_after_skipped_cue :
  sortAndReindex
    [cue 1 0 0 (str "a"); cue 2 1000000000 1500000000 (str "hi")] 1 true
  = [cue 0 1000000000 1500000000 (str "hi")]
  /\ GetSRT
       (fst (Feed (fst (Feed NewSubMaker (boundary WordBoundary 0 0 (str "a"))))
               (boundary WordBoundary 10000000 5000000 (str "hi"))))
     = str "0" ++ [NL] ++ str "00:00:01,000 --> 00:00:01,500" ++ [NL]
       ++ str "hi" ++ [NL; NL].
Proof. split; vm_compute; reflexivity. Qed.

(** C10: a content that is not empty, does not begin with a newline
    and holds no two newlines in a row is returned as it is, so a
    single newline at its end stays and is printed. *)
Theorem makeLegalContent_keeps_trailing_newline :
  makeLegalContent (str "hi" ++ [NL]) = str "hi" ++ [NL]
  /\ ToSRT (cue 1 0 1000000000 (str "hi" ++ [NL])) []
     = str "1" ++ [NL] ++ str "00:00:00,000 --> 00:00:01,000" ++ [NL]
       ++ str "hi" ++ [NL; NL; NL].
Proof. split; vm_compute; reflexivity. Qed.

(* ------------------------------------------------------------------ *)
(** ** drm.go *)

(** C4: with a clock skew of half a second the ticks keep the half
    second: the remainder subtracted is that of the truncated value.
    The string hashed is not the one of the floored window, and the
    token differs from the token of the specification. *)
Theorem GenerateSecMSGEC_fractional_skew :
  strToHash 1700000000 (AdjClockSkewSeconds {| clockSkewSeconds := 0 |} (1 # 2))
  = str "133444734005000000" ++ TrustedClientToken
  /\ itoa (specTicks (1700000000 + (1 # 2))) = str "133444734000000000"
  /\ GenerateSecMSGEC 1700000000
       (AdjClockSkewSeconds {| clockSkewSeconds := 0 |} (1 # 2))
     = str "3A4935830880AEB3B268608CB199976C34C68DCC4BAA6C8EFD3925AE03007B02"
  /\ specToken (1700000000 + (1 # 2))
     = str "42301B335578FEFDAE2637DED1ABD614505D432559EC08032B82048483726AFF".
Proof. repeat split; vm_compute; reflexivity. Qed.

(* ------------------------------------------------------------------ *)
(** ** communicate.go *)

Lemma SessionEnd_not_boundary (t : bytes) :
  isBoundaryType t = true -> t <> SessionEnd.
Proof.
  unfold isBoundaryType.
  destruct (bytes_eq_dec t WordBoundary) as [-> |];
    [intros _; vm_compute; discriminate |].
  destruct (bytes_eq_dec t SentenceBoundary) as [-> |];
    [intros _; vm_compute; discriminate | discriminate].
Qed.

Lemma audio_not_boundary : isBoundaryType (str "audio") = false.
Proof. reflexivity. Qed.

Lemma StronglySorted_app_r (A : Type) (R : A -> A -> Prop) (l1 l2 : list A) :
  StronglySorted R (l1 ++ l2) -> StronglySorted R l2.
Proof.
  induction l1 as [| x l1 IH]; cbn; intros H; [exact H |].
  inversion H; subst. auto.
Qed.

Lemma binaryFrame_audio (data : bytes) (ch : TTSChunk) :
  binaryFrame data = inr (Some ch) -> isBoundaryType (Type_ ch) = false.
Proof.
  unfold binaryFrame.
  repeat match goal with
         | |- context [if ?b then _ else _] => destruct b
         | |- context [let (_, _) := ?p in _] => destruct p
         end; intros H; try discriminate.
  injection H as <-. reflexivity.
Qed.

Section SessionFacts.

Variable UnescapeXML : bytes -> bytes.





Lemma parseEntries_find (st : CommunicateState) (resp : MetadataResponse) :
  parseEntries UnescapeXML st resp =
    match find (fun m => negb (isSessionEnd m)) resp with
    | Some meta =>
        if isBoundaryType (meta_Type meta)
        then inr (boundaryChunk UnescapeXML st meta)
        else inl (Wrapf ErrUnknownResponse
                    (str "unknown metadata type: " ++ meta_Type meta))
    | None =>
        inl (Wrapf ErrUnexpectedResponse (str "no WordBoundary metadata found"))
    end.
Proof.
  induction resp as [| meta rest IH]; [reflexivity |].
  cbn [parseEntries find]. unfold isSessionEnd at 1.
  destruct (isBoundaryType (meta_Type meta)) eqn:Hb.
  - pose proof (@SessionEnd_not_boundary _ Hb) as Hs.
    destruct (bytes_eq_dec (meta_Type meta) SessionEnd); [contradiction |].
    cbn [negb]. rewrite Hb. reflexivity.
  - destruct (bytes_eq_dec (meta_Type meta) SessionEnd); cbn [negb].
    + exact IH.
    + rewrite Hb. reflexivity.
Qed.

(** C6: of the entries of an audio.metadata frame, [parseMetadata]
    looks at the first that is not a SessionEnd.  A word or sentence
    boundary there is the one chunk of the frame, whatever follows it;
    any other type there is an unknown-response error; and a frame with
    no such entry (all SessionEnd, or none at all) is an
    unexpected-response error.  In the session the chunk is sent and
    reading goes on, and either error ends the session. *)
Theorem parseMetadata_first_entry (st : CommunicateState) (resp : MetadataResponse) :
  parseMetadata UnescapeXML st (inr resp) =
    match find (fun m => negb (isSessionEnd m)) resp with
    | Some meta =>
        if isBoundaryType (meta_Type meta)
        then inr (boundaryChunk UnescapeXML st meta)
        else inl (Wrapf ErrUnknownResponse
                    (str "unknown metadata type: " ++ meta_Type meta))
    | None =>
        inl (Wrapf ErrUnexpectedResponse (str "no WordBoundary metadata found"))
    end
  /\ forall (a : bool) (data : bytes) (rest : list Message),
       textPath data = Some (str "audio.metadata") ->
       readLoop UnescapeXML st a (TextMessage data (inr resp) :: rest) =
         match parseMetadata UnescapeXML st (inr resp) with
         | inl err => (st, [], Some err)
         | inr parsed =>
             send parsed
               (readLoop UnescapeXML
                  (setLastDurationOffset st (Offset parsed + Duration parsed))
                  a rest)
         end.
Proof.
  split; [apply parseEntries_find |].
  intros a data rest Hp. cbn [readLoop]. rewrite Hp.
  destruct (bytes_eq_dec (str "audio.metadata") (str "audio.metadata"));
    [reflexivity | contradiction].
Qed.

Lemma parseEntries_boundary (st : CommunicateState) (resp : MetadataResponse)
  (parsed : TTSChunk) :
  parseEntries UnescapeXML st resp = inr parsed ->
  exists meta more,
    filter (fun e => isBoundaryType (meta_Type e)) resp = meta :: more
    /\ isBoundaryType (meta_Type meta) = true
    /\ parsed = boundaryChunk UnescapeXML st meta.
Proof.
  induction resp as [| meta rest IH]; cbn [parseEntries filter]; [discriminate |].
  destruct (isBoundaryType (meta_Type meta)) eqn:Hb.
  - intros H. injection H as <-. exists meta. eexists. repeat split. exact Hb.
  - destruct (bytes_eq_dec (meta_Type meta) SessionEnd); [exact IH | discriminate].
Qed.

(** What one session adds: its offsets ascend from the compensation it
    starts with, none passes the last end it leaves, and a session that
    ends without an error has set the next compensation. *)
Lemma readLoop_offsets (msgs : list Message) :
  forall (st : CommunicateState) (a : bool) (lo : Z),
    StronglySorted Z.le (map meta_Offset (flat_map frameBoundaries msgs)) ->
    Forall (fun e => lo <= meta_Offset e /\ 0 <= meta_Duration e)
      (flat_map frameBoundaries msgs) ->
    forallb (fun m => negb (closedByPeer m)) msgs = true ->
    let '(st', out, e) := readLoop UnescapeXML st a msgs in
    StronglySorted Z.le (boundaryOffsets out)
    /\ Forall (fun o => OffsetCompensation st + lo <= o) (boundaryOffsets out)
    /\ Forall (fun o => o <= LastDurationOffset st') (boundaryOffsets out)
    /\ (boundaryOffsets out = [] -> LastDurationOffset st' = LastDurationOffset st)
    /\ (e = None -> OffsetCompensation st' = LastDurationOffset st' + 8750000).
Proof.
  induction msgs as [| m rest IH]; intros st a lo Hs Hf Hc.
  { cbn. repeat split; try constructor; discriminate. }
  cbn [forallb] in Hc. apply andb_prop in Hc as [Hm Hc].
  cbn [flat_map] in Hs, Hf. rewrite map_app in Hs.
  pose proof (StronglySorted_app_r _ _ Hs) as Hs'.
  pose proof (proj2 (proj1 (Forall_app _ _ _) Hf)) as Hf'.
  destruct m as [err | nc err | data json | data]; cbn [readLoop].
  - cbn. repeat split; try constructor; discriminate.
  - destruct nc; [discriminate Hm |].
    cbn. repeat split; try constructor; discriminate.
  - destruct (textPath data) as [path |] eqn:Hp; [| apply IH; assumption].
    destruct (bytes_eq_dec path (str "audio.metadata")) as [Hmeta | Hmeta].
    + destruct json as [jerr | resp]; cbn [parseMetadata].
      { cbn. repeat split; try constructor; discriminate. }
      destruct (parseEntries UnescapeXML st resp) as [err | parsed] eqn:Hparse.
      { cbn. repeat split; try constructor; discriminate. }
      apply parseEntries_boundary in Hparse as (meta & more & Hfilter & Hb & ->).
      cbn [frameBoundaries] in Hs, Hf. rewrite Hp in Hs, Hf.
      destruct (bytes_eq_dec path (str "audio.metadata")); [| contradiction].
      rewrite Hfilter in Hs, Hf. cbn [map app] in Hs, Hf.
      inversion Hs as [| x l Hs1 Hhd]; subst.
      inversion Hf as [| x l [Hlo Hdur] Hf1]; subst.
      rewrite <- map_app in Hhd.
      assert (Hge : Forall (fun e => meta_Offset meta <= meta_Offset e
                                     /\ 0 <= meta_Duration e)
                      (flat_map frameBoundaries rest)).
      { apply Forall_forall. intros e He.
        split.
        - rewrite Forall_forall in Hhd. apply Hhd. apply in_map.
          apply in_or_app. right. exact He.
        - rewrite Forall_forall in Hf'. apply Hf'. exact He. }
      specialize (IH (setLastDurationOffset st
                        (Offset (boundaryChunk UnescapeXML st meta)
                         + Duration (boundaryChunk UnescapeXML st meta)))
                    a (meta_Offset meta) Hs' Hge Hc).
      unfold send.
      destruct (readLoop _ _ _ rest) as [[st' out] e].
      destruct IH as (I1 & I2 & I3 & I4 & I5).
      cbn [OffsetCompensation setLastDurationOffset LastDurationOffset
           boundaryChunk Offset Duration] in *.
      unfold boundaryOffsets in *. cbn [filter Type_ boundaryChunk].
      rewrite Hb. cbn [map Offset boundaryChunk].
      split; [| split; [| split; [| split]]].
      * constructor; [exact I1 |].
        eapply Forall_impl; [| exact I2]. cbn. intros o Ho. lia.
      * constructor; [lia |].
        eapply Forall_impl; [| exact I2]. cbn. intros o Ho. lia.
      * constructor; [| exact I3].
        destruct (map Offset _) as [| o os] eqn:Ho.
        -- rewrite (I4 eq_refl). lia.
        -- inversion I2; subst. inversion I3; subst. lia.
      * discriminate.
      * exact I5.
    + destruct (bytes_eq_dec path (str "turn.end")).
      { cbn. repeat split; try constructor. }
      destruct (bytes_eq_dec path (str "response")).
      { apply IH; assumption. }
      destruct (bytes_eq_dec path (str "turn.start")).
      { apply IH; assumption. }
      cbn. repeat split; try constructor; discriminate.
  - destruct (binaryFrame data) as [err | [ch |]] eqn:Hbin.
    + cbn. repeat split; try constructor; discriminate.
    + apply binaryFrame_audio in Hbin.
      specialize (IH st true lo Hs' Hf' Hc). unfold send.
      destruct (readLoop _ _ _ rest) as [[st' out] e].
      unfold boundaryOffsets in *. cbn [filter]. rewrite Hbin. exact IH.
    + apply IH; assumption.
Qed.

Lemma stream_offsets (st : CommunicateState) (conn : Conn) :
  offsetsAscend conn -> timesNonNegative conn -> notClosedByPeer conn ->
  let '(st', out, e) := stream UnescapeXML st conn in
  StronglySorted Z.le (boundaryOffsets out)
  /\ Forall (fun o => OffsetCompensation st <= o) (boundaryOffsets out)
  /\ Forall (fun o => o <= LastDurationOffset st') (boundaryOffsets out)
  /\ (boundaryOffsets out = [] -> LastDurationOffset st' = LastDurationOffset st)
  /\ (e = None -> OffsetCompensation st' = LastDurationOffset st' + 8750000).
Proof.
  intros Ha Hn Hc.
  destruct conn as [err | err | err | msgs];
    try (cbn; repeat split; try constructor; discriminate).
  cbn [stream].
  unfold offsetsAscend, timesNonNegative, notClosedByPeer in *.
  cbn [serverBoundaries] in *.
  apply Sorted_StronglySorted in Ha; [| exact Z.le_trans].
  pose proof (@readLoop_offsets msgs st false 0 Ha Hn Hc) as H.
  destruct (readLoop _ _ _ msgs) as [[st' out] e].
  destruct H as (H1 & H2 & H3 & H4 & H5).
  repeat split; try assumption.
  eapply Forall_impl; [| exact H2]. cbn. intros o Ho. lia.
Qed.

(** Across sessions: the offsets ascend, from the compensation the
    first session starts with or from past the last end held, whichever
    is less. *)
Lemma streamTexts_offsets (txts : list bytes) :
  forall (st : CommunicateState) (net : list Conn),
    Forall offsetsAscend net -> Forall timesNonNegative net ->
    Forall notClosedByPeer net ->
    let '(st', out, e) := streamTexts UnescapeXML st txts net in
    StronglySorted Z.le (boundaryOffsets out)
    /\ Forall (fun o => Z.min (OffsetCompensation st)
                          (LastDurationOffset st + 8750000) <= o)
         (boundaryOffsets out).
Proof.
  induction txts as [| text txts IH]; intros st net Ha Hn Hc.
  { cbn. split; constructor. }
  cbn [streamTexts].
  assert (Hhd : offsetsAscend (hd (Connected []) net)
                /\ timesNonNegative (hd (Connected []) net)
                /\ notClosedByPeer (hd (Connected []) net)).
  { destruct net as [| conn net']; cbn [hd].
    - repeat split; constructor.
    - inversion Ha; inversion Hn; inversion Hc; auto. }
  assert (Htl : Forall offsetsAscend (tl net) /\ Forall timesNonNegative (tl net)
                /\ Forall notClosedByPeer (tl net)).
  { destruct net as [| conn net']; cbn [tl].
    - repeat split; constructor.
    - inversion Ha; inversion Hn; inversion Hc; auto. }
  destruct Hhd as (Ha1 & Hn1 & Hc1). destruct Htl as (Ha2 & Hn2 & Hc2).
  pose proof (@stream_offsets (setPartialText st text) _ Ha1 Hn1 Hc1) as H1.
  destruct (stream _ _ _) as [[st1 out1] e1].
  destruct H1 as (S1 & L1 & U1 & E1 & C1).
  cbn [setPartialText OffsetCompensation LastDurationOffset] in *.
  destruct e1 as [err |].
  { split; [exact S1 |].
    eapply Forall_impl; [| exact L1]. cbn. intros o Ho. lia. }
  specialize (C1 eq_refl).
  specialize (IH st1 (tl net) Ha2 Hn2 Hc2) as IH'.
  destruct (streamTexts _ _ _ _) as [[st2 out2] e2].
  destruct IH' as (S2 & L2).
  rewrite C1 in L2. rewrite Z.min_id in L2.
  unfold boundaryOffsets in *. rewrite filter_app, map_app.
  set (o1 := map Offset (filter _ out1)) in *.
  set (o2 := map Offset (filter _ out2)) in *.
  assert (Hlow : OffsetCompensation st <= LastDurationOffset st1
                 \/ LastDurationOffset st1 = LastDurationOffset st).
  { destruct o1 as [| o os]; [right; auto |].
    left. inversion L1; inversion U1; subst. lia. }
  split.
  - clear - S1 S2 U1 L2. induction o1 as [| o os IHo]; cbn [app]; [exact S2 |].
    inversion S1; inversion U1; subst.
    constructor; [auto |].
    apply Forall_app. split; [assumption |].
    eapply Forall_impl; [| exact L2]. cbn. intros y Hy. lia.
  - apply Forall_app. split.
    + eapply Forall_impl; [| exact L1]. cbn. intros o Ho. lia.
    + eapply Forall_impl; [| exact L2]. cbn. intros o Ho. lia.
Qed.

(** What the session does with a boundary and with turn.end: the
    boundary is sent with the service's offset plus the compensation
    and [LastDurationOffset] becomes its end; turn.end sets the
    compensation for the next chunk and ends the session. *)
Lemma readLoop_boundary (st : CommunicateState) (a : bool) (data : bytes)
  (meta : Metadata) (more : list Metadata) (rest : list Message) :
  textPath data = Some (str "audio.metadata") ->
  isBoundaryType (meta_Type meta) = true ->
  Offset (boundaryChunk UnescapeXML st meta) = meta_Offset meta + OffsetCompensation st
  /\ readLoop UnescapeXML st a (TextMessage data (inr (meta :: more)) :: rest)
     = send (boundaryChunk UnescapeXML st meta)
         (readLoop UnescapeXML
            (setLastDurationOffset st
               (meta_Offset meta + OffsetCompensation st + meta_Duration meta))
            a rest).
Proof.
  intros Hp Hb. split; [reflexivity |].
  cbn [readLoop]. rewrite Hp.
  destruct (bytes_eq_dec (str "audio.metadata") (str "audio.metadata"));
    [| contradiction].
  cbn [parseMetadata parseEntries]. rewrite Hb. reflexivity.
Qed.

Lemma readLoop_turn_end (st : CommunicateState) (a : bool) (data : bytes)
  (json : error + MetadataResponse) (rest : list Message) :
  textPath data = Some (str "turn.end") ->
  readLoop UnescapeXML st a (TextMessage data json :: rest)
  = done (setOffsetCompensation st (LastDurationOffset st + 8750000)) a.
Proof. intros Hp. cbn [readLoop]. rewrite Hp. reflexivity. Qed.

(** C1: a boundary is sent with the service's offset plus the current
    compensation, [LastDurationOffset] becomes offset + duration at
    every boundary, and turn.end sets the compensation to
    [LastDurationOffset] + 8750000.  The offsets of the boundaries
    [Stream] hands to its caller then never decrease, within a chunk and
    from one chunk to the next, when in every session the service's
    offsets do not decrease, none of its offsets and durations is
    negative, and it ends the session by turn.end and not by closing
    the connection. *)
Theorem Stream_offsets_monotone (c : Communicate) (net : list Conn) :
  Forall offsetsAscend net ->
  Forall timesNonNegative net ->
  Forall notClosedByPeer net ->
  Sorted Z.le (boundaryOffsets (snd (fst (Stream UnescapeXML c net))))
  /\ (forall st a data meta more rest,
        textPath data = Some (str "audio.metadata") ->
        isBoundaryType (meta_Type meta) = true ->
        readLoop UnescapeXML st a (TextMessage data (inr (meta :: more)) :: rest)
        = send (boundaryChunk UnescapeXML st meta)
            (readLoop UnescapeXML
               (setLastDurationOffset st
                  (meta_Offset meta + OffsetCompensation st + meta_Duration meta))
               a rest))
  /\ (forall st a data json rest,
        textPath data = Some (str "turn.end") ->
        readLoop UnescapeXML st a (TextMessage data json :: rest)
        = done (setOffsetCompensation st (LastDurationOffset st + 8750000)) a).
Proof.
  intros Ha Hn Hc. split; [| split].
  - unfold Stream.
    destruct (StreamWasCalled (state c)); [constructor |].
    pose proof (@streamTexts_offsets (texts c) (setStreamWasCalled (state c))
                  net Ha Hn Hc) as H.
    destruct (streamTexts _ _ _ _) as [[st out] e]. cbn [fst snd].
    apply StronglySorted_Sorted. exact (proj1 H).
  - intros st a data meta more rest Hp Hb.
    apply readLoop_boundary; assumption.
  - intros st a data json rest Hp. apply readLoop_turn_end. exact Hp.
Qed.

End SessionFacts.

(** C6, the claim as it was stated: a frame whose entries are all
    SessionEnd, and a frame with no entry, are not passed over; each
    ends a session that goes through without it. *)
Lemma sessionEnd_frame_ends_session :
  readLoop unescapePlain freshState false
    [metadataFrame [entry SessionEnd 0 0 []]; audioFrame [1]; turnEnd]
  = (freshState, [],
     Some (Wrapf ErrUnexpectedResponse (str "no WordBoundary metadata found")))
  /\ readLoop unescapePlain freshState false
       [metadataFrame []; audioFrame [1]; turnEnd]
     = (freshState, [],
        Some (Wrapf ErrUnexpectedResponse (str "no WordBoundary metadata found")))
  /\ readLoop unescapePlain freshState false [audioFrame [1]; turnEnd]
     = (setOffsetCompensation freshState 8750000,
        [{| Type_ := str "audio"; Data := [1]; Duration := 0; Offset := 0;
            Text := [] |}],
        None).
Proof. repeat split; vm_compute; reflexivity. Qed.

Lemma twoChunks_made :
  NewCommunicate twoChunkText [] [] = inr twoChunks.
Proof. vm_compute. reflexivity. Qed.

Lemma Stream_offsets_monotone_witness :
  Sorted Z.le (boundaryOffsets (snd (fst (Stream unescapePlain twoChunks netInOrder)))).
Proof.
  refine (proj1 (@Stream_offsets_monotone unescapePlain twoChunks netInOrder _ _ _)).
  - repeat constructor; vm_compute; discriminate.
  - repeat constructor; vm_compute; discriminate.
  - repeat constructor.
Defined.

Example netInOrder_offsets :
  boundaryOffsets (snd (fst (Stream unescapePlain twoChunks netInOrder)))
  = [1000000; 7000000; 18750000].
Proof. vm_compute. reflexivity. Qed.

(** C1, the claim as it was stated: that the service's offsets do not
    decrease within a chunk is not enough.  After a boundary with a
    negative duration, and after a session the service closes without
    turn.end, the next chunk starts at a smaller offset. *)
Lemma Stream_offsets_not_monotone :
  (Forall offsetsAscend netNegativeDuration
   /\ boundaryOffsets (snd (fst (Stream unescapePlain twoChunks netNegativeDuration)))
      = [0; -11250000])
  /\ (Forall offsetsAscend netClosedEarly
      /\ boundaryOffsets (snd (fst (Stream unescapePlain twoChunks netClosedEarly)))
         = [5000000; 1000000]).
Proof.
  repeat split; try (vm_compute; reflexivity);
    repeat constructor; vm_compute; discriminate.
Qed.

(* ================================================================== *)
(** * Properties of the text preparer *)

Unset Implicit Arguments.
Import utf8.

(* ------------------------------------------------------------------ *)
(** ** unicode/utf8 *)


Ltac cmp_cases :=
  repeat match goal with
         | |- context [?a <=? ?b] => destruct (Z.leb_spec a b)
         | |- context [?a <? ?b] => destruct (Z.ltb_spec a b)
         | |- context [?a =? ?b] => destruct (Z.eqb_spec a b)
         | H : context [?a <=? ?b] |- _ => destruct (Z.leb_spec a b)
         | H : context [?a <? ?b] |- _ => destruct (Z.ltb_spec a b)
         | H : context [?a =? ?b] |- _ => destruct (Z.eqb_spec a b)
         end.

Lemma between_iff (lo hi b : Z) : between lo hi b = true <-> lo <= b <= hi.
Proof. unfold between. rewrite andb_true_iff, Z.leb_le, Z.leb_le. tauto. Qed.

Lemma cont_iff (b : Z) : cont b = true <-> 128 <= b <= 191.
Proof. apply between_iff. Qed.

(** What the table says of a first byte. *)
Lemma lead_some (b : Z) (n : nat) (lo hi : Z) :
  lead b = Some (n, lo, hi) ->
  0 <= b <= 244 /\ (b < 128 \/ 194 <= b) /\ (n <= 3)%nat
  /\ (n = O <-> b < 128) /\ 128 <= lo /\ hi <= 191.
Proof.
  unfold lead, between.
  cmp_cases; cbn [andb]; intros Heq; inversion Heq; subst; clear Heq;
    repeat split; try lia; intros; try lia; try discriminate.
Qed.

Lemma lead_ascii (b : Z) : 0 <= b < 128 -> lead b = Some (O, 128, 191).
Proof.
  intros H. unfold lead, between.
  destruct (Z.leb_spec 0 b); [| lia]. destruct (Z.leb_spec b 127); [| lia].
  reflexivity.
Qed.

Lemma lead_not_cont (b : Z) (n : nat) (lo hi : Z) :
  lead b = Some (n, lo, hi) -> cont b = false.
Proof.
  intros H. apply lead_some in H. destruct (cont b) eqn:Hc; [| reflexivity].
  apply cont_iff in Hc. lia.
Qed.

Lemma Valid_uncons (b0 : Z) (r0 : bytes) :
  Valid (b0 :: r0) = true ->
  exists r rest, b0 :: r0 = r ++ rest /\ Rune r /\ Valid rest = true.
Proof.
  cbn [Valid].
  destruct (lead b0) as [[[n lo] hi] |] eqn:Hl; [| discriminate].
  pose proof Hl as Hl'. apply lead_some in Hl' as (_ & _ & _ & _ & Hlo & Hhi).
  assert (Hin : forall x, between lo hi x = true -> cont x = true).
  { intros x Hx. apply between_iff in Hx. apply cont_iff. lia. }
  destruct n as [| [| [| [| n]]]].
  - intros H. exists [b0], r0. split; [reflexivity |]. split; [| exact H].
    exists b0, [], lo, hi. repeat split; auto.
    intros q. cbn [app Valid]. rewrite Hl. reflexivity.
  - destruct r0 as [| b1 r1]; [discriminate |].
    intros H. apply andb_prop in H as [H1 H].
    exists [b0; b1], r1. split; [reflexivity |]. split; [| exact H].
    exists b0, [b1], lo, hi. repeat split; auto.
    intros q. cbn [app Valid]. rewrite Hl, H1. reflexivity.
  - destruct r0 as [| b1 [| b2 r2]]; try discriminate.
    intros H. apply andb_prop in H as [H1 H]. apply andb_prop in H1 as [H1 H2].
    exists [b0; b1; b2], r2. split; [reflexivity |]. split; [| exact H].
    exists b0, [b1; b2], lo, hi. repeat split; auto.
    intros q. cbn [app Valid]. rewrite Hl, H1, H2. reflexivity.
  - destruct r0 as [| b1 [| b2 [| b3 r3]]]; try discriminate.
    intros H. apply andb_prop in H as [H1 H]. apply andb_prop in H1 as [H1 H3].
    apply andb_prop in H1 as [H1 H2].
    exists [b0; b1; b2; b3], r3. split; [reflexivity |]. split; [| exact H].
    exists b0, [b1; b2; b3], lo, hi. repeat split; auto.
    intros q. cbn [app Valid]. rewrite Hl, H1, H2, H3. reflexivity.
  - discriminate.
Qed.

Lemma Rune_length (r : bytes) : Rune r -> (1 <= length r <= 4)%nat.
Proof.
  intros (b & tl & lo & hi & -> & Hl & _). apply lead_some in Hl.
  cbn [length]. lia.
Qed.

(** Induction over the runes of a valid string. *)
Lemma Valid_runes_ind (P : bytes -> Prop) :
  P [] ->
  (forall r rest, Rune r -> Valid rest = true -> P rest -> P (r ++ rest)) ->
  forall p, Valid p = true -> P p.
Proof.
  intros Hnil Hstep p.
  remember (length p) as n eqn:Hn.
  revert p Hn. induction n as [n IH] using lt_wf_ind. intros p Hn Hv.
  destruct p as [| b0 r0]; [exact Hnil |].
  apply Valid_uncons in Hv as (r & rest & Heq & Hr & Hrest).
  rewrite Heq. apply Hstep; auto.
  apply (IH (length rest)); auto.
  pose proof (Rune_length _ Hr). apply (f_equal (@length Z)) in Heq.
  rewrite length_app in Heq. cbn [length] in *. lia.
Qed.

Lemma Valid_app_l (a b : bytes) :
  Valid a = true -> Valid (a ++ b) = Valid b.
Proof.
  intros Ha. revert b. pattern a.
  apply Valid_runes_ind; [reflexivity | | exact Ha].
  intros r rest (b0 & tl & lo & hi & _ & _ & _ & Hq) _ IH b.
  rewrite <- app_assoc, Hq. apply IH.
Qed.

Lemma Valid_app (a b : bytes) :
  Valid a = true -> Valid b = true -> Valid (a ++ b) = true.
Proof. intros Ha Hb. rewrite Valid_app_l; assumption. Qed.

(** A valid string can be cut in front of any byte that is not a
    continuation byte. *)
Lemma Valid_firstn_lead (p : bytes) :
  Valid p = true ->
  forall k c, nth_error p k = Some c -> cont c = false ->
              Valid (firstn k p) = true.
Proof.
  intros Hp. pattern p. apply Valid_runes_ind; [| | exact Hp].
  { intros k c H. destruct k; discriminate. }
  intros r rest Hr Hrest IH k c Hk Hc.
  pose proof (Rune_length _ Hr) as Hlen.
  destruct Hr as (b0 & tl & lo & hi & -> & Hl & Htl & Hq).
  destruct (Nat.lt_ge_cases k (length (b0 :: tl))) as [Hlt | Hge].
  - destruct k as [| k]; [reflexivity |].
    exfalso. rewrite nth_error_app1 in Hk by exact Hlt.
    cbn [nth_error] in Hk. apply nth_error_In in Hk.
    rewrite Forall_forall in Htl. apply Htl in Hk. congruence.
  - rewrite nth_error_app2 in Hk by exact Hge.
    rewrite firstn_app.
    rewrite firstn_all2 by exact Hge.
    rewrite Hq. eapply IH; eauto.
Qed.

Lemma Valid_skipn (p : bytes) (k : nat) :
  Valid p = true -> Valid (firstn k p) = true -> Valid (skipn k p) = true.
Proof.
  intros Hp Hk. rewrite <- (firstn_skipn k p) in Hp.
  rewrite Valid_app_l in Hp; assumption.
Qed.

(** Within three bytes below any length there is a place to cut. *)
Lemma Valid_cut_near (p : bytes) :
  Valid p = true ->
  forall n, (n <= length p)%nat ->
    exists k, (n - 3 <= k <= n)%nat /\ Valid (firstn k p) = true.
Proof.
  intros Hp. pattern p. apply Valid_runes_ind; [| | exact Hp].
  { intros n Hn. exists O. cbn in *. split; [lia | reflexivity]. }
  intros r rest Hr Hrest IH n Hn.
  pose proof (Rune_length _ Hr) as Hlen.
  destruct Hr as (b0 & tl & lo & hi & -> & Hl & Htl & Hq).
  rewrite length_app in Hn.
  destruct (Nat.lt_ge_cases n (length (b0 :: tl))) as [Hlt | Hge].
  - exists O. split; [lia | reflexivity].
  - destruct (IH (n - length (b0 :: tl))%nat) as (k & Hk & Hv); [lia |].
    exists (length (b0 :: tl) + k)%nat. split; [lia |].
    rewrite firstn_app, firstn_all2 by lia.
    replace (length (b0 :: tl) + k - length (b0 :: tl))%nat with k by lia.
    rewrite Hq. exact Hv.
Qed.

Lemma safeSplitFrom_spec (seg : bytes) (n : nat) :
  Valid (firstn (Z.to_nat (safeSplitFrom n seg)) seg) = true
  /\ 0 <= safeSplitFrom n seg <= Z.of_nat n
  /\ forall k, (k <= n)%nat -> Valid (firstn k seg) = true ->
               Z.of_nat k <= safeSplitFrom n seg.
Proof.
  induction n as [| n IH].
  - cbn. repeat split; try lia.
  - cbn [safeSplitFrom].
    destruct (Valid (firstn (S n) seg)) eqn:Hv.
    + rewrite Nat2Z.id. split; [exact Hv |]. split; [lia |]. intros k Hk _. lia.
    + destruct IH as (I1 & I2 & I3). split; [exact I1 |]. split; [lia |].
      intros k Hk Hvk.
      destruct (Nat.eq_dec k (S n)) as [-> |]; [congruence |].
      apply I3; [lia | exact Hvk].
Qed.

Ltac lead_step :=
  match goal with
  | |- context [if ?c then _ else _] =>
      match c with
      | context [?a <=? ?b] => destruct (Z.leb_spec a b); try lia
      | context [?a =? ?b] => destruct (Z.eqb_spec a b); try lia
      end
  end; cbn [andb].

Lemma lead_2 (b : Z) : 194 <= b <= 223 -> lead b = Some (1%nat, 128, 191).
Proof. intros H. unfold lead, between. repeat lead_step. reflexivity. Qed.

Lemma lead_3 (b : Z) :
  224 <= b <= 239 ->
  lead b = Some (2%nat, if b =? 224 then 160 else 128, if b =? 237 then 159 else 191).
Proof.
  intros H. unfold lead, between. repeat lead_step; reflexivity.
Qed.

Lemma lead_4 (b : Z) :
  240 <= b <= 244 ->
  lead b = Some (3%nat, if b =? 240 then 144 else 128, if b =? 244 then 143 else 191).
Proof.
  intros H. unfold lead, between. repeat lead_step; reflexivity.
Qed.

Lemma Valid_EncodeRune (r : Z) : Valid (EncodeRune r) = true.
Proof.
  unfold EncodeRune, MaxRune.
  destruct (between 0 127 r) eqn:H1.
  { apply between_iff in H1. cbn [Valid]. rewrite lead_ascii by lia. reflexivity. }
  destruct (between 128 2047 r) eqn:H2.
  { apply between_iff in H2. cbn [Valid].
    rewrite lead_2 by (Z.div_mod_to_equations; lia).
    replace (between 128 191 (128 + r mod 64)) with true; [reflexivity |].
    symmetry. apply between_iff. Z.div_mod_to_equations. lia. }
  destruct ((r <? 0) || (1114111 <? r) || between 55296 57343 r) eqn:H3;
    [reflexivity |].
  apply orb_false_iff in H3 as [H3 H5]. apply orb_false_iff in H3 as [H3 H4].
  apply Z.ltb_ge in H3, H4.
  assert (H2' : ~ 128 <= r <= 2047).
  { intros C. apply between_iff in C. congruence. }
  assert (H1' : ~ 0 <= r <= 127).
  { intros C. apply between_iff in C. congruence. }
  assert (H5' : ~ 55296 <= r <= 57343).
  { intros C. apply between_iff in C. congruence. }
  destruct (Z.leb_spec r 65535) as [H6 | H6].
  - cbn [Valid].
    rewrite lead_3 by (Z.div_mod_to_equations; lia).
    replace (cont (128 + r mod 64)) with true
      by (symmetry; apply cont_iff; Z.div_mod_to_equations; lia).
    rewrite !andb_true_r. apply between_iff.
    destruct (Z.eqb_spec (224 + r / 4096) 224);
      destruct (Z.eqb_spec (224 + r / 4096) 237);
      Z.div_mod_to_equations; lia.
  - cbn [Valid].
    rewrite lead_4 by (Z.div_mod_to_equations; lia).
    replace (cont (128 + r mod 64)) with true
      by (symmetry; apply cont_iff; Z.div_mod_to_equations; lia).
    replace (cont (128 + (r / 64) mod 64)) with true
      by (symmetry; apply cont_iff; Z.div_mod_to_equations; lia).
    rewrite !andb_true_r. apply between_iff.
    destruct (Z.eqb_spec (240 + r / 262144) 240);
      destruct (Z.eqb_spec (240 + r / 262144) 244);
      Z.div_mod_to_equations; lia.
Qed.

Lemma Valid_flat_map (A : Type) (f : A -> bytes) (l : list A) :
  (forall x, Valid (f x) = true) -> Valid (flat_map f l) = true.
Proof.
  intros Hf. induction l as [| x l IH]; [reflexivity |].
  cbn [flat_map]. apply Valid_app; auto.
Qed.

Lemma Valid_RemoveIncompatibleCharacters (s : bytes) :
  Valid (RemoveIncompatibleCharacters s) = true.
Proof.
  unfold RemoveIncompatibleCharacters. apply Valid_flat_map.
  intros r. destruct (_ || _); apply Valid_EncodeRune.
Qed.

(* ------------------------------------------------------------------ *)

Lemma entityByte_facts (c : Z) :
  entityByte c -> c <> AMP /\ c <> SEMI /\ c <> SP /\ c <> NL /\ 33 <= c < 128.
Proof.
  unfold entityByte, AMP, SEMI, SP, NL. cbn.
  intros H. repeat destruct H as [<- | H]; try contradiction;
    repeat split; try discriminate; lia.
Qed.

Lemma firstn_skipn_nth (e text : bytes) (i : nat) :
  firstn (length e) (skipn i text) = e <->
  forall j, (j < length e)%nat -> nth_error text (i + j) = nth_error e j.
Proof.
  split.
  - intros H j Hj.
    transitivity (nth_error (firstn (length e) (skipn i text)) j);
      [| rewrite H; reflexivity].
    rewrite nth_error_firstn, nth_error_skipn.
    destruct (Nat.ltb_spec j (length e)); [reflexivity | lia].
  - intros H. apply nth_error_ext. intros j.
    rewrite nth_error_firstn, nth_error_skipn.
    destruct (Nat.ltb_spec j (length e)) as [Hj | Hj]; [auto |].
    symmetry. apply nth_error_None. exact Hj.
Qed.

Lemma entity_shape (e : bytes) :
  In e entities ->
  exists n, (2 <= n <= 4)%nat /\ length e = S n
    /\ nth_error e 0 = Some AMP /\ nth_error e n = Some SEMI
    /\ forall j, (0 < j < n)%nat -> exists c, nth_error e j = Some c /\ entityByte c.
Proof.
  unfold entities. cbn [In].
  intros [<- | [<- | [<- | [<- | [<- | []]]]]].
  all: match goal with
       | |- context [length ?e] =>
           let n := eval vm_compute in (pred (length e)) in exists n
       end.
  all: repeat split; try (cbn; lia); try reflexivity.
  all: intros j Hj; destruct j as [| [| [| [| j]]]]; try lia;
    eexists; (split; [reflexivity |]); unfold entityByte; cbn; tauto.
Qed.

(** An entity at [i] reaches its [;] at [i + n], over entity bytes. *)
Lemma entityAt_span (text : bytes) (i : nat) :
  entityAt text i ->
  exists n e, In e entities /\ length e = S n /\ (2 <= n <= 4)%nat
    /\ (forall j, (j <= n)%nat -> nth_error text (i + j) = nth_error e j)
    /\ nth_error text (i + n) = Some SEMI
    /\ forall j, (0 < j < n)%nat ->
         exists c, nth_error text (i + j) = Some c /\ entityByte c.
Proof.
  intros (e & He & Heq).
  destruct (entity_shape _ He) as (n & Hn & Hlen & H0 & Hsemi & Hmid).
  rewrite firstn_skipn_nth in Heq.
  exists n, e. repeat split; auto; try lia.
  - intros j Hj. apply Heq. lia.
  - rewrite Heq by lia. exact Hsemi.
  - intros j Hj. rewrite Heq by lia. apply Hmid. exact Hj.
Qed.

(** Inside an entity, past its [&], there are entity bytes and the
    closing [;] only. *)
Lemma entity_inside (text : bytes) (i k : nat) (c : Z) :
  entityAt text i -> nth_error text k = Some c ->
  ~ entityByte c -> c <> SEMI -> (i < k)%nat ->
  exists j, (i < j < k)%nat /\ nth_error text j = Some SEMI.
Proof.
  intros He Hk Hc Hs Hik.
  destruct (entityAt_span _ _ He) as (n & e & _ & _ & Hn & _ & Hsemi & Hmid).
  destruct (Nat.lt_ge_cases (i + n) k) as [Hlt | Hge].
  - exists (i + n)%nat. split; [lia | exact Hsemi].
  - exfalso. destruct (Nat.eq_dec k (i + n)) as [-> | Hne].
    + congruence.
    + destruct (Hmid (k - i)%nat) as (c' & Hc' & Hb); [lia |].
      replace (i + (k - i))%nat with k in Hc' by lia. congruence.
Qed.

Lemma entityAt_firstn (text : bytes) (i j k : nat) :
  entityAt text i -> (i < j < k)%nat -> nth_error text j = Some SEMI ->
  entityAt (firstn k text) i.
Proof.
  intros He Hj Hsemi.
  destruct (entityAt_span _ _ He) as (n & e & Hin & Hlen & Hn & Heq & Hs & Hmid).
  assert (Hle : (i + n <= j)%nat).
  { destruct (Nat.le_gt_cases (i + n) j) as [H | H]; [exact H |].
    destruct (Hmid (j - i)%nat) as (c & Hc & Hb); [lia |].
    replace (i + (j - i))%nat with j in Hc by lia.
    apply entityByte_facts in Hb. destruct Hb as (_ & Hb & _). congruence. }
  exists e. split; [exact Hin |]. apply firstn_skipn_nth.
  intros m Hm. rewrite nth_error_firstn.
  destruct (Nat.ltb_spec (i + m) k); [| lia]. apply Heq. lia.
Qed.

(** A prefix in which every [&] is followed by a [;]. *)
Lemma entitiesWhole_firstn (text : bytes) (k : nat) :
  entitiesWhole text ->
  (forall i, (i < k)%nat -> nth_error text i = Some AMP ->
             exists j, (i < j < k)%nat /\ nth_error text j = Some SEMI) ->
  entitiesWhole (firstn k text).
Proof.
  intros Hw Hk i Hi. rewrite nth_error_firstn in Hi.
  destruct (Nat.ltb_spec i k) as [Hlt |]; [| discriminate].
  destruct (Hk i Hlt Hi) as (j & Hj & Hsemi).
  eapply entityAt_firstn; eauto.
Qed.

Lemma entitiesWhole_skipn (text : bytes) (k : nat) :
  entitiesWhole text -> entitiesWhole (skipn k text).
Proof.
  intros Hw i Hi. rewrite nth_error_skipn in Hi.
  destruct (Hw _ Hi) as (e & Hin & Heq). exists e. split; [exact Hin |].
  rewrite skipn_skipn. rewrite Nat.add_comm. exact Heq.
Qed.

(** Cutting where the next byte belongs to no entity, or at the end. *)
Lemma entitiesWhole_firstn_stop (text : bytes) (k : nat) :
  entitiesWhole text ->
  (forall c, nth_error text k = Some c -> ~ entityByte c /\ c <> SEMI) ->
  entitiesWhole (firstn k text).
Proof.
  intros Hw Hstop. apply entitiesWhole_firstn; [exact Hw |].
  intros i Hik Hamp.
  destruct (nth_error text k) as [c |] eqn:Hc.
  - destruct (Hstop c eq_refl) as [Hb Hs].
    eapply entity_inside; eauto.
  - apply nth_error_None in Hc.
    destruct (entityAt_span _ _ (Hw _ Hamp)) as (n & e & _ & _ & Hn & _ & Hsemi & _).
    exists (i + n)%nat. split; [| exact Hsemi].
    assert (i + n < length text)%nat by (apply nth_error_Some; congruence).
    lia.
Qed.

(** Cutting past a [;] that follows the last [&]. *)
Lemma entitiesWhole_firstn_semi (text : bytes) (a j k : nat) :
  entitiesWhole text ->
  nth_error text a = Some AMP ->
  (forall i, (a < i < k)%nat -> nth_error text i <> Some AMP) ->
  (a < j < k)%nat -> nth_error text j = Some SEMI ->
  entitiesWhole (firstn k text).
Proof.
  intros Hw Ha Hlast Hj Hsemi. apply entitiesWhole_firstn; [exact Hw |].
  intros i Hik Hamp.
  destruct (Nat.lt_trichotomy i a) as [Hlt | [-> | Hgt]].
  - destruct (entity_inside text i a AMP (Hw _ Hamp) Ha) as (j' & Hj' & Hs');
      try lia; try discriminate.
    + intros Hb. apply entityByte_facts in Hb. tauto.
    + exists j'. split; [lia | exact Hs'].
  - exists j. split; [lia | exact Hsemi].
  - exfalso. apply (Hlast i); [lia | exact Hamp].
Qed.

(* ------------------------------------------------------------------ *)
(** ** bytes.Index and bytes.LastIndex *)

Lemma Index_range (s : bytes) (c : Z) : -1 <= Index s c < len s.
Proof.
  unfold len. induction s as [| b r IH]; cbn [Index length]; [lia |].
  destruct (b =? c); [lia |].
  destruct (Z.ltb_spec (Index r c) 0); lia.
Qed.

Lemma Index_none (s : bytes) (c : Z) :
  Index s c = -1 <-> forall i, nth_error s i <> Some c.
Proof.
  induction s as [| b r IH]; cbn [Index].
  - split; [intros _ [| i]; discriminate | reflexivity].
  - destruct (Z.eqb_spec b c) as [-> | Hne].
    + split; [discriminate |]. intros H. exfalso. apply (H O). reflexivity.
    + pose proof (Index_range r c) as Hr.
      destruct (Z.ltb_spec (Index r c) 0) as [Hlt | Hge].
      * split; [| reflexivity]. intros _ [| i]; cbn [nth_error].
        -- congruence.
        -- apply IH. lia.
      * split; [lia |]. intros H. exfalso.
        assert (Hn : Index r c <> -1) by lia. apply Hn. apply IH.
        intros i. apply (H (S i)).
Qed.

Lemma LastIndex_range (s : bytes) (c : Z) : -1 <= LastIndex s c < len s.
Proof.
  unfold len. induction s as [| b r IH]; cbn [LastIndex length]; [lia |].
  destruct (Z.leb_spec 0 (LastIndex r c)); [lia |].
  destruct (b =? c); lia.
Qed.

Lemma LastIndex_none (s : bytes) (c : Z) :
  LastIndex s c < 0 -> forall i, nth_error s i <> Some c.
Proof.
  induction s as [| b r IH]; cbn [LastIndex]; intros H i.
  - destruct i; discriminate.
  - pose proof (LastIndex_range r c).
    destruct (Z.leb_spec 0 (LastIndex r c)); [lia |].
    destruct (Z.eqb_spec b c); [lia |].
    destruct i as [| i]; cbn [nth_error]; [congruence | apply IH; lia].
Qed.

Lemma LastIndex_found (s : bytes) (c : Z) :
  0 <= LastIndex s c ->
  nth_error s (Z.to_nat (LastIndex s c)) = Some c
  /\ forall i, (Z.to_nat (LastIndex s c) < i)%nat -> nth_error s i <> Some c.
Proof.
  induction s as [| b r IH]; cbn [LastIndex]; [lia |].
  destruct (Z.leb_spec 0 (LastIndex r c)) as [Hge | Hlt].
  - intros _. destruct (IH Hge) as [H1 H2].
    replace (Z.to_nat (LastIndex r c + 1)) with (S (Z.to_nat (LastIndex r c))) by lia.
    split; [exact H1 |].
    intros i Hi. destruct i as [| i]; [lia |]. cbn [nth_error]. apply H2. lia.
  - destruct (Z.eqb_spec b c) as [-> | Hne]; [| lia].
    intros _. split; [reflexivity |].
    intros i Hi. destruct i as [| i]; [lia |]. cbn [nth_error].
    apply LastIndex_none. exact Hlt.
Qed.

Lemma Contains_iff (s : bytes) (c : Z) :
  Contains s c = true <-> exists i, nth_error s i = Some c.
Proof.
  unfold Contains. rewrite negb_true_iff, Z.eqb_neq. split.
  - intros H. pose proof (Index_range s c) as Hr.
    destruct (In_dec Z.eq_dec c s) as [Hin | Hin].
    + apply In_nth_error in Hin. exact Hin.
    + exfalso. apply H. apply Index_none. intros i Hi.
      apply Hin. eapply nth_error_In. exact Hi.
  - intros [i Hi] H. rewrite Index_none in H. apply (H i Hi).
Qed.

Lemma nth_error_slice (text : bytes) (a b : Z) (i : nat) :
  0 <= a ->
  nth_error (slice text a b) i =
    if (Z.of_nat i <? b - a) then nth_error text (Z.to_nat a + i) else None.
Proof.
  intros Ha. unfold slice, slice_to, slice_from.
  rewrite nth_error_firstn, nth_error_skipn.
  destruct (Nat.ltb_spec i (Z.to_nat (b - a))); destruct (Z.ltb_spec (Z.of_nat i) (b - a));
    try reflexivity; lia.
Qed.

(* ------------------------------------------------------------------ *)
(** ** adjustSplitPointForXMLEntity *)

Lemma no_amp_whole (text : bytes) :
  (forall i, nth_error text i <> Some AMP) -> entitiesWhole text.
Proof. intros H i Hi. exfalso. exact (H i Hi). Qed.

(** On a text whose entities are whole the loop stays where it is or
    steps back once, onto the [&] of the entity the split point is in;
    either way the text before the point has its entities whole. *)
Lemma adjustLoop_spec (text : bytes) (fuel : nat) :
  entitiesWhole text ->
  forall s, 0 <= s <= Z.of_nat fuel ->
    entitiesWhole (firstn (Z.to_nat (adjustLoop fuel text s)) text)
    /\ (adjustLoop fuel text s = s
        \/ (0 <= adjustLoop fuel text s < s
            /\ nth_error text (Z.to_nat (adjustLoop fuel text s)) = Some AMP
            /\ forall j, (Z.to_nat (adjustLoop fuel text s) <= j < Z.to_nat s)%nat ->
                         nth_error text j <> Some SEMI)).
Proof.
  intros Hw. induction fuel as [| f IH]; intros s Hs.
  { cbn [adjustLoop]. replace s with 0 by lia. cbn [Z.to_nat firstn].
    split; [| left; reflexivity]. apply no_amp_whole. intros [| i]; discriminate. }
  cbn [adjustLoop].
  destruct ((0 <? s) && Contains (slice_to text s) AMP) eqn:Hcond.
  2:{ split; [| left; reflexivity].
      apply no_amp_whole. intros i Hi.
      apply andb_false_iff in Hcond as [Hcond | Hcond].
      - apply Z.ltb_ge in Hcond. replace s with 0 in Hi by lia.
        destruct i; discriminate.
      - assert (Contains (slice_to text s) AMP = true); [| congruence].
        apply Contains_iff. exists i. exact Hi. }
  apply andb_prop in Hcond as [Hpos Hcont]. apply Z.ltb_lt in Hpos.
  set (a := LastIndex (slice_to text s) AMP).
  assert (Ha : 0 <= a).
  { apply Contains_iff in Hcont as [i Hi].
    destruct (Z.leb_spec 0 a) as [H | H]; [exact H |].
    exfalso. exact (LastIndex_none _ _ H i Hi). }
  destruct (LastIndex_found _ _ Ha) as [Hamp Hlast]. fold a in Hamp, Hlast.
  unfold slice_to in Hamp, Hlast.
  rewrite nth_error_firstn in Hamp.
  destruct (Nat.ltb_spec (Z.to_nat a) (Z.to_nat s)) as [Has |]; [| discriminate].
  assert (Hlast' : forall i, (Z.to_nat a < i < Z.to_nat s)%nat ->
                             nth_error text i <> Some AMP).
  { intros i Hi C. apply (Hlast i); [lia |]. rewrite nth_error_firstn.
    destruct (Nat.ltb_spec i (Z.to_nat s)); [exact C | lia]. }
  destruct (negb (Index (slice text a s) SEMI =? -1)) eqn:Hsemi.
  - split; [| left; reflexivity].
    apply negb_true_iff, Z.eqb_neq in Hsemi.
    assert (Hex : exists i, nth_error (slice text a s) i = Some SEMI).
    { apply Contains_iff. unfold Contains.
      apply negb_true_iff, Z.eqb_neq. exact Hsemi. }
    destruct Hex as [i Hi]. rewrite nth_error_slice in Hi by exact Ha.
    destruct (Z.ltb_spec (Z.of_nat i) (s - a)); [| discriminate].
    apply entitiesWhole_firstn_semi with (a := Z.to_nat a) (j := (Z.to_nat a + i)%nat);
      auto.
    destruct i as [| i]; [| lia].
    rewrite Nat.add_0_r in Hi. rewrite Hamp in Hi. discriminate.
  - apply negb_false_iff, Z.eqb_eq in Hsemi.
    assert (Hnosemi : forall j, (Z.to_nat a <= j < Z.to_nat s)%nat ->
                                nth_error text j <> Some SEMI).
    { intros j Hj C. rewrite Index_none in Hsemi.
      apply (Hsemi (j - Z.to_nat a)%nat). rewrite nth_error_slice by exact Ha.
      destruct (Z.ltb_spec (Z.of_nat (j - Z.to_nat a)) (s - a)); [| lia].
      replace (Z.to_nat a + (j - Z.to_nat a))%nat with j by lia. exact C. }
    destruct (IH a) as [IHw IHk]; [lia |].
    assert (Hk : adjustLoop f text a = a).
    { destruct IHk as [Hk | (Hk1 & Hk2 & Hk3)]; [exact Hk |].
      exfalso.
      destruct (entity_inside text (Z.to_nat (adjustLoop f text a)) (Z.to_nat a) AMP)
        as (j & Hj & Hsj); auto.
      - intros Hb. apply entityByte_facts in Hb. tauto.
      - discriminate.
      - lia.
      - apply (Hk3 j); [lia | exact Hsj]. }
    rewrite Hk in *.
    split; [exact IHw |]. right. repeat split; auto; lia.
Qed.

(* ------------------------------------------------------------------ *)
(** ** The escaped text *)

Lemma EscapeXML_app (a b : bytes) : EscapeXML (a ++ b) = EscapeXML a ++ EscapeXML b.
Proof. unfold EscapeXML. apply flat_map_app. Qed.

Lemma escapeByte_high (b : Z) : 128 <= b -> escapeByte b = [b].
Proof.
  intros H. unfold escapeByte.
  repeat match goal with
         | |- context [?a =? ?c] => destruct (Z.eqb_spec a c); [lia |]
         end.
  reflexivity.
Qed.

Lemma Valid_escapeByte (b : Z) : 0 <= b < 128 -> Valid (escapeByte b) = true.
Proof.
  intros H. unfold escapeByte.
  repeat match goal with
         | |- context [?a =? ?c] => destruct (Z.eqb_spec a c); [reflexivity |]
         end.
  cbn [Valid]. rewrite lead_ascii by lia. reflexivity.
Qed.

Lemma Valid_EscapeXML (t : bytes) : Valid t = true -> Valid (EscapeXML t) = true.
Proof.
  intros Ht. pattern t. apply Valid_runes_ind; [reflexivity | | exact Ht].
  intros r rest (b & tl & lo & hi & -> & Hl & Htl & Hq) _ IH.
  rewrite EscapeXML_app. apply Valid_app; [| exact IH].
  pose proof (lead_some _ _ _ _ Hl) as (Hb & Hb' & _ & Hn & _).
  destruct (Z.lt_ge_cases b 128) as [Hlt | Hge].
  - apply Hn in Hlt. destruct tl; [| discriminate].
    cbn. rewrite app_nil_r. apply Valid_escapeByte. lia.
  - assert (He : EscapeXML (b :: tl) = b :: tl).
    { unfold EscapeXML. cbn [flat_map]. rewrite escapeByte_high by lia.
      cbn [app]. f_equal. clear - Htl.
      induction tl as [| x tl IH]; [reflexivity |].
      inversion Htl; subst. cbn [flat_map].
      rewrite escapeByte_high by (apply cont_iff in H1; lia).
      cbn [app]. f_equal. auto. }
    rewrite He. rewrite <- (app_nil_r (b :: tl)). rewrite Hq. reflexivity.
Qed.

Lemma entityAt_app_r (pre rest : bytes) (i : nat) :
  entityAt rest i -> entityAt (pre ++ rest) (length pre + i).
Proof.
  intros (e & Hin & Heq). exists e. split; [exact Hin |].
  rewrite skipn_app.
  rewrite skipn_all2 by lia.
  replace (length pre + i - length pre)%nat with i by lia. exact Heq.
Qed.

Lemma entitiesWhole_app (pre rest : bytes) :
  entitiesWhole rest ->
  (forall i, nth_error pre i = Some AMP -> entityAt (pre ++ rest) i) ->
  entitiesWhole (pre ++ rest).
Proof.
  intros Hr Hp i Hi.
  destruct (Nat.lt_ge_cases i (length pre)) as [Hlt | Hge].
  - rewrite nth_error_app1 in Hi by exact Hlt. auto.
  - rewrite nth_error_app2 in Hi by exact Hge.
    replace i with (length pre + (i - length pre))%nat by lia.
    apply entityAt_app_r. auto.
Qed.

Lemma entitiesWhole_entity (e rest : bytes) :
  In e entities -> entitiesWhole rest -> entitiesWhole (e ++ rest).
Proof.
  intros He Hr. apply entitiesWhole_app; [exact Hr |].
  intros i Hi.
  assert (i = O) as ->.
  { destruct (entity_shape _ He) as (n & Hn & Hlen & H0 & Hsemi & Hmid).
    destruct i as [| i]; [reflexivity |]. exfalso.
    assert (Hlt : (S i < length e)%nat) by (apply nth_error_Some; congruence).
    destruct (Nat.eq_dec (S i) n) as [E | E].
    - rewrite E in Hi. rewrite Hsemi in Hi. discriminate.
    - destruct (Hmid (S i)) as (c & Hc & Hb); [lia |].
      apply entityByte_facts in Hb. destruct Hb as (Hb & _). congruence. }
  exists e. split; [exact He |]. cbn [skipn].
  rewrite firstn_app, firstn_all, Nat.sub_diag. cbn [firstn].
  apply app_nil_r.
Qed.

Lemma entitiesWhole_EscapeXML (t : bytes) : entitiesWhole (EscapeXML t).
Proof.
  induction t as [| b t IH].
  { apply no_amp_whole. intros [| i]; discriminate. }
  change (EscapeXML (b :: t)) with (escapeByte b ++ EscapeXML t).
  unfold escapeByte.
  repeat match goal with
         | |- context [?a =? ?c] =>
             destruct (Z.eqb_spec a c);
             [apply entitiesWhole_entity; [unfold entities; cbn [In]; tauto | exact IH] |]
         end.
  apply entitiesWhole_app; [exact IH |].
  intros [| i] Hi; cbn in Hi; [| destruct i; discriminate].
  injection Hi as ->. unfold AMP in *. contradiction.
Qed.

Lemma Valid_escapedText (s : bytes) : Valid (escapedText s) = true.
Proof. apply Valid_EscapeXML, Valid_RemoveIncompatibleCharacters. Qed.

Lemma entitiesWhole_escapedText (s : bytes) : entitiesWhole (escapedText s).
Proof. apply entitiesWhole_EscapeXML. Qed.

(* ------------------------------------------------------------------ *)
(** ** bytes.TrimSpace *)

Lemma prefixb_spec (e s : bytes) :
  prefixb e s = true -> s = e ++ skipn (length e) s.
Proof.
  revert s. induction e as [| x e IH]; intros s H; [reflexivity |].
  destruct s as [| y s]; [discriminate |]. cbn [prefixb] in H.
  apply andb_prop in H as [Hxy H]. apply Z.eqb_eq in Hxy. subst y.
  cbn [length skipn app]. f_equal. apply IH. exact H.
Qed.

Lemma startsWith_spec (table : list bytes) (s : bytes) (k : nat) :
  startsWith table s = S k ->
  exists e, In e table /\ length e = S k /\ s = e ++ skipn (S k) s.
Proof.
  unfold startsWith.
  destruct (find (fun e => prefixb e s) table) as [e |] eqn:Hf; [| discriminate].
  intros Hk. apply find_some in Hf as [Hin Hp].
  exists e. repeat split; auto. rewrite <- Hk. apply prefixb_spec. exact Hp.
Qed.

Lemma trimFront_spec (table : list bytes) (fuel : nat) (s : bytes) :
  exists pre, s = pre ++ trimFront table fuel s /\ Spaces table pre.
Proof.
  revert s. induction fuel as [| fuel IH]; intros s; cbn [trimFront].
  { exists []. split; [reflexivity | constructor]. }
  destruct (startsWith table s) as [| k] eqn:Hk.
  { exists []. split; [reflexivity | constructor]. }
  apply startsWith_spec in Hk as (e & Hin & Hlen & Hs).
  destruct (IH (skipn (S k) s)) as (pre & Hpre & Hsp).
  exists (e ++ pre). split; [| constructor; assumption].
  rewrite <- app_assoc, <- Hpre. exact Hs.
Qed.

(** With [length s] rounds nothing of the table is left in front. *)
Lemma trimFront_done (table : list bytes) (fuel : nat) (s : bytes) :
  (length s <= fuel)%nat -> startsWith table (trimFront table fuel s) = O.
Proof.
  revert s. induction fuel as [| fuel IH]; intros s Hlen; cbn [trimFront].
  - destruct s; [| cbn in Hlen; lia].
    unfold startsWith. destruct (find _ table) as [e |] eqn:Hf; [| reflexivity].
    apply find_some in Hf as [_ Hp]. destruct e; [reflexivity | discriminate].
  - destruct (startsWith table s) as [| k] eqn:Hk; [exact Hk |].
    apply IH. pose proof Hk as Hk'.
    apply startsWith_spec in Hk' as (e & _ & He & Hs).
    apply (f_equal (@length Z)) in Hs. rewrite length_app in Hs. lia.
Qed.

Lemma Spaces_app (table : list bytes) (a b : bytes) :
  Spaces table a -> Spaces table b -> Spaces table (a ++ b).
Proof.
  intros Ha Hb. induction Ha as [| e rest Hin Hrest IH]; [exact Hb |].
  rewrite <- app_assoc. constructor; assumption.
Qed.

Lemma Spaces_rev (table : list bytes) (x : bytes) :
  Spaces (map (@rev Z) table) x -> Spaces table (rev x).
Proof.
  intros H. induction H as [| e rest Hin Hrest IH]; [constructor |].
  rewrite rev_app_distr. apply Spaces_app; [exact IH |].
  apply in_map_iff in Hin as (e0 & <- & Hin0).
  rewrite rev_involutive. rewrite <- (app_nil_r e0).
  constructor; [exact Hin0 | constructor].
Qed.

(** [TrimSpace] takes white space off both ends and nothing else. *)
Lemma TrimSpace_spec (s : bytes) :
  exists pre post,
    s = pre ++ TrimSpace s ++ post
    /\ Spaces spaceEncodings pre /\ Spaces spaceEncodings post.
Proof.
  unfold TrimSpace, TrimLeftSpace, TrimRightSpace.
  destruct (trimFront_spec spaceEncodings (length s) s) as (pre & Hpre & Hsp).
  set (s1 := trimFront spaceEncodings (length s) s) in *.
  destruct (trimFront_spec (map (@rev Z) spaceEncodings) (length s1) (rev s1))
    as (post' & Hpost & Hsp').
  set (t := trimFront _ (length s1) (rev s1)) in *.
  exists pre, (rev post'). repeat split; auto.
  - rewrite <- rev_app_distr, <- Hpost, rev_involutive. exact Hpre.
  - apply Spaces_rev. exact Hsp'.
Qed.

Lemma TrimSpace_done (s : bytes) :
  startsWith spaceEncodings (TrimLeftSpace s) = O
  /\ startsWith (map (@rev Z) spaceEncodings) (rev (TrimSpace s)) = O.
Proof.
  unfold TrimSpace, TrimRightSpace, TrimLeftSpace. split.
  - apply trimFront_done. lia.
  - rewrite rev_involutive. apply trimFront_done. rewrite length_rev. lia.
Qed.

Lemma spaceEncodings_ok :
  forallb (fun e => Valid e && match e with c :: _ => spaceLead c | [] => false end)
    spaceEncodings = true.
Proof. vm_compute. reflexivity. Qed.

Lemma Spaces_Valid (x : bytes) : Spaces spaceEncodings x -> Valid x = true.
Proof.
  intros H. induction H as [| e rest Hin Hrest IH]; [reflexivity |].
  apply Valid_app; [| exact IH].
  pose proof spaceEncodings_ok as Hok. rewrite forallb_forall in Hok.
  apply Hok in Hin. apply andb_prop in Hin. tauto.
Qed.

Lemma Spaces_head (x : bytes) (c : Z) :
  Spaces spaceEncodings x -> nth_error x 0 = Some c -> spaceLead c = true.
Proof.
  intros H. induction H as [| e rest Hin Hrest IH]; [discriminate |].
  pose proof spaceEncodings_ok as Hok. rewrite forallb_forall in Hok.
  apply Hok in Hin. apply andb_prop in Hin as [_ Hin].
  destruct e as [| c0 e]; [discriminate |].
  cbn. intros Hc. injection Hc as <-. exact Hin.
Qed.

Lemma spaceLead_facts (c : Z) :
  spaceLead c = true -> cont c = false /\ ~ entityByte c /\ c <> SEMI.
Proof.
  unfold spaceLead. destruct (in_dec _ _ _) as [Hin |]; [| discriminate].
  intros _. cbn [In] in Hin.
  repeat destruct Hin as [<- | Hin]; try contradiction;
    (split; [reflexivity |]); (split; [| discriminate]);
    unfold entityByte; cbn; intros H;
    repeat destruct H as [H | H]; try discriminate; contradiction.
Qed.

(** What is cut off a valid text with whole entities leaves a chunk
    that is valid, has its entities whole, and is no longer. *)
Lemma TrimSpace_chunk (x : bytes) :
  Valid x = true -> entitiesWhole x ->
  (length (TrimSpace x) <= length x)%nat
  /\ Valid (TrimSpace x) = true /\ entitiesWhole (TrimSpace x).
Proof.
  intros Hv Hw.
  destruct (TrimSpace_spec x) as (pre & post & Hx & Hpre & Hpost).
  set (mid := TrimSpace x) in *.
  assert (Hlen : length x = (length pre + (length mid + length post))%nat).
  { rewrite Hx at 1. rewrite !length_app. reflexivity. }
  split; [lia |].
  assert (Hv2 : Valid (mid ++ post) = true).
  { rewrite Hx in Hv. rewrite Valid_app_l in Hv; [exact Hv |].
    apply Spaces_Valid. exact Hpre. }
  assert (Hw2 : entitiesWhole (mid ++ post)).
  { replace (mid ++ post) with (skipn (length pre) x).
    - apply entitiesWhole_skipn. exact Hw.
    - rewrite Hx at 1. rewrite skipn_app, skipn_all, Nat.sub_diag. reflexivity. }
  assert (Hmid : firstn (length mid) (mid ++ post) = mid).
  { rewrite firstn_app, firstn_all, Nat.sub_diag. cbn [firstn]. apply app_nil_r. }
  destruct post as [| c post'] eqn:Hp.
  { rewrite app_nil_r in Hv2, Hw2. split; assumption. }
  rewrite <- Hp in *.
  assert (Hc : nth_error (mid ++ post) (length mid) = Some c).
  { rewrite nth_error_app2 by lia. rewrite Nat.sub_diag, Hp. reflexivity. }
  assert (Hlead : spaceLead c = true).
  { apply (Spaces_head post c Hpost). rewrite Hp. reflexivity. }
  apply spaceLead_facts in Hlead as (Hcont & Hb & Hs).
  split.
  - rewrite <- Hmid. eapply Valid_firstn_lead; eauto.
  - rewrite <- Hmid. apply entitiesWhole_firstn_stop; [exact Hw2 |].
    intros c' Hc'. rewrite Hc in Hc'. injection Hc' as <-. split; assumption.
Qed.

(* ------------------------------------------------------------------ *)
(** ** SplitTextByByteLength *)

Lemma entitiesWhole_closed (chunk : bytes) :
  entitiesWhole chunk -> ampersandsClosed chunk.
Proof.
  intros Hw i Hi.
  destruct (entityAt_span _ _ (Hw _ Hi)) as (n & e & _ & _ & Hn & _ & Hsemi & _).
  exists (i + n)%nat. split; [lia | exact Hsemi].
Qed.

Lemma splitPoint_pos (text : bytes) (L : Z) : 1 <= splitPoint text L.
Proof.
  unfold splitPoint.
  match goal with |- context [if ?k <=? 0 then _ else _] =>
    destruct (Z.leb_spec k 0) end; lia.
Qed.

Lemma found_in_limit (text : bytes) (L c : Z) :
  0 <= LastIndex (slice_to text L) c ->
  LastIndex (slice_to text L) c < L
  /\ nth_error text (Z.to_nat (LastIndex (slice_to text L) c)) = Some c.
Proof.
  intros H. destruct (LastIndex_found _ _ H) as [Hc _].
  unfold slice_to in *. rewrite nth_error_firstn in Hc.
  destruct (Nat.ltb_spec (Z.to_nat (LastIndex (firstn (Z.to_nat L) text) c))
              (Z.to_nat L)); [| discriminate].
  split; [lia | exact Hc].
Qed.

(** A split at a newline or a space. *)
Lemma split_at_space (text : bytes) (p c : Z) :
  Valid text = true -> entitiesWhole text ->
  0 <= p -> nth_error text (Z.to_nat p) = Some c -> c = NL \/ c = SP ->
  let k0 := adjustSplitPointForXMLEntity text p in
  let k := if k0 <=? 0 then 1 else k0 in
  ((0 < p /\ k = p) \/ (p = 0 /\ k = 1))
  /\ Valid (firstn (Z.to_nat k) text) = true
  /\ entitiesWhole (firstn (Z.to_nat k) text).
Proof.
  intros Hv Hw Hp Hc Hcc. cbv zeta.
  assert (Hplain : ~ entityByte c /\ c <> SEMI /\ cont c = false /\ c <> AMP).
  { destruct Hcc as [-> | ->]; repeat split; try discriminate;
      intros Hb; apply entityByte_facts in Hb; tauto. }
  destruct Hplain as (Hb & Hs & Hcont & Hamp).
  unfold adjustSplitPointForXMLEntity.
  destruct (adjustLoop_spec text (Z.to_nat p) Hw p) as [Hwk Hk]; [lia |].
  assert (Hk0 : adjustLoop (Z.to_nat p) text p = p).
  { destruct Hk as [Hk | (Hk1 & Hk2 & Hk3)]; [exact Hk |]. exfalso.
    destruct (entity_inside text (Z.to_nat (adjustLoop (Z.to_nat p) text p))
                (Z.to_nat p) c) as (j & Hj & Hsj); auto; [lia |].
    apply (Hk3 j); [lia | exact Hsj]. }
  rewrite Hk0 in *.
  destruct (Z.leb_spec p 0) as [Hle | Hgt].
  - assert (p = 0) as -> by lia. split; [right; auto |].
    destruct text as [| b text']; [discriminate |].
    cbn in Hc. injection Hc as ->.
    change (Z.to_nat 1) with 1%nat. cbn [firstn].
    split.
    + cbn [Valid]. rewrite lead_ascii; [reflexivity |].
      destruct Hcc as [-> | ->]; unfold NL, SP; lia.
    + apply no_amp_whole. intros [| [| i]]; cbn; congruence.
  - split; [left; split; [lia | reflexivity] |]. split; [| exact Hwk].
    eapply Valid_firstn_lead; eauto.
Qed.

(** A split where no newline and no space is found. *)
Lemma split_at_rune (text : bytes) (L : Z) :
  Valid text = true -> entitiesWhole text -> 16 < L -> L < len text ->
  let u := findSafeUTF8SplitPoint (slice_to text L) in
  let k0 := adjustSplitPointForXMLEntity text u in
  let k := if k0 <=? 0 then 1 else k0 in
  1 <= k <= L
  /\ Valid (firstn (Z.to_nat k) text) = true
  /\ entitiesWhole (firstn (Z.to_nat k) text).
Proof.
  intros Hv Hw HL Hlen. cbv zeta. unfold len in Hlen.
  unfold findSafeUTF8SplitPoint, slice_to.
  set (seg := firstn (Z.to_nat L) text).
  assert (Hseg : length seg = Z.to_nat L).
  { unfold seg. rewrite length_firstn. lia. }
  assert (Hpre : forall k, (k <= Z.to_nat L)%nat -> firstn k seg = firstn k text).
  { intros k Hk. unfold seg. rewrite firstn_firstn. f_equal. lia. }
  rewrite Hseg.
  destruct (safeSplitFrom_spec seg (Z.to_nat L)) as (Hu1 & Hu2 & Hu3).
  set (u := safeSplitFrom (Z.to_nat L) seg) in *.
  rewrite Hpre in Hu1 by lia.
  assert (Hu : L - 3 <= u).
  { destruct (Valid_cut_near text Hv (Z.to_nat L)) as (k & Hk & Hvk); [lia |].
    specialize (Hu3 k). rewrite Hpre in Hu3 by lia.
    specialize (Hu3 ltac:(lia) Hvk). lia. }
  unfold adjustSplitPointForXMLEntity.
  destruct (adjustLoop_spec text (Z.to_nat u) Hw u) as [Hwk Hk]; [lia |].
  set (k0 := adjustLoop (Z.to_nat u) text u) in *.
  assert (Hk0 : u - 4 <= k0 <= u /\ Valid (firstn (Z.to_nat k0) text) = true).
  { destruct Hk as [-> | (Hk1 & Hk2 & Hk3)]; [split; [lia | exact Hu1] |].
    split.
    - destruct (entityAt_span _ _ (Hw _ Hk2)) as (n & e & _ & _ & Hn & _ & Hsemi & _).
      destruct (Z.lt_ge_cases (Z.of_nat (Z.to_nat k0 + n)) u) as [Hlt | Hge]; [| lia].
      exfalso. apply (Hk3 (Z.to_nat k0 + n)%nat); [lia | exact Hsemi].
    - eapply Valid_firstn_lead; eauto. }
  destruct Hk0 as [Hk0 Hvk].
  destruct (Z.leb_spec k0 0); [lia |].
  repeat split; auto; lia.
Qed.

(** The split point of a round: in reach, on a rune boundary, and
    inside no entity. *)
Lemma splitPoint_spec (text : bytes) (L : Z) :
  Valid text = true -> entitiesWhole text -> 16 < L -> L < len text ->
  1 <= splitPoint text L <= L
  /\ Valid (firstn (Z.to_nat (splitPoint text L)) text) = true
  /\ entitiesWhole (firstn (Z.to_nat (splitPoint text L)) text).
Proof.
  intros Hv Hw HL Hlen.
  unfold splitPoint, findLastNewlineOrSpaceWithinLimit.
  set (p0 := LastIndex (slice_to text L) NL).
  set (p1 := LastIndex (slice_to text L) SP).
  assert (Hfound : forall p c, (c = NL \/ c = SP) ->
            p = LastIndex (slice_to text L) c -> 0 <= p ->
            let k0 := adjustSplitPointForXMLEntity text p in
            let k := if k0 <=? 0 then 1 else k0 in
            1 <= k <= L
            /\ Valid (firstn (Z.to_nat k) text) = true
            /\ entitiesWhole (firstn (Z.to_nat k) text)).
  { intros p c Hcc -> Hp.
    destruct (found_in_limit text L c Hp) as [HpL Hc].
    destruct (split_at_space text _ c Hv Hw Hp Hc Hcc) as (Hk & Hvk & Hwk).
    cbv zeta. repeat split; auto; destruct Hk as [[Hk1 Hk2] | [Hk1 Hk2]]; lia. }
  destruct (Z.ltb_spec p0 0) as [H0 | H0].
  - destruct (Z.ltb_spec p1 0) as [H1 | H1].
    + apply split_at_rune; assumption.
    + apply (Hfound p1 SP); auto.
  - destruct (Z.ltb_spec p0 0) as [H0' | H0']; [lia |].
    apply (Hfound p0 NL); auto.
Qed.

Lemma Forall_emit (P : bytes -> Prop) (chunk : bytes) :
  P chunk -> Forall P (emit chunk).
Proof.
  intros H. unfold emit. destruct (0 <? len chunk); repeat constructor. exact H.
Qed.

Lemma splitLoop_chunks (L : Z) :
  16 < L ->
  forall fuel text,
    (length text <= fuel)%nat -> Valid text = true -> entitiesWhole text ->
    Forall (fun chunk => len chunk <= L /\ Valid chunk = true /\ entitiesWhole chunk)
      (splitLoop fuel text L).
Proof.
  intros HL.
  assert (Hlast : forall text, Valid text = true -> entitiesWhole text ->
            len text <= L ->
            Forall (fun chunk => len chunk <= L /\ Valid chunk = true
                                 /\ entitiesWhole chunk)
              (emit (TrimSpace text))).
  { intros text Hv Hw Hlen. apply Forall_emit.
    destruct (TrimSpace_chunk text Hv Hw) as (H1 & H2 & H3).
    unfold len in *. repeat split; auto. lia. }
  induction fuel as [| fuel IH]; intros text Hfuel Hv Hw.
  - cbn [splitLoop]. destruct (Z.ltb_spec L (len text)) as [Hlt | Hge].
    + constructor.
    + apply Hlast; assumption.
  - cbn [splitLoop]. destruct (Z.ltb_spec L (len text)) as [Hlt | Hge].
    2:{ apply Hlast; assumption. }
    destruct (splitPoint_spec text L Hv Hw HL Hlt) as (Hk & Hvk & Hwk).
    set (k := splitPoint text L) in *.
    apply Forall_app. split.
    + unfold slice_to. apply Hlast; auto.
      unfold len. rewrite length_firstn. lia.
    + unfold slice_from. apply IH.
      * rewrite length_skipn. lia.
      * apply Valid_skipn; assumption.
      * apply entitiesWhole_skipn. exact Hw.
Qed.

(** More fuel than the length of the text changes nothing: the branch
    of [splitLoop] for no fuel is not taken. *)
Lemma splitLoop_fuel (L : Z) :
  0 < L ->
  forall f1 f2 text,
    (length text <= f1)%nat -> (length text <= f2)%nat ->
    splitLoop f1 text L = splitLoop f2 text L.
Proof.
  intros HL. induction f1 as [| f1 IH]; intros f2 text H1 H2.
  - destruct text; [| cbn in H1; lia].
    destruct f2; cbn [splitLoop]; unfold len; cbn [length];
      destruct (Z.ltb_spec L (Z.of_nat 0)); try lia; reflexivity.
  - cbn [splitLoop]. destruct (Z.ltb_spec L (len text)) as [Hlt | Hge].
    + unfold len in Hlt. destruct f2 as [| f2]; [lia |].
      cbn [splitLoop]. unfold len.
      destruct (Z.ltb_spec L (Z.of_nat (length text))); [| lia].
      f_equal. pose proof (splitPoint_pos text L).
      apply IH; unfold slice_from; rewrite length_skipn; lia.
    + destruct f2; cbn [splitLoop];
        destruct (Z.ltb_spec L (len text)); try lia; reflexivity.
Qed.

Lemma splitLoop_pieces (L : Z) :
  0 < L ->
  forall fuel text,
    (length text <= fuel)%nat ->
    exists pieces,
      concat pieces = text
      /\ splitLoop fuel text L = flat_map (fun p => emit (TrimSpace p)) pieces.
Proof.
  intros HL. induction fuel as [| fuel IH]; intros text Hfuel.
  - exists [text]. cbn [concat flat_map splitLoop]. rewrite !app_nil_r.
    split; [reflexivity |].
    destruct (Z.ltb_spec L (len text)) as [Hlt | Hge]; [| reflexivity].
    unfold len in Hlt. lia.
  - cbn [splitLoop]. destruct (Z.ltb_spec L (len text)) as [Hlt | Hge].
    + pose proof (splitPoint_pos text L) as Hk.
      set (k := splitPoint text L) in *.
      destruct (IH (slice_from text k)) as (pieces & Hcat & Hloop).
      { unfold slice_from, len in *. rewrite length_skipn. lia. }
      exists (slice_to text k :: pieces). cbn [concat flat_map].
      rewrite Hcat, Hloop. split; [| reflexivity].
      apply firstn_skipn.
    + exists [text]. cbn [concat flat_map]. rewrite !app_nil_r. auto.
Qed.

(** C2: whatever the text and for every budget above 16 bytes, each
    chunk the text preparer makes is at most [L] bytes long, is valid
    UTF-8, and has every [&] at the head of one of the entities of
    [EscapeXML], whole within the chunk: so every [&] is followed by
    its [;] in the same chunk. *)
Theorem prepareTexts_chunks (s : bytes) (L : Z) :
  16 < L ->
  Forall (fun chunk =>
            len chunk <= L /\ Valid chunk = true
            /\ entitiesWhole chunk /\ ampersandsClosed chunk)
    (prepareTexts s L).
Proof.
  intros HL. unfold prepareTexts, SplitTextByByteLength.
  destruct (Z.leb_spec L 0); [lia |].
  eapply Forall_impl;
    [| apply (splitLoop_chunks L HL); [lia | apply Valid_escapedText
                                       | apply entitiesWhole_escapedText]].
  cbn beta. intros chunk (H1 & H2 & H3). repeat split; auto.
  apply entitiesWhole_closed. exact H3.
Qed.

Lemma pieces_segments (pieces : list bytes) :
  exists segs,
    map pieceOf segs = pieces
    /\ Forall trimmed segs
    /\ map chunkOf segs = map TrimSpace pieces.
Proof.
  induction pieces as [| p pieces (segs & H1 & H2 & H3)].
  { exists []. repeat split; constructor. }
  destruct (TrimSpace_spec p) as (pre & post & Hp & Hpre & Hpost).
  exists ((pre, TrimSpace p, post) :: segs). cbn [map pieceOf chunkOf].
  rewrite H1, H3, <- Hp. repeat split; auto.
  constructor; [| exact H2]. cbn. rewrite <- Hp. auto.
Qed.

(** C3: for every text and every budget above 16 bytes the escaped,
    cleaned text is cut into pieces, each piece a chunk between two
    runs of white space (the chunk is the piece trimmed), and the
    chunks emitted are the chunks of the pieces that are not empty, in
    order.  Nothing but white space at the ends of the pieces is left
    out, and nothing is repeated or moved. *)
Theorem prepareTexts_pieces (s : bytes) (L : Z) :
  16 < L ->
  exists segs : list (bytes * bytes * bytes),
    concat (map pieceOf segs) = escapedText s
    /\ Forall trimmed segs
    /\ prepareTexts s L
       = filter (fun chunk => 0 <? len chunk) (map chunkOf segs).
Proof.
  intros HL. unfold prepareTexts, SplitTextByByteLength.
  destruct (Z.leb_spec L 0); [lia |].
  destruct (splitLoop_pieces L ltac:(lia) (length (escapedText s)) (escapedText s))
    as (pieces & Hcat & Hloop); [lia |].
  destruct (pieces_segments pieces) as (segs & H1 & H2 & H3).
  exists segs. rewrite H1, H3, Hloop. repeat split; auto.
  clear. induction pieces as [| p pieces IH]; [reflexivity |].
  cbn [flat_map map filter]. rewrite IH. unfold emit.
  destruct (0 <? len (TrimSpace p)); reflexivity.
Qed.


Lemma prepareTexts_chunks_witness :
  16 < 17
  /\ Forall (fun chunk =>
               len chunk <= 17 /\ utf8.Valid chunk = true
               /\ entitiesWhole chunk /\ ampersandsClosed chunk)
       (prepareTexts sampleText 17).
Proof. split; [lia | apply (prepareTexts_chunks sampleText 17); lia]. Defined.

Lemma prepareTexts_pieces_witness :
  16 < 17
  /\ exists segs : list (bytes * bytes * bytes),
       concat (map pieceOf segs) = escapedText sampleText
       /\ Forall trimmed segs
       /\ prepareTexts sampleText 17
          = filter (fun chunk => 0 <? len chunk) (map chunkOf segs).
Proof. split; [lia | apply (prepareTexts_pieces sampleText 17); lia]. Defined.

(** The sample text in chunks of at most 17 bytes: the cuts fall on
    white space, between runes, and in front of an entity. *)
Example prepareTexts_sample :
  prepareTexts sampleText 17 =
    [str "Tom &amp;"; str "Jerry&#39;s";
     [228; 184; 173; 230; 150; 135; 228; 184; 173; 230; 150; 135; 228; 184; 173];
     [230; 150; 135];
     str "&lt;&lt;&lt;&lt;"; str "&lt;&lt;&amp;"; str "&amp;&amp;&amp;";
     str "&amp;&amp;" ++ [NL] ++ str "end"].
Proof. vm_compute. reflexivity. Qed.

Example SplitTextByByteLength_entity :
  SplitTextByByteLength (str "foo &amp; bar") 8 = [str "foo"; str "&amp;"; str "bar"].
Proof. vm_compute. reflexivity. Qed.

(** The chunks of an instance made by [NewCommunicate]. *)
Corollary NewCommunicate_texts (text voice : bytes) (opts : list CommunicateOption)
  (c : Communicate) :
  NewCommunicate text voice opts = inr c ->
  Forall (fun chunk =>
            len chunk <= 4096 /\ utf8.Valid chunk = true
            /\ entitiesWhole chunk /\ ampersandsClosed chunk)
    (texts c).
Proof.
  unfold NewCommunicate.
  destruct (ValidateTTSConfig _) as [tc [err |]]; [discriminate |].
  intros H. injection H as <-. cbn [texts].
  unfold prepareTexts, SplitTextByByteLength. cbn [Z.leb Z.compare].
  eapply Forall_impl;
    [| apply (splitLoop_chunks 4096);
       [lia | lia | apply Valid_escapedText | apply entitiesWhole_escapedText]].
  cbn beta. intros chunk (H1 & H2 & H3). repeat split; auto.
  apply entitiesWhole_closed. exact H3.
Qed.

(* ------------------------------------------------------------------ *)
(** ** ValidateTTSConfig *)

(** C5: a voice of the locales iu-Cans-CA and iu-Latn-CA does not match
    the pattern for short names, whose second part is capital letters;
    it is left as it is and refused as an invalid voice, and
    [NewCommunicate] makes no instance for it.  A name with a dash
    more, after the region, is rewritten and accepted. *)
Theorem ValidateTTSConfig_script_locale :
  ValidateTTSConfig (defaultConfig (str "iu-Cans-CA-SiqiniqNeural"))
  = (defaultConfig (str "iu-Cans-CA-SiqiniqNeural"), Some ErrInvalidVoice)
  /\ ValidateTTSConfig (defaultConfig (str "iu-Latn-CA-TaqqiqNeural"))
     = (defaultConfig (str "iu-Latn-CA-TaqqiqNeural"), Some ErrInvalidVoice)
  /\ NewCommunicate (str "hello") (str "iu-Cans-CA-SiqiniqNeural") []
     = inl ErrInvalidVoice
  /\ ValidateTTSConfig (defaultConfig (str "zh-CN-liaoning-XiaobeiNeural"))
     = (defaultConfig
          (str "Microsoft Server Speech Text to Speech Voice (zh-CN-liaoning, XiaobeiNeural)"),
        None).
Proof. repeat split; vm_compute; reflexivity. Qed.

(** The loop of [adjustSplitPointForXMLEntity] is run to its end: at
    the point returned a further round leaves at once. *)
Lemma adjust_exit (text : bytes) (fuel : nat) :
  forall s, s <= Z.of_nat fuel ->
    adjustLoop 1 text (adjustLoop fuel text s) = adjustLoop fuel text s.
Proof.
  induction fuel as [| f IH]; intros s Hs.
  - cbn [adjustLoop]. destruct (Z.ltb_spec 0 s); [lia | reflexivity].
  - cbn [adjustLoop].
    destruct ((0 <? s) && Contains (slice_to text s) AMP) eqn:Hcond.
    + destruct (negb (Index (slice text (LastIndex (slice_to text s) AMP) s) SEMI =? -1))
        eqn:Hsemi.
      * rewrite Hcond, Hsemi. reflexivity.
      * apply IH.
        pose proof (LastIndex_range (slice_to text s) AMP) as Hr.
        unfold len, slice_to in Hr. rewrite length_firstn in Hr.
        unfold slice_to. lia.
    + rewrite Hcond. reflexivity.
Qed.

(* ------------------------------------------------------------------ *)
(** ** regexp and ValidateTTSConfig *)

Lemma matchb_Void (s : bytes) : matchb Void s = false.
Proof. induction s; cbn; auto. Qed.

Lemma matchb_Alt (r1 r2 : re) (s : bytes) :
  matchb (Alt r1 r2) s = matchb r1 s || matchb r2 s.
Proof.
  revert r1 r2. induction s as [| c s IH]; intros r1 r2; [reflexivity |].
  cbn [matchb deriv]. apply IH.
Qed.

Lemma matchb_Cat_nullable (r1 r2 : re) (s : bytes) :
  nullable r1 = true -> matchb r2 s = true -> matchb (Cat r1 r2) s = true.
Proof.
  intros Hn H. destruct s as [| c s]; cbn [matchb deriv nullable] in *.
  - rewrite Hn, H. reflexivity.
  - rewrite Hn, matchb_Alt, H. apply orb_true_r.
Qed.

Lemma matchb_Cat (r1 r2 : re) (s1 s2 : bytes) :
  matchb r1 s1 = true -> matchb r2 s2 = true ->
  matchb (Cat r1 r2) (s1 ++ s2) = true.
Proof.
  revert r1. induction s1 as [| c s1 IH]; intros r1 H1 H2.
  - apply matchb_Cat_nullable; assumption.
  - cbn [app matchb deriv] in *.
    destruct (nullable r1).
    + rewrite matchb_Alt, IH by assumption. reflexivity.
    + apply IH; assumption.
Qed.

Lemma matchb_Cls (p : Z -> bool) (c : Z) : p c = true -> matchb (Cls p) [c] = true.
Proof. intros H. cbn. rewrite H. reflexivity. Qed.

Lemma matchb_Star_Cls (p : Z -> bool) (s : bytes) :
  Forall (fun c => p c = true) s -> matchb (Star (Cls p)) s = true.
Proof.
  induction 1 as [| c s Hc Hs IH]; [reflexivity |].
  cbn [matchb deriv]. rewrite Hc.
  apply matchb_Cat_nullable; [reflexivity | exact IH].
Qed.

Lemma matchb_plus (p : Z -> bool) (s : bytes) :
  s <> [] -> Forall (fun c => p c = true) s -> matchb (plus (Cls p)) s = true.
Proof.
  intros Hne H. destruct s as [| c s]; [contradiction |].
  inversion H; subst. unfold plus.
  apply (matchb_Cat (Cls p) (Star (Cls p)) [c] s).
  - apply matchb_Cls. assumption.
  - apply matchb_Star_Cls. assumption.
Qed.

Lemma matchb_atLeast2 (p : Z -> bool) (s : bytes) :
  (2 <= length s)%nat -> Forall (fun c => p c = true) s ->
  matchb (atLeast2 (Cls p)) s = true.
Proof.
  intros Hlen H. destruct s as [| a [| b s]]; cbn in Hlen; try lia.
  inversion H as [| ? ? Ha H']; subst. inversion H' as [| ? ? Hb H'']; subst.
  unfold atLeast2.
  apply (matchb_Cat (Cls p) _ [a] (b :: s)); [apply matchb_Cls; assumption |].
  apply (matchb_Cat (Cls p) _ [b] s); [apply matchb_Cls; assumption |].
  apply matchb_Star_Cls. assumption.
Qed.

Lemma matchb_lit (c : Z) : matchb (lit c) [c] = true.
Proof. apply matchb_Cls. apply Z.eqb_refl. Qed.

Lemma matchb_lits (s : bytes) : matchb (lits s) s = true.
Proof.
  induction s as [| c s IH]; [reflexivity |].
  change (lits (c :: s)) with (Cat (lit c) (lits s)).
  apply (matchb_Cat (lit c) (lits s) [c] s); [apply matchb_lit | exact IH].
Qed.

Lemma Index_app_first (l rest : bytes) (c : Z) :
  ~ In c l -> Index (l ++ c :: rest) c = len l.
Proof.
  unfold len. induction l as [| b l IH]; intros Hnot; cbn [app Index length].
  - rewrite Z.eqb_refl. reflexivity.
  - destruct (Z.eqb_spec b c) as [-> | Hne]; [exfalso; apply Hnot; left; reflexivity |].
    rewrite IH by (intros H; apply Hnot; right; exact H).
    destruct (Z.ltb_spec (Z.of_nat (length l)) 0); lia.
Qed.

Lemma cut_first (l rest : bytes) (c : Z) :
  ~ In c l -> cut (l ++ c :: rest) c = (l, rest).
Proof.
  intros Hnot. unfold cut, slice_to, slice_from, len.
  rewrite (Index_app_first l rest c Hnot). unfold len.
  destruct (Z.ltb_spec (Z.of_nat (length l)) 0); [lia |].
  rewrite Nat2Z.id.
  replace (Z.to_nat (Z.of_nat (length l) + 1)) with (length l + 1)%nat by lia.
  rewrite firstn_app, firstn_all, Nat.sub_diag. cbn [firstn].
  rewrite app_nil_r. f_equal.
  rewrite skipn_app. rewrite skipn_all2 by lia.
  replace (length l + 1 - length l)%nat with 1%nat by lia. reflexivity.
Qed.

Lemma no_dash (l : bytes) :
  Forall isLower l \/ Forall isUpper l -> ~ In DASH l.
Proof.
  unfold isLower, isUpper, DASH. intros H Hin.
  destruct H as [H | H]; rewrite Forall_forall in H; apply H in Hin; lia.
Qed.

Lemma not_newline (l : bytes) :
  ~ In NL l -> Forall (fun c => negb (c =? NL) = true) l.
Proof.
  intros Hnot. apply Forall_forall. intros c Hc.
  apply negb_true_iff, Z.eqb_neq. intros ->. contradiction.
Qed.

(** A long voice name with no newline in it matches the pattern for
    long names. *)
Lemma longVoice_matches (lang region name : bytes) :
  lang <> [] -> ~ In NL lang -> ~ In NL region -> ~ In NL name ->
  matchb voiceFullPattern (longVoice lang region name) = true.
Proof.
  intros Hne Hl Hr Hn. unfold voiceFullPattern, longVoice.
  apply matchb_Cat; [apply matchb_lits |].
  change (str ", " ++ name ++ str ")") with ([44] ++ ([32] ++ name) ++ [41]).
  replace (lang ++ str "-" ++ region ++ [44] ++ ([32] ++ name) ++ [41])
    with ((lang ++ str "-" ++ region) ++ [44] ++ ([32] ++ name) ++ [41])
    by (rewrite <- !app_assoc; reflexivity).
  apply matchb_Cat.
  - apply matchb_plus.
    + destruct lang; [contradiction | discriminate].
    + apply not_newline. intros Hin.
      apply in_app_or in Hin as [Hin | Hin]; [contradiction |].
      apply in_app_or in Hin as [Hin | Hin]; [| contradiction].
      cbn in Hin. unfold NL in Hin. destruct Hin as [Hin | []]. discriminate.
  - apply (matchb_Cat (lit 44) _ [44]); [apply matchb_lit |].
    apply matchb_Cat; [| apply matchb_lit].
    apply matchb_plus; [discriminate |].
    apply not_newline. intros [Hin | Hin]; [discriminate | contradiction].
Qed.

Lemma shortVoice_matches (lang region stem : bytes) :
  Forall isLower lang -> (2 <= length lang)%nat ->
  Forall isUpper region -> (2 <= length region)%nat ->
  stem <> [] -> ~ In NL stem ->
  matchb voicePattern (shortVoice lang region (stem ++ str "Neural")) = true.
Proof.
  intros Hl Hl2 Hr Hr2 Hs Hnl. unfold voicePattern, shortVoice.
  apply matchb_Cat.
  { apply matchb_atLeast2; [exact Hl2 |].
    eapply Forall_impl; [| exact Hl]. intros c Hc. apply between_iff. exact Hc. }
  apply (matchb_Cat (lit DASH) _ [DASH]); [apply matchb_lit |].
  apply matchb_Cat.
  { apply matchb_atLeast2; [exact Hr2 |].
    eapply Forall_impl; [| exact Hr]. intros c Hc. apply between_iff. exact Hc. }
  apply (matchb_Cat (lit DASH) _ [DASH]); [apply matchb_lit |].
  apply matchb_Cat; [| apply matchb_lits].
  apply matchb_plus; [exact Hs | apply not_newline; exact Hnl].
Qed.

Lemma FindStringSubmatch_short (lang region stem : bytes) :
  Forall isLower lang -> (2 <= length lang)%nat ->
  Forall isUpper region -> (2 <= length region)%nat ->
  stem <> [] -> ~ In NL stem ->
  FindStringSubmatch (shortVoice lang region (stem ++ str "Neural"))
  = Some (lang, region, stem ++ str "Neural").
Proof.
  intros Hl Hl2 Hr Hr2 Hs Hnl. unfold FindStringSubmatch.
  rewrite shortVoice_matches by assumption.
  unfold shortVoice. change (str "-") with [DASH]. cbn [app].
  rewrite cut_first by (apply no_dash; auto).
  rewrite cut_first by (apply no_dash; auto).
  reflexivity.
Qed.

Lemma In_firstn_In (k : nat) (l : bytes) (x : Z) : In x (firstn k l) -> In x l.
Proof.
  intros H. rewrite <- (firstn_skipn k l). apply in_or_app. left. exact H.
Qed.

Lemma In_skipn_In (k : nat) (l : bytes) (x : Z) : In x (skipn k l) -> In x l.
Proof.
  intros H. rewrite <- (firstn_skipn k l). apply in_or_app. right. exact H.
Qed.

(** Voice-name normalization: a voice of the form lang-REGION-name,
    with [lang] two or more small letters, [REGION] two or more capital
    letters and [name] ending in Neural, is rewritten to the long form,
    the part of [name] up to its first dash going to the region, and
    it is not refused as an invalid voice. *)
Theorem ValidateTTSConfig_short_voice (tc : TTSConfig) (lang region stem : bytes) :
  Forall isLower lang -> (2 <= length lang)%nat ->
  Forall isUpper region -> (2 <= length region)%nat ->
  stem <> [] -> ~ In NL stem ->
  Voice tc = shortVoice lang region (stem ++ str "Neural") ->
  Voice (fst (ValidateTTSConfig tc)) = normalized lang region (stem ++ str "Neural")
  /\ snd (ValidateTTSConfig tc) <> Some ErrInvalidVoice.
Proof.
  intros Hl Hl2 Hr Hr2 Hs Hnl Hv.
  assert (Hlnl : ~ In NL lang).
  { intros Hin. rewrite Forall_forall in Hl. apply Hl in Hin.
    unfold isLower, NL in Hin. lia. }
  assert (Hrnl : ~ In NL region).
  { intros Hin. rewrite Forall_forall in Hr. apply Hr in Hin.
    unfold isUpper, NL in Hin. lia. }
  assert (Hnnl : ~ In NL (stem ++ str "Neural")).
  { intros Hin. apply in_app_or in Hin as [Hin | Hin]; [contradiction |].
    cbn in Hin. unfold NL in Hin.
    repeat destruct Hin as [Hin | Hin]; try discriminate; contradiction. }
  assert (Hlne : lang <> []) by (destruct lang; [cbn in Hl2; lia | discriminate]).
  unfold ValidateTTSConfig. rewrite Hv.
  rewrite FindStringSubmatch_short by assumption.
  set (name := stem ++ str "Neural") in *.
  assert (Hm : matchb voiceFullPattern (normalized lang region name) = true).
  { unfold normalized. destruct (Index name DASH =? -1).
    - apply longVoice_matches; assumption.
    - apply longVoice_matches; auto.
      + intros Hin. apply in_app_or in Hin as [Hin | Hin]; [contradiction |].
        apply in_app_or in Hin as [Hin | Hin].
        * cbn in Hin. unfold NL in Hin. destruct Hin as [Hin | []]. discriminate.
        * apply In_firstn_In in Hin. contradiction.
      + intros Hin. apply In_skipn_In in Hin. contradiction. }
  unfold normalized in *.
  destruct (Index name DASH =? -1); cbn [negb]; cbv beta iota zeta;
    cbn [Voice setVoice];
    match goal with
    | |- context [matchb voiceFullPattern ?v] =>
        match type of Hm with matchb _ ?w = true => change v with w end
    end;
    rewrite Hm; cbn [negb];
    repeat match goal with
           | |- context [if ?b then _ else _] => destruct b
           end; cbn [fst snd Voice]; split; try reflexivity; discriminate.
Qed.

Lemma ValidateTTSConfig_short_voice_witness :
  Voice (fst (ValidateTTSConfig (defaultConfig (str "zh-CN-liaoning-XiaobeiNeural"))))
  = str "Microsoft Server Speech Text to Speech Voice (zh-CN-liaoning, XiaobeiNeural)"
  /\ snd (ValidateTTSConfig (defaultConfig (str "zh-CN-liaoning-XiaobeiNeural")))
     <> Some ErrInvalidVoice.
Proof.
  apply (ValidateTTSConfig_short_voice
           (defaultConfig (str "zh-CN-liaoning-XiaobeiNeural"))
           (str "zh") (str "CN") (str "liaoning-Xiaobei")).
  - repeat constructor; unfold isLower; cbn; lia.
  - cbn; lia.
  - repeat constructor; unfold isUpper; cbn; lia.
  - cbn; lia.
  - discriminate.
  - cbn. unfold NL. intros H. repeat destruct H as [H | H]; try discriminate; exact H.
  - reflexivity.
Defined.

(* ------------------------------------------------------------------ *)
(** ** drm.go *)

Lemma round_length (s : list Z) (kw : Z * Z) : length (sha256.round s kw) = length s.
Proof.
  unfold sha256.round.
  destruct s as [| a [| b [| c [| d [| e [| f [| g [| h [| i s]]]]]]]]]; reflexivity.
Qed.

Lemma compress_length (h : list Z) (block : bytes) :
  length (sha256.compress h block) = length h.
Proof.
  unfold sha256.compress. rewrite length_map, length_combine.
  assert (H : forall kws s, length (fold_left sha256.round kws s) = length s).
  { induction kws as [| kw kws IH]; intros s; [reflexivity |].
    cbn [fold_left]. rewrite IH. apply round_length. }
  rewrite H. apply Nat.min_id.
Qed.

Lemma blocks_length (n : nat) (h : list Z) (data : bytes) :
  length (sha256.blocks n h data) = length h.
Proof.
  revert h data. induction n as [| n IH]; intros h data; [reflexivity |].
  cbn [sha256.blocks]. rewrite IH. apply compress_length.
Qed.

Lemma be_bytes (n : nat) (x : Z) :
  length (sha256.be n x) = n /\ Forall (fun b => 0 <= b < 256) (sha256.be n x).
Proof.
  unfold sha256.be. split.
  - rewrite length_map, length_rev, length_seq. reflexivity.
  - apply Forall_map. apply Forall_forall. intros i _.
    apply Z.mod_pos_bound. lia.
Qed.

Lemma Sum256_bytes (msg : bytes) :
  length (sha256.Sum256 msg) = 32%nat
  /\ Forall (fun b => 0 <= b < 256) (sha256.Sum256 msg).
Proof.
  unfold sha256.Sum256.
  set (h := sha256.blocks _ _ _).
  assert (Hh : length h = 8%nat) by (apply blocks_length).
  clearbody h. split.
  - destruct h as [| a [| b [| c [| d [| e [| f [| g [| i [| j h]]]]]]]]];
      try discriminate. reflexivity.
  - apply Forall_flat_map. apply Forall_forall. intros x _. apply be_bytes.
Qed.

Lemma hexDigit_upper (d : Z) :
  0 <= d < 16 ->
  isUpperHex (if between 97 122 (hexDigit d) then hexDigit d - 32 else hexDigit d).
Proof.
  intros Hd. unfold hexDigit, isUpperHex, between.
  destruct (Z.ltb_spec d 10);
    repeat match goal with
           | |- context [?a <=? ?b] => destruct (Z.leb_spec a b)
           end; cbn [andb]; lia.
Qed.

(** Token shape: the token is 64 characters, each a digit or a capital
    letter from A to F. *)
Theorem GenerateSecMSGEC_shape (now : Z) (d : DRM) :
  length (GenerateSecMSGEC now d) = 64%nat
  /\ Forall isUpperHex (GenerateSecMSGEC now d).
Proof.
  unfold GenerateSecMSGEC.
  destruct (Sum256_bytes (strToHash now d)) as [Hlen Hb].
  set (digest := sha256.Sum256 _) in *. clearbody digest.
  unfold ToUpper, EncodeToString. split.
  - rewrite length_map.
    assert (H : forall l : bytes,
               length (flat_map (fun x => [hexDigit (x / 16); hexDigit (x mod 16)]) l)
               = (2 * length l)%nat).
    { induction l as [| x l IH]; [reflexivity |]. cbn [flat_map app length].
      rewrite IH. lia. }
    rewrite H, Hlen. reflexivity.
  - apply Forall_map. apply Forall_flat_map.
    eapply Forall_impl; [| exact Hb]. cbn beta. intros x Hx.
    constructor; [apply hexDigit_upper; Z.div_mod_to_equations; lia |].
    constructor; [apply hexDigit_upper; Z.div_mod_to_equations; lia |].
    constructor.
Qed.

(** For a corrected time of whole seconds, not before the Windows
    epoch, the ticks are those of the floored window and the token is
    the token of the specification. *)
Theorem GenerateSecMSGEC_whole_seconds (now skew : Z) :
  0 <= now + skew + WinEpoch ->
  strToHash now {| clockSkewSeconds := inject_Z skew |}
  = itoa (specTicks (GetUnixTimestamp now {| clockSkewSeconds := inject_Z skew |}))
    ++ TrustedClientToken
  /\ GenerateSecMSGEC now {| clockSkewSeconds := inject_Z skew |}
     = specToken (GetUnixTimestamp now {| clockSkewSeconds := inject_Z skew |}).
Proof.
  intros H.
  assert (Heq : roundToInteger (secMSGECTicks now {| clockSkewSeconds := inject_Z skew |})
                = specTicks (GetUnixTimestamp now {| clockSkewSeconds := inject_Z skew |})).
  { unfold roundToInteger, secMSGECTicks, specTicks, GetUnixTimestamp, toInt64,
      WinEpoch, SToNS in *.
    cbn [clockSkewSeconds].
    unfold Qfloor, Qcompare, Qminus, Qplus, Qdiv, Qopp, inject_Z.
    unfold Qinv, Qmult. cbn [Qnum Qden Pos.mul].
    change (1000000000 / 100) with 10000000.
    rewrite !Z.mul_1_r, !Z.div_1_r, Z.quot_1_r.
    set (T := now + skew + 11644473600) in *.
    rewrite Z.rem_mod_nonneg by lia.
    replace ((T + - (T mod 300)) * 10000000 + - ((T + - (T mod 300)) * 10000000))
      with 0 by lia.
    cbn [Z.mul Z.compare].
    Z.div_mod_to_equations. lia. }
  unfold GenerateSecMSGEC, specToken, strToHash. rewrite Heq. split; reflexivity.
Qed.

Lemma GenerateSecMSGEC_whole_seconds_witness :
  0 <= 1700000000 + 0 + WinEpoch
  /\ strToHash 1700000000 {| clockSkewSeconds := inject_Z 0 |}
     = itoa (specTicks (GetUnixTimestamp 1700000000 {| clockSkewSeconds := inject_Z 0 |}))
       ++ TrustedClientToken
  /\ GenerateSecMSGEC 1700000000 {| clockSkewSeconds := inject_Z 0 |}
     = specToken (GetUnixTimestamp 1700000000 {| clockSkewSeconds := inject_Z 0 |}).
Proof.
  split; [unfold WinEpoch; lia |].
  apply (GenerateSecMSGEC_whole_seconds 1700000000 0). unfold WinEpoch. lia.
Defined.

(* ------------------------------------------------------------------ *)
(** ** srt.go: makeLegalContent *)

Lemma dropNewlines_head (s : bytes) : ~ startsWithNewline (dropNewlines s).
Proof.
  unfold startsWithNewline. induction s as [| b r IH]; cbn [dropNewlines].
  - discriminate.
  - destruct (Z.eqb_spec b NL) as [-> | Hne]; [exact IH |].
    cbn. intros H. injection H as ->. contradiction.
Qed.

Lemma dropNewlines_id (s : bytes) : ~ startsWithNewline s -> dropNewlines s = s.
Proof.
  unfold startsWithNewline. destruct s as [| b r]; [reflexivity |].
  cbn. destruct (Z.eqb_spec b NL) as [-> | Hne]; [| reflexivity].
  intros H. exfalso. apply H. reflexivity.
Qed.

(** [dropNewlines] leaves an end of the string. *)
Lemma dropNewlines_suffix (s : bytes) : exists p, s = p ++ dropNewlines s.
Proof.
  induction s as [| b r [p IH]]; [exists []; reflexivity |].
  cbn [dropNewlines]. destruct (b =? NL).
  - exists (b :: p). cbn. f_equal. exact IH.
  - exists []. reflexivity.
Qed.

Lemma TrimNewlines_ends (s : bytes) :
  ~ startsWithNewline (TrimNewlines s) /\ ~ endsWithNewline (TrimNewlines s).
Proof.
  unfold TrimNewlines, endsWithNewline. split.
  - destruct (dropNewlines_suffix (rev (dropNewlines s))) as [p Hp].
    set (u := dropNewlines (rev (dropNewlines s))) in *.
    pose proof (dropNewlines_head s) as Hh.
    apply (f_equal (@rev Z)) in Hp. rewrite rev_involutive, rev_app_distr in Hp.
    unfold startsWithNewline in *. intros H. apply Hh. rewrite Hp.
    destruct (rev u) as [| c t]; [discriminate |]. exact H.
  - rewrite rev_involutive. apply dropNewlines_head.
Qed.

Lemma collapseNewlines_head (s : bytes) :
  nth_error (collapseNewlines s) 0 = nth_error s 0.
Proof.
  induction s as [| a rest IH]; [reflexivity |].
  cbn [collapseNewlines]. destruct rest as [| b rest']; [reflexivity |].
  destruct (Z.eqb_spec a NL) as [-> | Ha]; cbn [andb]; [| reflexivity].
  destruct (Z.eqb_spec b NL) as [-> | Hb]; [| reflexivity].
  rewrite IH. reflexivity.
Qed.

Lemma collapseNewlines_nil (s : bytes) : collapseNewlines s = [] -> s = [].
Proof.
  intros H. pose proof (collapseNewlines_head s) as Hh. rewrite H in Hh.
  destruct s; [reflexivity | discriminate].
Qed.

Lemma collapseNewlines_last (s : bytes) :
  nth_error (rev (collapseNewlines s)) 0 = nth_error (rev s) 0.
Proof.
  assert (Hlast : forall (a : Z) (l : bytes), l <> [] ->
            nth_error (rev (a :: l)) 0 = nth_error (rev l) 0).
  { intros a l Hl. cbn [rev]. rewrite nth_error_app1; [reflexivity |].
    rewrite length_rev. destruct l; [contradiction | cbn; lia]. }
  induction s as [| a rest IH]; [reflexivity |].
  cbn [collapseNewlines]. destruct rest as [| b rest']; [reflexivity |].
  rewrite (Hlast a (b :: rest')) by discriminate.
  destruct ((a =? NL) && (b =? NL)); [exact IH |].
  rewrite Hlast; [exact IH |].
  intros H. apply collapseNewlines_nil in H. discriminate.
Qed.

Lemma collapseNewlines_no_blank (s : bytes) :
  hasBlankLine (collapseNewlines s) = false.
Proof.
  induction s as [| a rest IH]; [reflexivity |].
  cbn [collapseNewlines]. destruct rest as [| b rest']; [reflexivity |].
  destruct ((a =? NL) && (b =? NL)) eqn:Hab; [exact IH |].
  cbn [hasBlankLine].
  destruct (collapseNewlines (b :: rest')) as [| c t] eqn:Hc; [reflexivity |].
  rewrite IH, orb_false_r.
  pose proof (collapseNewlines_head (b :: rest')) as Hh. rewrite Hc in Hh.
  cbn in Hh. injection Hh as ->. exact Hab.
Qed.

Lemma collapseNewlines_id (s : bytes) :
  hasBlankLine s = false -> collapseNewlines s = s.
Proof.
  induction s as [| a rest IH]; [reflexivity |].
  cbn [hasBlankLine collapseNewlines]. destruct rest as [| b rest']; [reflexivity |].
  intros H. apply orb_false_iff in H as [Hab H]. rewrite Hab.
  f_equal. apply IH. exact H.
Qed.

(** What [makeLegalContent] returns: the content sanitized, which has
    no newline at either end and no two newlines in a row, except for a
    content that passes the test at its head and ends with a newline,
    which is returned as it is. *)
Theorem makeLegalContent_sanitizes (content : bytes) :
  (looksLegal content = true /\ endsWithNewline content ->
   makeLegalContent content = content)
  /\ (~ (looksLegal content = true /\ endsWithNewline content) ->
      makeLegalContent content = sanitized content)
  /\ ~ startsWithNewline (sanitized content)
  /\ ~ endsWithNewline (sanitized content)
  /\ hasBlankLine (sanitized content) = false.
Proof.
  assert (Hmake : makeLegalContent content
                  = if looksLegal content then content else sanitized content)
    by reflexivity.
  split; [| split; [| split; [| split]]].
  - intros [Hl _]. rewrite Hmake, Hl. reflexivity.
  - intros Hnot. rewrite Hmake. destruct (looksLegal content) eqn:Hl; [| reflexivity].
    assert (Hend : ~ endsWithNewline content) by tauto.
    unfold looksLegal in Hl. apply andb_prop in Hl as [Hl Hblank].
    apply andb_prop in Hl as [Hne Hhd].
    apply negb_true_iff in Hblank.
    assert (Hstart : ~ startsWithNewline content).
    { unfold startsWithNewline. destruct content as [| b r]; [discriminate |].
      cbn in *. intros H. injection H as ->. discriminate. }
    unfold sanitized, TrimNewlines.
    rewrite (dropNewlines_id content Hstart).
    rewrite (dropNewlines_id (rev content) Hend), rev_involutive.
    symmetry. apply collapseNewlines_id. exact Hblank.
  - unfold sanitized, startsWithNewline. rewrite collapseNewlines_head.
    apply TrimNewlines_ends.
  - unfold sanitized, endsWithNewline. rewrite collapseNewlines_last.
    apply TrimNewlines_ends.
  - apply collapseNewlines_no_blank.
Qed.

(* ------------------------------------------------------------------ *)
(** ** srt.go: sortAndReindex *)

(** The number a surviving cue gets: [startIndex], plus the survivors
    ahead of it in sorted order, less the cues skipped ahead of it. *)
Lemma reindexLoop_index (pre : list Subtitle) :
  forall (sub : Subtitle) (rest : list Subtitle) (idx skipped : Z),
    shouldSkip sub = false ->
    nth_error (reindexLoop (pre ++ sub :: rest) true idx skipped)
      (length (filter (fun c => negb (shouldSkip c)) pre))
    = Some {| Index_ := idx + Z.of_nat (length (filter (fun c => negb (shouldSkip c)) pre))
                        - (skipped + Z.of_nat (length (filter shouldSkip pre)));
              Start := Start sub; End_ := End_ sub; Content := Content sub |}.
Proof.
  induction pre as [| c pre IH]; intros sub rest idx skipped Hsub.
  - cbn [app reindexLoop filter length nth_error andb]. rewrite Hsub.
    cbn [nth_error]. do 2 f_equal; lia.
  - cbn [app reindexLoop filter andb].
    destruct (shouldSkip c) eqn:Hc; cbn [negb length nth_error].
    + rewrite IH by exact Hsub. do 2 f_equal; lia.
    + rewrite IH by exact Hsub. do 2 f_equal; lia.
Qed.

(* ------------------------------------------------------------------ *)
(** ** util.go: EscapeXML *)

Lemma escapeByte_cases (b : Z) :
  (b = 38 /\ escapeByte b = [38; 97; 109; 112; 59])
  \/ (b = 39 /\ escapeByte b = [38; 35; 51; 57; 59])
  \/ (b = 60 /\ escapeByte b = [38; 108; 116; 59])
  \/ (b = 62 /\ escapeByte b = [38; 103; 116; 59])
  \/ (b = 34 /\ escapeByte b = [38; 35; 51; 52; 59])
  \/ (b <> 38 /\ ~ markup b /\ escapeByte b = [b]).
Proof.
  unfold escapeByte, markup.
  destruct (Z.eqb_spec b 38) as [-> | ?]; [left; split; reflexivity |].
  destruct (Z.eqb_spec b 39) as [-> | ?]; [right; left; split; reflexivity |].
  destruct (Z.eqb_spec b 60) as [-> | ?]; [do 2 right; left; split; reflexivity |].
  destruct (Z.eqb_spec b 62) as [-> | ?]; [do 3 right; left; split; reflexivity |].
  destruct (Z.eqb_spec b 34) as [-> | ?]; [do 4 right; left; split; reflexivity |].
  do 5 right. repeat split; try assumption. lia.
Qed.

Lemma EscapeXML_clean (s : bytes) : Forall (fun b => ~ markup b) (EscapeXML s).
Proof.
  unfold EscapeXML. induction s as [| b s IH]; [constructor |].
  cbn [flat_map]. apply Forall_app. split; [| exact IH].
  destruct (escapeByte_cases b)
    as [[_ ->] | [[_ ->] | [[_ ->] | [[_ ->] | [[_ ->] | [_ [Hm ->]]]]]]];
    repeat constructor; unfold markup; try lia. exact Hm.
Qed.

Lemma EscapeXML_length (s : bytes) : len s <= len (EscapeXML s) <= 5 * len s.
Proof.
  unfold EscapeXML, len. induction s as [| b s IH]; [cbn; lia |].
  cbn [flat_map]. rewrite length_app. cbn [length].
  destruct (escapeByte_cases b)
    as [[_ ->] | [[_ ->] | [[_ ->] | [[_ ->] | [[_ ->] | [_ [_ ->]]]]]]];
    cbn [length]; lia.
Qed.

Lemma EscapeXML_inj (s : bytes) :
  forall t, EscapeXML s = EscapeXML t -> s = t.
Proof.
  unfold EscapeXML. induction s as [| b s IH]; intros [| c t] H.
  - reflexivity.
  - exfalso. cbn [flat_map] in H.
    destruct (escapeByte_cases c)
      as [[_ E] | [[_ E] | [[_ E] | [[_ E] | [[_ E] | [_ [_ E]]]]]]];
      rewrite E in H; discriminate H.
  - exfalso. cbn [flat_map] in H.
    destruct (escapeByte_cases b)
      as [[_ E] | [[_ E] | [[_ E] | [[_ E] | [[_ E] | [_ [_ E]]]]]]];
      rewrite E in H; discriminate H.
  - cbn [flat_map] in H.
    destruct (escapeByte_cases b)
      as [[Hb E] | [[Hb E] | [[Hb E] | [[Hb E] | [[Hb E] | [Hb [_ E]]]]]]];
      destruct (escapeByte_cases c)
        as [[Hc F] | [[Hc F] | [[Hc F] | [[Hc F] | [[Hc F] | [Hc [_ F]]]]]]];
      rewrite E, F in H; cbn [app] in H;
      try discriminate H;
      injection H; intros; try congruence;
      (f_equal; [congruence | apply IH; assumption]).
Qed.

(** [EscapeXML] loses nothing and leaves no markup: two texts have the
    same escaped form only if they are the same text; the escaped form
    holds no quote and no angle bracket, each of its ampersands starts
    one of the five entities, and it is at least as long as the text
    and at most five times as long. *)
Theorem EscapeXML_faithful (s : bytes) :
  (forall t, EscapeXML s = EscapeXML t <-> s = t)
  /\ Forall (fun b => ~ markup b) (EscapeXML s)
  /\ entitiesWhole (EscapeXML s)
  /\ len s <= len (EscapeXML s) <= 5 * len s.
Proof.
  split; [| split; [apply EscapeXML_clean | split]].
  - intros t. split; [apply EscapeXML_inj | intros ->; reflexivity].
  - apply entitiesWhole_EscapeXML.
  - apply EscapeXML_length.
Qed.

(* ------------------------------------------------------------------ *)
(** ** util.go: RemoveIncompatibleCharacters *)

Lemma lead_inv (b : Z) (n : nat) (lo hi : Z) :
  lead b = Some (n, lo, hi) ->
  (n = 0%nat /\ 0 <= b <= 127)
  \/ (n = 1%nat /\ 194 <= b <= 223 /\ lo = 128 /\ hi = 191)
  \/ (n = 2%nat /\ 224 <= b <= 239
      /\ lo = (if b =? 224 then 160 else 128) /\ hi = (if b =? 237 then 159 else 191))
  \/ (n = 3%nat /\ 240 <= b <= 244
      /\ lo = (if b =? 240 then 144 else 128) /\ hi = (if b =? 244 then 143 else 191)).
Proof.
  intros H. pose proof (lead_some _ _ _ _ H) as (Hb & Hb' & Hn & Hz & _).
  destruct (Z.ltb_spec b 128) as [Hlt | Hge].
  { left. split; [apply Hz |]; lia. }
  right.
  destruct (Z.leb_spec b 223) as [H2 | H2].
  { rewrite lead_2 in H by lia. injection H as <- <- <-. left. repeat split; lia. }
  right.
  destruct (Z.leb_spec b 239) as [H3 | H3].
  { rewrite lead_3 in H by lia. injection H as <- <- <-. left. repeat split; lia. }
  right. rewrite lead_4 in H by lia. injection H as <- <- <-. repeat split; lia.
Qed.

Lemma incompatible_iff (c : Z) :
  incompatible c = true <-> 0 <= c <= 8 \/ 11 <= c <= 12 \/ 14 <= c <= 31.
Proof. unfold incompatible. cmp_cases; cbn; split; intros; try lia; try discriminate; reflexivity. Qed.

Lemma incompatible_high (c : Z) : 32 <= c -> incompatible c = false.
Proof.
  intros H. destruct (incompatible c) eqn:E; [| reflexivity].
  apply incompatible_iff in E. lia.
Qed.

Lemma EncodeRune_clean (r : Z) :
  incompatible r = false ->
  Forall (fun b => incompatible b = false) (EncodeRune r).
Proof.
  intros Hr. unfold EncodeRune, MaxRune.
  destruct (between 0 127 r) eqn:H1; [repeat constructor; exact Hr |].
  destruct (between 128 2047 r) eqn:H2.
  { apply between_iff in H2.
    repeat constructor; apply incompatible_high; Z.div_mod_to_equations; lia. }
  destruct ((r <? 0) || (1114111 <? r) || between 55296 57343 r) eqn:H3;
    [repeat constructor |].
  apply orb_false_iff in H3 as [H3 H5]. apply orb_false_iff in H3 as [H3 H4].
  apply Z.ltb_ge in H3, H4.
  destruct (Z.leb_spec r 65535);
    repeat constructor; apply incompatible_high; Z.div_mod_to_equations; lia.
Qed.

(** One step of the range loop over a valid string: the rune read, its
    encoding, and the string left. *)
Lemma runes_valid_step (b0 : Z) (r0 : bytes) :
  Valid (b0 :: r0) = true ->
  exists c r rest,
    b0 :: r0 = r ++ rest /\ Valid rest = true
    /\ runes (b0 :: r0) = c :: runes rest
    /\ EncodeRune c = r
    /\ (incompatible c = true -> r = [c]).
Proof.
  unfold runes. cbn [Valid runes_from DecodeRune].
  destruct (lead b0) as [[[n lo] hi] |] eqn:Hl; [| discriminate].
  apply lead_inv in Hl
    as [[-> Hb] | [(-> & Hb & -> & ->) | [(-> & Hb & -> & ->) | (-> & Hb & -> & ->)]]].
  - intros H. exists b0, [b0], r0. repeat split; auto.
    unfold EncodeRune. replace (between 0 127 b0) with true; [reflexivity |].
    symmetry. apply between_iff. lia.
  - destruct r0 as [| b1 r1]; [discriminate |].
    intros H. apply andb_prop in H as [H1 H]. rewrite H1.
    apply between_iff in H1.
    exists ((b0 - 192) * 64 + (b1 - 128)), [b0; b1], r1. repeat split; auto.
    + unfold EncodeRune.
      replace (between 0 127 _) with false
        by (symmetry; apply not_true_iff_false; rewrite between_iff; lia).
      replace (between 128 2047 _) with true
        by (symmetry; apply between_iff; lia).
      f_equal; [| f_equal]; Z.div_mod_to_equations; lia.
    + intros C. apply incompatible_iff in C. lia.
  - destruct r0 as [| b1 [| b2 r2]]; try discriminate.
    intros H. apply andb_prop in H as [H1 H]. rewrite H1.
    apply andb_prop in H1 as [H1 H2].
    apply between_iff in H1. apply cont_iff in H2.
    exists ((b0 - 224) * 4096 + (b1 - 128) * 64 + (b2 - 128)), [b0; b1; b2], r2.
    assert (Hc : 2048 <= (b0 - 224) * 4096 + (b1 - 128) * 64 + (b2 - 128) <= 65535
                 /\ ~ 55296 <= (b0 - 224) * 4096 + (b1 - 128) * 64 + (b2 - 128) <= 57343).
    { destruct (Z.eqb_spec b0 224); destruct (Z.eqb_spec b0 237); lia. }
    assert (Hb1 : 128 <= b1 <= 191).
    { destruct (Z.eqb_spec b0 224); destruct (Z.eqb_spec b0 237); lia. }
    clear H1. repeat split; auto.
    + unfold EncodeRune, MaxRune.
      replace (between 0 127 _) with false
        by (symmetry; apply not_true_iff_false; rewrite between_iff; lia).
      replace (between 128 2047 _) with false
        by (symmetry; apply not_true_iff_false; rewrite between_iff; lia).
      replace (between 55296 57343 _) with false
        by (symmetry; apply not_true_iff_false; rewrite between_iff; lia).
      destruct (Z.ltb_spec ((b0 - 224) * 4096 + (b1 - 128) * 64 + (b2 - 128)) 0); [lia |].
      destruct (Z.ltb_spec 1114111 ((b0 - 224) * 4096 + (b1 - 128) * 64 + (b2 - 128))); [lia |].
      destruct (Z.leb_spec ((b0 - 224) * 4096 + (b1 - 128) * 64 + (b2 - 128)) 65535); [| lia].
      cbn [orb]. f_equal; [| f_equal; [| f_equal]]; Z.div_mod_to_equations; lia.
    + intros C. apply incompatible_iff in C. lia.
  - destruct r0 as [| b1 [| b2 [| b3 r3]]]; try discriminate.
    intros H. apply andb_prop in H as [H1 H]. rewrite H1.
    apply andb_prop in H1 as [H1 H3]. apply andb_prop in H1 as [H1 H2].
    apply between_iff in H1. apply cont_iff in H2, H3.
    exists ((b0 - 240) * 262144 + (b1 - 128) * 4096 + (b2 - 128) * 64 + (b3 - 128)),
      [b0; b1; b2; b3], r3.
    assert (Hc : 65536 <= (b0 - 240) * 262144 + (b1 - 128) * 4096 + (b2 - 128) * 64
                          + (b3 - 128) <= 1114111).
    { destruct (Z.eqb_spec b0 240); destruct (Z.eqb_spec b0 244); lia. }
    assert (Hb1 : 128 <= b1 <= 191).
    { destruct (Z.eqb_spec b0 240); destruct (Z.eqb_spec b0 244); lia. }
    clear H1. repeat split; auto.
    + unfold EncodeRune, MaxRune.
      replace (between 0 127 _) with false
        by (symmetry; apply not_true_iff_false; rewrite between_iff; lia).
      replace (between 128 2047 _) with false
        by (symmetry; apply not_true_iff_false; rewrite between_iff; lia).
      replace (between 55296 57343 _) with false
        by (symmetry; apply not_true_iff_false; rewrite between_iff; lia).
      destruct (Z.ltb_spec ((b0 - 240) * 262144 + (b1 - 128) * 4096 + (b2 - 128) * 64
                            + (b3 - 128)) 0); [lia |].
      destruct (Z.ltb_spec 1114111 ((b0 - 240) * 262144 + (b1 - 128) * 4096
                                    + (b2 - 128) * 64 + (b3 - 128))); [lia |].
      destruct (Z.leb_spec ((b0 - 240) * 262144 + (b1 - 128) * 4096 + (b2 - 128) * 64
                            + (b3 - 128)) 65535); [lia |].
      cbn [orb]. f_equal; [| f_equal; [| f_equal; [| f_equal]]];
        Z.div_mod_to_equations; lia.
    + intros C. apply incompatible_iff in C. lia.
Qed.

(** No matter the text, what [RemoveIncompatibleCharacters] returns is
    well-formed UTF-8 and holds none of the control characters it is
    there to remove. *)
Theorem RemoveIncompatibleCharacters_clean (s : bytes) :
  Valid (RemoveIncompatibleCharacters s) = true
  /\ Forall (fun b => incompatible b = false) (RemoveIncompatibleCharacters s).
Proof.
  split; [apply Valid_RemoveIncompatibleCharacters |].
  unfold RemoveIncompatibleCharacters.
  induction (runes s) as [| r l IH]; [constructor |].
  cbn [flat_map]. apply Forall_app. split; [| exact IH].
  change (Forall (fun b => incompatible b = false)
            (if incompatible r then EncodeRune SP else EncodeRune r)).
  destruct (incompatible r) eqn:E; [repeat constructor | apply EncodeRune_clean; exact E].
Qed.

(** On a text that is well-formed UTF-8, [RemoveIncompatibleCharacters]
    works byte by byte: a control character it removes becomes a space
    and every other byte stays, so the length stays too. *)
Theorem RemoveIncompatibleCharacters_valid (s : bytes) :
  Valid s = true ->
  RemoveIncompatibleCharacters s = map (fun b => if incompatible b then SP else b) s.
Proof.
  remember (length s) as n eqn:Hn. revert s Hn.
  induction n as [n IH] using lt_wf_ind. intros s Hn Hv.
  destruct s as [| b0 r0]; [reflexivity |].
  destruct (runes_valid_step b0 r0 Hv) as (c & r & rest & Heq & Hrest & Hrunes & Henc & Hctl).
  unfold RemoveIncompatibleCharacters. rewrite Hrunes, Heq. cbn [flat_map].
  rewrite map_app. f_equal.
  - change (((if incompatible c then EncodeRune SP else EncodeRune c))
            = map (fun b => if incompatible b then SP else b) r).
    destruct (incompatible c) eqn:E.
    + rewrite (Hctl eq_refl). cbn [map]. rewrite E. reflexivity.
    + pose proof (EncodeRune_clean c E) as Hcl. rewrite Henc in Hcl |- *.
      clear - Hcl. induction Hcl as [| x l Hx _ IHl]; [reflexivity |].
      cbn [map]. rewrite Hx, <- IHl. reflexivity.
  - apply (IH (length rest)); auto.
    apply (f_equal (@length Z)) in Heq. rewrite length_app in Heq.
    assert (r <> []).
    { intros ->. unfold EncodeRune in Henc.
      repeat (destruct (_ : bool) in Henc; try discriminate). }
    destruct r; [contradiction |]. cbn [length] in *. lia.
Qed.

Lemma RemoveIncompatibleCharacters_valid_witness :
  RemoveIncompatibleCharacters (str "a" ++ [7; 228; 184; 173; 11] ++ str "b")
  = str "a" ++ [SP; 228; 184; 173; SP] ++ str "b".
Proof.
  apply (RemoveIncompatibleCharacters_valid (str "a" ++ [7; 228; 184; 173; 11] ++ str "b")).
  vm_compute. reflexivity.
Defined.

(* ------------------------------------------------------------------ *)
(** ** util.go: the split points *)

(** [findLastNewlineOrSpaceWithinLimit] returns [-1] when the first
    [limit] bytes hold no newline and no space; otherwise the index of
    their last newline, or, when they hold none, of their last space. *)
Theorem findLastNewlineOrSpaceWithinLimit_spec (text : bytes) (limit : Z) :
  (findLastNewlineOrSpaceWithinLimit text limit = -1
   /\ ~ In NL (slice_to text limit) /\ ~ In SP (slice_to text limit))
  \/ (0 <= findLastNewlineOrSpaceWithinLimit text limit < limit
      /\ nth_error text (Z.to_nat (findLastNewlineOrSpaceWithinLimit text limit))
         = Some NL
      /\ forall i,
           (Z.to_nat (findLastNewlineOrSpaceWithinLimit text limit) < i
            < Z.to_nat limit)%nat ->
           nth_error text i <> Some NL)
  \/ (0 <= findLastNewlineOrSpaceWithinLimit text limit < limit
      /\ nth_error text (Z.to_nat (findLastNewlineOrSpaceWithinLimit text limit))
         = Some SP
      /\ ~ In NL (slice_to text limit)
      /\ forall i,
           (Z.to_nat (findLastNewlineOrSpaceWithinLimit text limit) < i
            < Z.to_nat limit)%nat ->
           nth_error text i <> Some SP).
Proof.
  assert (Hnone : forall c, LastIndex (slice_to text limit) c < 0 ->
                            ~ In c (slice_to text limit)).
  { intros c H Hin. apply In_nth_error in Hin as [i Hi].
    exact (LastIndex_none _ _ H i Hi). }
  assert (Hlater : forall c, 0 <= LastIndex (slice_to text limit) c ->
            forall i, (Z.to_nat (LastIndex (slice_to text limit) c) < i
                       < Z.to_nat limit)%nat ->
                      nth_error text i <> Some c).
  { intros c H i Hi C. destruct (LastIndex_found _ _ H) as [_ Hl].
    apply (Hl i); [lia |]. unfold slice_to. rewrite nth_error_firstn.
    destruct (Nat.ltb_spec i (Z.to_nat limit)); [exact C | lia]. }
  unfold findLastNewlineOrSpaceWithinLimit.
  pose proof (LastIndex_range (slice_to text limit) NL) as Rn.
  pose proof (LastIndex_range (slice_to text limit) SP) as Rs.
  destruct (Z.ltb_spec (LastIndex (slice_to text limit) NL) 0) as [Hn | Hn].
  - destruct (Z.ltb_spec (LastIndex (slice_to text limit) SP) 0) as [Hs | Hs].
    + left. repeat split; [lia | apply Hnone; exact Hn | apply Hnone; exact Hs].
    + right. right. destruct (found_in_limit text limit SP Hs) as [H1 H2].
      repeat split; auto; try lia.
  - right. left. destruct (found_in_limit text limit NL Hn) as [H1 H2].
    repeat split; auto; try lia.
Qed.

(** [findSafeUTF8SplitPoint] returns the length of the longest prefix
    of the segment that is well-formed UTF-8: the whole length for a
    well-formed segment, [0] when no prefix but the empty one is. *)
Theorem findSafeUTF8SplitPoint_longest (seg : bytes) :
  0 <= findSafeUTF8SplitPoint seg <= len seg
  /\ Valid (slice_to seg (findSafeUTF8SplitPoint seg)) = true
  /\ (forall k, findSafeUTF8SplitPoint seg < k <= len seg ->
                Valid (slice_to seg k) = false)
  /\ (Valid seg = true <-> findSafeUTF8SplitPoint seg = len seg).
Proof.
  unfold findSafeUTF8SplitPoint, slice_to, len.
  destruct (safeSplitFrom_spec seg (length seg)) as (H1 & H2 & H3).
  split; [exact H2 |]. split; [exact H1 |]. split.
  - intros k Hk. apply not_true_iff_false. intros Hv.
    specialize (H3 (Z.to_nat k)). rewrite Z2Nat.id in H3 by lia.
    assert (k <= safeSplitFrom (length seg) seg) by (apply H3; [lia | exact Hv]).
    lia.
  - split.
    + intros Hv. specialize (H3 (length seg)).
      rewrite firstn_all in H3. specialize (H3 (Nat.le_refl _) Hv). lia.
    + intros Heq. rewrite Heq, Nat2Z.id, firstn_all in H1. exact H1.
Qed.

(** Cutting a well-formed text after [n] bytes, [findSafeUTF8SplitPoint]
    gives up at most three bytes of the cut. *)
Theorem findSafeUTF8SplitPoint_near (text : bytes) (n : Z) :
  Valid text = true -> 0 <= n <= len text ->
  n - 3 <= findSafeUTF8SplitPoint (slice_to text n) <= n.
Proof.
  intros Hv Hn. unfold findSafeUTF8SplitPoint, slice_to, len in *.
  destruct (safeSplitFrom_spec (firstn (Z.to_nat n) text)
              (length (firstn (Z.to_nat n) text))) as (_ & H2 & H3).
  rewrite length_firstn in *.
  destruct (Valid_cut_near text Hv (Z.to_nat n)) as (k & Hk & Hvk); [lia |].
  specialize (H3 k). rewrite firstn_firstn in H3.
  replace (Nat.min k (Z.to_nat n)) with k in H3 by lia.
  assert (Z.of_nat k <= safeSplitFrom (Nat.min (Z.to_nat n) (length text))
                          (firstn (Z.to_nat n) text)) by (apply H3; [lia | exact Hvk]).
  lia.
Qed.

Lemma findSafeUTF8SplitPoint_near_witness :
  4 - 3 <= findSafeUTF8SplitPoint (slice_to [228; 184; 173; 230; 150; 135] 4) <= 4.
Proof.
  apply (findSafeUTF8SplitPoint_near [228; 184; 173; 230; 150; 135] 4).
  - vm_compute. reflexivity.
  - vm_compute. split; discriminate.
Defined.

(** The loop of [adjustSplitPointForXMLEntity], on any text. *)
Lemma adjustLoop_any (text : bytes) (fuel : nat) :
  forall s, 0 <= s <= Z.of_nat fuel ->
    0 <= adjustLoop fuel text s <= s
    /\ (adjustLoop fuel text s = 0
        \/ (forall i, (i < Z.to_nat (adjustLoop fuel text s))%nat ->
                      nth_error text i <> Some AMP)
        \/ exists a j,
             (a < j < Z.to_nat (adjustLoop fuel text s))%nat
             /\ nth_error text a = Some AMP /\ nth_error text j = Some SEMI
             /\ forall i, (a < i < Z.to_nat (adjustLoop fuel text s))%nat ->
                          nth_error text i <> Some AMP)
    /\ (adjustLoop fuel text s < s ->
        nth_error text (Z.to_nat (adjustLoop fuel text s)) = Some AMP
        /\ forall j, (Z.to_nat (adjustLoop fuel text s) <= j < Z.to_nat s)%nat ->
                     nth_error text j <> Some SEMI).
Proof.
  induction fuel as [| f IH]; intros s Hs.
  { cbn [adjustLoop]. split; [lia |]. split; [left; lia | lia]. }
  cbn [adjustLoop].
  destruct ((0 <? s) && Contains (slice_to text s) AMP) eqn:Hcond.
  2:{ split; [lia |]. split; [| lia].
      apply andb_false_iff in Hcond as [Hcond | Hcond].
      - apply Z.ltb_ge in Hcond. left. lia.
      - right. left. intros i Hi C.
        assert (Contains (slice_to text s) AMP = true); [| congruence].
        apply Contains_iff. exists i. unfold slice_to. rewrite nth_error_firstn.
        destruct (Nat.ltb_spec i (Z.to_nat s)); [exact C | lia]. }
  apply andb_prop in Hcond as [Hpos Hcont]. apply Z.ltb_lt in Hpos.
  set (a := LastIndex (slice_to text s) AMP).
  assert (Ha : 0 <= a).
  { apply Contains_iff in Hcont as [i Hi].
    destruct (Z.leb_spec 0 a) as [H | H]; [exact H |].
    exfalso. exact (LastIndex_none _ _ H i Hi). }
  destruct (LastIndex_found _ _ Ha) as [Hamp Hlast]. fold a in Hamp, Hlast.
  unfold slice_to in Hamp, Hlast.
  rewrite nth_error_firstn in Hamp.
  destruct (Nat.ltb_spec (Z.to_nat a) (Z.to_nat s)) as [Has |]; [| discriminate].
  assert (Hlast' : forall i, (Z.to_nat a < i < Z.to_nat s)%nat ->
                             nth_error text i <> Some AMP).
  { intros i Hi C. apply (Hlast i); [lia |]. rewrite nth_error_firstn.
    destruct (Nat.ltb_spec i (Z.to_nat s)); [exact C | lia]. }
  destruct (negb (Index (slice text a s) SEMI =? -1)) eqn:Hsemi.
  - split; [lia |]. split; [| lia]. right. right.
    apply negb_true_iff, Z.eqb_neq in Hsemi.
    assert (Hex : exists i, nth_error (slice text a s) i = Some SEMI).
    { apply Contains_iff. unfold Contains.
      apply negb_true_iff, Z.eqb_neq. exact Hsemi. }
    destruct Hex as [i Hi]. rewrite nth_error_slice in Hi by exact Ha.
    destruct (Z.ltb_spec (Z.of_nat i) (s - a)); [| discriminate].
    exists (Z.to_nat a), (Z.to_nat a + i)%nat. repeat split; auto; try lia.
    destruct i as [| i]; [| lia].
    rewrite Nat.add_0_r in Hi. rewrite Hamp in Hi. discriminate.
  - apply negb_false_iff, Z.eqb_eq in Hsemi.
    assert (Hnosemi : forall j, (Z.to_nat a <= j < Z.to_nat s)%nat ->
                                nth_error text j <> Some SEMI).
    { intros j Hj C. rewrite Index_none in Hsemi.
      apply (Hsemi (j - Z.to_nat a)%nat). rewrite nth_error_slice by exact Ha.
      destruct (Z.ltb_spec (Z.of_nat (j - Z.to_nat a)) (s - a)); [| lia].
      replace (Z.to_nat a + (j - Z.to_nat a))%nat with j by lia. exact C. }
    destruct (IH a) as (I1 & I2 & I3); [lia |].
    split; [lia |]. split; [exact I2 |]. intros _.
    destruct (Z.eq_dec (adjustLoop f text a) a) as [Heq | Hne].
    + rewrite Heq. split; [exact Hamp | exact Hnosemi].
    + destruct I3 as [I3 I4]; [lia |]. split; [exact I3 |].
      intros j Hj. destruct (Nat.lt_ge_cases j (Z.to_nat a)).
      * apply I4. lia.
      * apply Hnosemi. lia.
Qed.

(** [adjustSplitPointForXMLEntity] never moves the split point forward
    and never below [0].  Where it stops, the last [&] before the point,
    if there is one, has a [;] after it before the point; and when it
    has moved the point, the point is on an [&] that no [;] followed
    before the old point. *)
Theorem adjustSplitPointForXMLEntity_spec (text : bytes) (splitAt : Z) :
  0 <= splitAt ->
  0 <= adjustSplitPointForXMLEntity text splitAt <= splitAt
  /\ (adjustSplitPointForXMLEntity text splitAt = 0
      \/ (forall i, (i < Z.to_nat (adjustSplitPointForXMLEntity text splitAt))%nat ->
                    nth_error text i <> Some AMP)
      \/ exists a j,
           (a < j < Z.to_nat (adjustSplitPointForXMLEntity text splitAt))%nat
           /\ nth_error text a = Some AMP /\ nth_error text j = Some SEMI
           /\ forall i,
                (a < i < Z.to_nat (adjustSplitPointForXMLEntity text splitAt))%nat ->
                nth_error text i <> Some AMP)
  /\ (adjustSplitPointForXMLEntity text splitAt < splitAt ->
      nth_error text (Z.to_nat (adjustSplitPointForXMLEntity text splitAt)) = Some AMP
      /\ forall j,
           (Z.to_nat (adjustSplitPointForXMLEntity text splitAt) <= j
            < Z.to_nat splitAt)%nat ->
           nth_error text j <> Some SEMI).
Proof.
  intros H. unfold adjustSplitPointForXMLEntity.
  apply adjustLoop_any. lia.
Qed.

Lemma adjustSplitPointForXMLEntity_spec_witness :
  0 <= adjustSplitPointForXMLEntity (str "a &amp; b &lt; c") 12 <= 12.
Proof.
  apply (adjustSplitPointForXMLEntity_spec (str "a &amp; b &lt; c") 12).
  lia.
Defined.

(* ------------------------------------------------------------------ *)
(** ** util.go: SplitTextByByteLength on any text *)

Lemma prefixb_app (e t x : bytes) :
  prefixb e t = true -> prefixb e (t ++ x) = true.
Proof.
  revert t. induction e as [| a e IH]; intros t H; [reflexivity |].
  destruct t as [| b t]; [discriminate |]. cbn [prefixb app] in *.
  apply andb_prop in H as [H1 H2]. rewrite H1, (IH _ H2). reflexivity.
Qed.

Lemma startsWith_prefix (table : list bytes) (t x : bytes) :
  Forall (fun e => e <> []) table ->
  startsWith table (t ++ x) = O -> startsWith table t = O.
Proof.
  intros Hne. unfold startsWith.
  destruct (find (fun e => prefixb e t) table) as [e |] eqn:Ht; [| reflexivity].
  apply find_some in Ht as [Hin Hp].
  destruct (find (fun e => prefixb e (t ++ x)) table) as [e' |] eqn:Hx.
  - apply find_some in Hx as [Hin' _]. intros H. exfalso.
    rewrite Forall_forall in Hne. apply (Hne e' Hin').
    destruct e'; [reflexivity | discriminate].
  - intros _. exfalso.
    pose proof (find_none _ _ Hx e Hin) as C. cbn beta in C.
    rewrite (prefixb_app _ _ x Hp) in C. discriminate.
Qed.

Lemma trimFront_id (table : list bytes) (fuel : nat) (s : bytes) :
  startsWith table s = O -> trimFront table fuel s = s.
Proof. intros H. destruct fuel; cbn [trimFront]; [| rewrite H]; reflexivity. Qed.

Lemma spaceEncodings_nonempty :
  Forall (fun e => e <> []) spaceEncodings
  /\ Forall (fun e => e <> []) (map (@rev Z) spaceEncodings).
Proof.
  assert (H : Forall (fun e : bytes => e <> []) spaceEncodings).
  { apply Forall_forall. intros e Hin ->.
    pose proof spaceEncodings_ok as Hok. rewrite forallb_forall in Hok.
    specialize (Hok [] Hin). discriminate. }
  split; [exact H |]. apply Forall_forall. intros e Hin.
  apply in_map_iff in Hin as (e0 & <- & Hin0).
  rewrite Forall_forall in H. specialize (H e0 Hin0).
  intros C. apply H. rewrite <- (rev_involutive e0), C. reflexivity.
Qed.

(** Trimming what is trimmed changes nothing. *)
Lemma TrimSpace_idem (s : bytes) : TrimSpace (TrimSpace s) = TrimSpace s.
Proof.
  destruct (TrimSpace_done s) as [Hl Hr].
  destruct spaceEncodings_nonempty as [Hne _].
  unfold TrimSpace in *. set (u := TrimLeftSpace s) in *.
  unfold TrimRightSpace in *.
  destruct (trimFront_spec (map (@rev Z) spaceEncodings) (length u) (rev u))
    as (pre & Hpre & _).
  set (t := trimFront (map (@rev Z) spaceEncodings) (length u) (rev u)) in *.
  rewrite rev_involutive in Hr.
  assert (Hu : u = rev t ++ rev pre).
  { rewrite <- rev_app_distr, <- Hpre, rev_involutive. reflexivity. }
  assert (Hz : startsWith spaceEncodings (rev t) = O).
  { apply (startsWith_prefix _ _ (rev pre) Hne). rewrite <- Hu. exact Hl. }
  unfold TrimLeftSpace. rewrite !(trimFront_id _ _ _ Hz).
  rewrite rev_involutive, (trimFront_id _ _ _ Hr). reflexivity.
Qed.

Lemma TrimSpace_length (s : bytes) : len (TrimSpace s) <= len s.
Proof.
  destruct (TrimSpace_spec s) as (pre & post & Hs & _).
  apply (f_equal (@length Z)) in Hs. rewrite !length_app in Hs.
  unfold len. lia.
Qed.

Lemma splitPoint_le (text : bytes) (L : Z) : 1 <= L -> splitPoint text L <= L.
Proof.
  intros HL. unfold splitPoint.
  set (s0 := findLastNewlineOrSpaceWithinLimit text L).
  set (s1 := if s0 <? 0 then findSafeUTF8SplitPoint (slice_to text L) else s0).
  assert (Hs1 : 0 <= s1 <= L).
  { subst s1. destruct (Z.ltb_spec s0 0) as [Hlt | Hge].
    - unfold findSafeUTF8SplitPoint.
      destruct (safeSplitFrom_spec (slice_to text L) (length (slice_to text L)))
        as (_ & H & _).
      unfold slice_to in *. rewrite length_firstn in *. lia.
    - split; [exact Hge |]. subst s0. unfold findLastNewlineOrSpaceWithinLimit in *.
      pose proof (LastIndex_range (slice_to text L) NL) as Rn.
      pose proof (LastIndex_range (slice_to text L) SP) as Rs.
      unfold slice_to, len in *. rewrite length_firstn in *.
      destruct (LastIndex (firstn (Z.to_nat L) text) NL <? 0); lia. }
  destruct (adjustLoop_any text (Z.to_nat s1) s1) as (H & _); [lia |].
  fold (adjustSplitPointForXMLEntity text s1) in H.
  destruct (Z.leb_spec (adjustSplitPointForXMLEntity text s1) 0); lia.
Qed.

Lemma flat_map_emit (pieces : list bytes) :
  flat_map (fun p => emit (TrimSpace p)) pieces
  = filter (fun chunk => 0 <? len chunk) (map TrimSpace pieces).
Proof.
  induction pieces as [| p l IH]; [reflexivity |].
  cbn [flat_map map filter]. rewrite IH. unfold emit.
  destruct (0 <? len (TrimSpace p)); reflexivity.
Qed.

(** The pieces the loop cuts the text into, none longer than the
    budget. *)
Lemma splitLoop_bounded_pieces (L : Z) :
  0 < L ->
  forall fuel text,
    (length text <= fuel)%nat ->
    exists pieces,
      concat pieces = text
      /\ Forall (fun p => len p <= L) pieces
      /\ splitLoop fuel text L = flat_map (fun p => emit (TrimSpace p)) pieces.
Proof.
  intros HL. induction fuel as [| fuel IH]; intros text Hfuel.
  - exists [text]. cbn [concat flat_map splitLoop]. rewrite !app_nil_r.
    destruct text; [| cbn in Hfuel; lia].
    repeat split; [repeat constructor; cbn; lia |].
    destruct (Z.ltb_spec L (len [])) as [Hlt | Hge]; [cbn in Hlt; lia | reflexivity].
  - cbn [splitLoop]. destruct (Z.ltb_spec L (len text)) as [Hlt | Hge].
    + pose proof (splitPoint_pos text L) as Hk.
      pose proof (splitPoint_le text L ltac:(lia)) as Hk'.
      set (k := splitPoint text L) in *.
      destruct (IH (slice_from text k)) as (pieces & Hcat & Hb & Hloop).
      { unfold slice_from, len in *. rewrite length_skipn. lia. }
      exists (slice_to text k :: pieces). cbn [concat flat_map].
      rewrite Hcat, Hloop. split; [apply firstn_skipn |]. split; [| reflexivity].
      constructor; [| exact Hb].
      unfold slice_to, len. rewrite length_firstn. lia.
    + exists [text]. cbn [concat flat_map]. rewrite !app_nil_r.
      repeat split; auto.
Qed.

(** For every text and every budget above zero, [SplitTextByByteLength]
    cuts the text into consecutive pieces of at most [byteLength] bytes
    and returns, in order, what [TrimSpace] leaves of each piece, the
    empty ones left out: so no chunk is empty, none is longer than the
    budget, and none starts or ends with white space. *)
Theorem SplitTextByByteLength_chunks (text : bytes) (byteLength : Z) :
  0 < byteLength ->
  (exists pieces,
     concat pieces = text
     /\ Forall (fun p => len p <= byteLength) pieces
     /\ SplitTextByByteLength text byteLength
        = filter (fun chunk => 0 <? len chunk) (map TrimSpace pieces))
  /\ Forall (fun chunk => 0 < len chunk <= byteLength /\ TrimSpace chunk = chunk)
       (SplitTextByByteLength text byteLength).
Proof.
  intros HL. unfold SplitTextByByteLength.
  destruct (Z.leb_spec byteLength 0); [lia |].
  destruct (splitLoop_bounded_pieces byteLength HL (length text) text (Nat.le_refl _))
    as (pieces & Hcat & Hb & Hloop).
  rewrite flat_map_emit in Hloop. split.
  - exists pieces. repeat split; assumption.
  - rewrite Hloop. clear Hloop Hcat.
    induction Hb as [| p l Hp _ IH]; [constructor |].
    cbn [map filter]. destruct (Z.ltb_spec 0 (len (TrimSpace p))) as [Hpos | _];
      [| exact IH].
    constructor; [| exact IH].
    pose proof (TrimSpace_length p). split; [lia | apply TrimSpace_idem].
Qed.

Lemma SplitTextByByteLength_chunks_witness :
  Forall (fun chunk => 0 < len chunk <= 8 /\ TrimSpace chunk = chunk)
    (SplitTextByByteLength (str "  one two   three &  ") 8).
Proof.
  apply (SplitTextByByteLength_chunks (str "  one two   three &  ") 8).
  lia.
Defined.

(* ------------------------------------------------------------------ *)
(** ** A text of control characters and white space *)

Lemma runes_ascii (s : bytes) :
  Forall (fun b => 0 <= b < 128) s -> runes s = s.
Proof.
  unfold runes. induction 1 as [| b s Hb _ IH]; [reflexivity |].
  cbn [runes_from DecodeRune]. rewrite (lead_ascii b Hb). cbn [Nat.sub].
  rewrite IH. reflexivity.
Qed.

Lemma escapedText_blank (text : bytes) :
  blank text -> Forall (fun b => In b [9; 10; 13; 32]) (escapedText text).
Proof.
  intros Hb. unfold escapedText, RemoveIncompatibleCharacters, blank in *.
  rewrite runes_ascii by (eapply Forall_impl; [| exact Hb]; cbn beta; intros; lia).
  unfold EscapeXML. induction Hb as [| b s Hb _ IH]; [constructor |].
  cbn [flat_map]. rewrite flat_map_app. apply Forall_app. split; [| exact IH].
  change (Forall (fun b0 => In b0 [9; 10; 13; 32])
            (flat_map escapeByte (if incompatible b then EncodeRune SP else EncodeRune b))).
  destruct (incompatible b) eqn:E.
  - vm_compute. constructor; [auto 10 | constructor].
  - assert (Hc : b = 9 \/ b = 10 \/ b = 13 \/ b = 32).
    { destruct (Z.eq_dec b 9); [tauto |]. destruct (Z.eq_dec b 10); [tauto |].
      destruct (Z.eq_dec b 13); [tauto |]. destruct (Z.eq_dec b 32); [tauto |].
      assert (incompatible b = true) by (apply incompatible_iff; lia). congruence. }
    destruct Hc as [-> | [-> | [-> | ->]]]; vm_compute;
      (constructor; [auto 10 | constructor]).
Qed.

Lemma spaceEncodings_eq :
  spaceEncodings
  = [[9]; [10]; [11]; [12]; [13]; [32]; [194; 133]; [194; 160]; [225; 154; 128];
     [226; 128; 128]; [226; 128; 129]; [226; 128; 130]; [226; 128; 131];
     [226; 128; 132]; [226; 128; 133]; [226; 128; 134]; [226; 128; 135];
     [226; 128; 136]; [226; 128; 137]; [226; 128; 138]; [226; 128; 168];
     [226; 128; 169]; [226; 128; 175]; [226; 129; 159]; [227; 128; 128]].
Proof. vm_compute. reflexivity. Qed.

Lemma trimFront_blank (fuel : nat) :
  forall p, (length p <= fuel)%nat ->
    Forall (fun b => In b [9; 10; 13; 32]) p ->
    trimFront spaceEncodings fuel p = [].
Proof.
  induction fuel as [| fuel IH]; intros p Hlen Hp.
  - destruct p; [reflexivity | cbn in Hlen; lia].
  - destruct Hp as [| b p Hb Hp]; [reflexivity |].
    cbn [trimFront]. rewrite spaceEncodings_eq.
    assert (Hs : startsWith
                   [[9]; [10]; [11]; [12]; [13]; [32]; [194; 133]; [194; 160];
                    [225; 154; 128]; [226; 128; 128]; [226; 128; 129];
                    [226; 128; 130]; [226; 128; 131]; [226; 128; 132];
                    [226; 128; 133]; [226; 128; 134]; [226; 128; 135];
                    [226; 128; 136]; [226; 128; 137]; [226; 128; 138];
                    [226; 128; 168]; [226; 128; 169]; [226; 128; 175];
                    [226; 129; 159]; [227; 128; 128]] (b :: p) = 1%nat).
    { cbn [In] in Hb. destruct Hb as [<- | [<- | [<- | [<- | []]]]]; reflexivity. }
    rewrite Hs. cbn [skipn]. rewrite <- spaceEncodings_eq. apply IH; [| exact Hp].
    cbn [length] in Hlen. lia.
Qed.

Lemma TrimSpace_blank (p : bytes) :
  Forall (fun b => In b [9; 10; 13; 32]) p -> TrimSpace p = [].
Proof.
  intros Hp. unfold TrimSpace, TrimLeftSpace.
  rewrite (trimFront_blank (length p) p (Nat.le_refl _) Hp). reflexivity.
Qed.

Lemma prepareTexts_blank (text : bytes) (L : Z) :
  blank text -> prepareTexts text L = [].
Proof.
  intros Hb. unfold prepareTexts, SplitTextByByteLength.
  destruct (Z.leb_spec L 0) as [| HL]; [reflexivity |].
  destruct (splitLoop_pieces L HL (length (escapedText text)) (escapedText text)
              (Nat.le_refl _)) as (pieces & Hcat & ->).
  pose proof (escapedText_blank text Hb) as Hw. rewrite <- Hcat in Hw.
  clear Hcat. induction pieces as [| p l IH]; [reflexivity |].
  cbn [concat] in Hw. apply Forall_app in Hw as [Hp Hl].
  cbn [flat_map]. rewrite (TrimSpace_blank p Hp), (IH Hl). reflexivity.
Qed.

(** A text that holds nothing but ASCII control characters and white
    space gives an instance with no chunk to send: [Stream] opens no
    session for it, sends no chunk and, on its first call, no error,
    not even [ErrNoAudioReceived]. *)
Theorem NewCommunicate_blank_text (UnescapeXML : bytes -> bytes)
  (text voice : bytes) (opts : list CommunicateOption) (c : Communicate)
  (net : list Conn) :
  blank text ->
  NewCommunicate text voice opts = inr c ->
  texts c = []
  /\ snd (fst (Stream UnescapeXML c net)) = []
  /\ (StreamWasCalled (state c) = false -> snd (Stream UnescapeXML c net) = None).
Proof.
  intros Hb. unfold NewCommunicate.
  destruct (ValidateTTSConfig _) as [tc [err |]]; [discriminate |].
  intros H. injection H as <-. cbn [texts].
  rewrite (prepareTexts_blank text 4096 Hb).
  split; [reflexivity |]. unfold Stream. cbn [texts state].
  destruct (StreamWasCalled _); cbn; split; auto. discriminate.
Qed.

Lemma NewCommunicate_blank_text_witness :
  exists c,
    NewCommunicate [SP; 9; NL; 1; SP] [] [] = inr c
    /\ texts c = []
    /\ snd (fst (Stream unescapePlain c netInOrder)) = []
    /\ (StreamWasCalled (state c) = false ->
        snd (Stream unescapePlain c netInOrder) = None).
Proof.
  eexists. split; [vm_compute; reflexivity |].
  apply (NewCommunicate_blank_text unescapePlain [SP; 9; NL; 1; SP] [] []).
  - repeat constructor; vm_compute; discriminate.
  - vm_compute. reflexivity.
Defined.

(* ------------------------------------------------------------------ *)
(** ** communicate.go and util.go: header blocks *)

Lemma blankLineAt_short (data : bytes) (i : nat) :
  (length data < 4)%nat -> ~ blankLineAt data i.
Proof.
  unfold blankLineAt. intros Hlen H. apply (f_equal (@length Z)) in H.
  rewrite length_firstn, length_skipn in H.
  change (length (CRLF ++ CRLF)) with 4%nat in H. lia.
Qed.

Lemma findHeaderEnd_from (data : bytes) :
  forall i,
    (findHeaderEnd data i = -1 /\ forall k, ~ blankLineAt data k)
    \/ exists k,
         findHeaderEnd data i = i + Z.of_nat k /\ blankLineAt data k
         /\ forall j, (j < k)%nat -> ~ blankLineAt data j.
Proof.
  induction data as [| a rest IH]; intros i.
  { left. split; [reflexivity |]. intros k. apply blankLineAt_short. cbn. lia. }
  cbn [findHeaderEnd].
  destruct rest as [| b [| c [| d rest']]];
    try (left; split; [reflexivity |]; intros k; apply blankLineAt_short; cbn; lia).
  destruct ((a =? CR) && (b =? NL) && (c =? CR) && (d =? NL)) eqn:E.
  - right. exists O. split; [lia |]. split; [| intros j Hj; lia].
    apply andb_prop in E as [E Ed]. apply andb_prop in E as [E Ec].
    apply andb_prop in E as [Ea Eb].
    apply Z.eqb_eq in Ea, Eb, Ec, Ed. subst. reflexivity.
  - assert (H0 : ~ blankLineAt (a :: b :: c :: d :: rest') 0).
    { unfold blankLineAt. cbn [skipn firstn]. intros H. injection H as -> -> -> ->.
      discriminate E. }
    destruct (IH (i + 1)) as [[Hr Hnone] | (k & Hr & Hk & Hbefore)].
    + left. split; [exact Hr |]. intros [| k]; [exact H0 | apply Hnone].
    + right. exists (S k). split; [lia |]. split; [exact Hk |].
      intros [| j] Hj; [exact H0 |]. apply Hbefore. lia.
Qed.

(** The scan for the end of the headers returns the index of the first
    CR LF CR LF of the message, and [-1] when the message has none. *)
Theorem findHeaderEnd_first (data : bytes) :
  (findHeaderEnd data 0 = -1 /\ forall i, ~ blankLineAt data i)
  \/ (0 <= findHeaderEnd data 0
      /\ blankLineAt data (Z.to_nat (findHeaderEnd data 0))
      /\ forall i, (i < Z.to_nat (findHeaderEnd data 0))%nat -> ~ blankLineAt data i).
Proof.
  destruct (findHeaderEnd_from data 0) as [H | (k & Hr & Hk & Hb)]; [left; exact H |].
  right. rewrite Hr. cbn [Z.add]. rewrite Nat2Z.id.
  split; [lia |]. split; assumption.
Qed.

(** *** Lines *)

Lemma splitCRLF_line (l : bytes) :
  forall rest cur,
    ~ In CR l ->
    splitCRLF (l ++ CR :: NL :: rest) cur = (rev cur ++ l) :: splitCRLF rest [].
Proof.
  induction l as [| a l IH]; intros rest cur Hl.
  - cbn. rewrite app_nil_r. reflexivity.
  - cbn [app splitCRLF].
    destruct (l ++ CR :: NL :: rest) as [| b t] eqn:E.
    { destruct l; discriminate E. }
    destruct (Z.eqb_spec a CR) as [-> | Ha]; [exfalso; apply Hl; left; reflexivity |].
    cbn [andb]. rewrite <- E, IH by (intros C; apply Hl; right; exact C).
    cbn [rev]. rewrite <- app_assoc. reflexivity.
Qed.

Lemma splitCRLF_last (l : bytes) :
  forall cur, ~ In CR l -> splitCRLF l cur = [rev cur ++ l].
Proof.
  induction l as [| a l IH]; intros cur Hl.
  - cbn. rewrite app_nil_r. reflexivity.
  - cbn [splitCRLF]. destruct l as [| b t] eqn:E.
    + reflexivity.
    + destruct (Z.eqb_spec a CR) as [-> | Ha]; [exfalso; apply Hl; left; reflexivity |].
      cbn [andb]. rewrite IH by (intros C; apply Hl; right; exact C).
      cbn [rev]. rewrite <- app_assoc. reflexivity.
Qed.

(** Splitting a block gives its lines back. *)
Lemma splitCRLF_joinCRLF (lines : list bytes) :
  lines <> [] -> Forall (fun l => ~ In CR l) lines ->
  splitCRLF (joinCRLF lines) [] = lines.
Proof.
  intros Hne Hl. induction Hl as [| l rest Hl Hrest IH]; [contradiction |].
  cbn [joinCRLF]. destruct rest as [| l' rest'].
  - apply splitCRLF_last. exact Hl.
  - unfold CRLF. cbn [app]. rewrite splitCRLF_line by exact Hl.
    cbn [rev app]. f_equal. apply IH. discriminate.
Qed.

Lemma find_app (A : Type) (f : A -> bool) (l1 l2 : list A) :
  find f (l1 ++ l2) = match find f l1 with Some x => Some x | None => find f l2 end.
Proof.
  induction l1 as [| x l1 IH]; [reflexivity |].
  cbn [app find]. destruct (f x); [reflexivity | exact IH].
Qed.

Lemma Index_first (s : bytes) (c : Z) :
  0 <= Index s c ->
  s = slice_to s (Index s c) ++ c :: slice_from s (Index s c + 1)
  /\ ~ In c (slice_to s (Index s c)).
Proof.
  unfold slice_to, slice_from. induction s as [| b r IH]; cbn [Index]; [lia |].
  destruct (Z.eqb_spec b c) as [-> | Hne].
  - intros _. cbn. split; [reflexivity | tauto].
  - pose proof (Index_range r c) as Hr.
    destruct (Z.ltb_spec (Index r c) 0) as [| Hge]; [lia |]. intros _.
    destruct (IH Hge) as [H1 H2].
    replace (Z.to_nat (Index r c + 1)) with (S (Z.to_nat (Index r c))) by lia.
    replace (Z.to_nat (Index r c + 1 + 1)) with (S (Z.to_nat (Index r c + 1))) by lia.
    cbn [firstn skipn app]. split; [f_equal; exact H1 |].
    intros [C | C]; [congruence | exact (H2 C)].
Qed.

Lemma prefixb_iff (e s : bytes) :
  prefixb e s = true <-> firstn (length e) s = e.
Proof.
  revert s. induction e as [| x e IH]; intros s; [cbn; tauto |].
  destruct s as [| y s]; cbn [prefixb length firstn]; [split; discriminate |].
  rewrite andb_true_iff, Z.eqb_eq, IH. split.
  - intros [-> ->]. reflexivity.
  - intros H. injection H as -> H. split; [reflexivity | exact H].
Qed.

(** A line with a colon binds the key [k] exactly when it starts with
    [k] and a colon. *)
Lemma headerLine_iff (k line : bytes) :
  ~ In COLON k ->
  headerLine k line = true <->
  (0 <= Index line COLON /\ slice_to line (Index line COLON) = k).
Proof.
  intros Hk. unfold headerLine. rewrite prefixb_iff. split.
  - intros H. remember (skipn (length (k ++ [COLON])) line) as tail eqn:Ht.
    assert (Hl : line = k ++ COLON :: tail).
    { rewrite <- (firstn_skipn (length (k ++ [COLON])) line), <- Ht.
      rewrite H, <- app_assoc. reflexivity. }
    clear Ht H. subst line. rewrite Index_app_first by exact Hk.
    split; [unfold len; lia |].
    unfold slice_to, len. rewrite Nat2Z.id, firstn_app, Nat.sub_diag.
    rewrite firstn_all. cbn. apply app_nil_r.
  - intros [Hi Hs]. destruct (Index_first line COLON Hi) as [Hl _].
    rewrite Hs in Hl. rewrite Hl, length_app. cbn [length].
    rewrite firstn_app, firstn_all2 by lia.
    replace (length k + 1 - length k)%nat with 1%nat by lia. reflexivity.
Qed.

Lemma header_fold (k : bytes) (lines : list bytes) :
  ~ In COLON k ->
  forall h0,
    header
      (fold_left
         (fun h line =>
            let i := Index line 58 in
            if i <? 0 then h else (slice_to line i, slice_from line (i + 1)) :: h)
         lines h0) k
    = match find (headerLine k) (rev lines) with
      | Some line => skipn (length k + 1) line
      | None => header h0 k
      end.
Proof.
  intros Hk. induction lines as [| l ls IH]; intros h0; [reflexivity |].
  cbn [fold_left rev]. rewrite IH, find_app.
  destruct (find (headerLine k) (rev ls)) as [line |]; [reflexivity |].
  cbn [find]. pose proof (headerLine_iff k l Hk) as Hiff.
  change 58 with COLON.
  destruct (Z.ltb_spec (Index l COLON) 0) as [Hlt | Hge].
  - destruct (headerLine k l); [| reflexivity].
    destruct Hiff as [Hiff _]. destruct (Hiff eq_refl). lia.
  - cbn [header]. destruct (bytes_eq_dec (slice_to l (Index l COLON)) k) as [He | Hn].
    + replace (headerLine k l) with true by (symmetry; apply Hiff; auto).
      unfold slice_from. f_equal. rewrite <- He. unfold slice_to.
      pose proof (Index_range l COLON). rewrite length_firstn. unfold len in *. lia.
    + destruct (headerLine k l) eqn:E; [| reflexivity].
      destruct Hiff as [Hiff _]. destruct (Hiff eq_refl). contradiction.
Qed.

Lemma GetHeadersAndData_block (lines : list bytes) (body : bytes) :
  lines <> [] -> Forall (fun l => ~ In CR l) lines ->
  GetHeadersAndData (joinCRLF lines ++ body) (len (joinCRLF lines))
  = (fold_left
       (fun h line =>
          if Index line 58 <? 0 then h
          else (slice_to line (Index line 58), slice_from line (Index line 58 + 1)) :: h)
       lines [],
     body).
Proof.
  intros Hne Hl.
  assert (Hlen : (len (joinCRLF lines ++ body) <? len (joinCRLF lines)) = false).
  { apply Z.ltb_ge. unfold len. rewrite length_app. lia. }
  assert (Hfirst : slice_to (joinCRLF lines ++ body) (len (joinCRLF lines))
                   = joinCRLF lines).
  { unfold slice_to, len. rewrite Nat2Z.id.
    rewrite firstn_app, Nat.sub_diag, firstn_all. cbn [firstn]. apply app_nil_r. }
  assert (Hrest : slice_from (joinCRLF lines ++ body) (len (joinCRLF lines)) = body).
  { unfold slice_from, len. rewrite Nat2Z.id.
    rewrite skipn_app, Nat.sub_diag, skipn_all. reflexivity. }
  unfold GetHeadersAndData. cbv zeta. rewrite Hlen, Hfirst, Hrest.
  rewrite (splitCRLF_joinCRLF lines Hne Hl). reflexivity.
Qed.

Lemma header_block (lines : list bytes) (body k : bytes) :
  lines <> [] -> Forall (fun l => ~ In CR l) lines -> ~ In COLON k ->
  header (fst (GetHeadersAndData (joinCRLF lines ++ body) (len (joinCRLF lines)))) k
  = valueOf lines k.
Proof.
  intros Hne Hl Hk. rewrite (GetHeadersAndData_block lines body Hne Hl). cbn [fst].
  pose proof (header_fold k lines Hk []) as Hf. cbv zeta in Hf. rewrite Hf.
  unfold valueOf. destruct (find (headerLine k) (rev lines)); reflexivity.
Qed.

(** Reading a header block that is its lines joined by CR LF: the value
    of a key is what follows the first colon in the last line that
    starts with the key and a colon, a key no line gives reads as the
    empty string, and the body is what follows the block. *)
Theorem GetHeadersAndData_lookup (lines : list bytes) (body k : bytes) :
  lines <> [] -> Forall (fun l => ~ In CR l) lines -> ~ In COLON k ->
  header (fst (GetHeadersAndData (joinCRLF lines ++ body) (len (joinCRLF lines)))) k
  = valueOf lines k
  /\ snd (GetHeadersAndData (joinCRLF lines ++ body) (len (joinCRLF lines))) = body.
Proof.
  intros Hne Hl Hk. split; [apply header_block; assumption |].
  rewrite (GetHeadersAndData_block lines body Hne Hl). reflexivity.
Qed.

Lemma GetHeadersAndData_lookup_witness :
  header
    (fst (GetHeadersAndData
            (joinCRLF [str "Path:a"; str "X-Time:12:30"; str "Path:audio"] ++ [1; 2])
            (len (joinCRLF [str "Path:a"; str "X-Time:12:30"; str "Path:audio"]))))
    (str "Path")
  = valueOf [str "Path:a"; str "X-Time:12:30"; str "Path:audio"] (str "Path")
  /\ snd (GetHeadersAndData
            (joinCRLF [str "Path:a"; str "X-Time:12:30"; str "Path:audio"] ++ [1; 2])
            (len (joinCRLF [str "Path:a"; str "X-Time:12:30"; str "Path:audio"])))
     = [1; 2].
Proof.
  apply (GetHeadersAndData_lookup
           [str "Path:a"; str "X-Time:12:30"; str "Path:audio"] [1; 2] (str "Path")).
  - discriminate.
  - repeat constructor; vm_compute; intuition discriminate.
  - vm_compute. intuition discriminate.
Defined.

(* ------------------------------------------------------------------ *)
(** ** util.go: the request read back *)

Lemma findHeaderEnd_short (data : bytes) (i : Z) :
  (length data < 4)%nat -> findHeaderEnd data i = -1.
Proof.
  intros H. destruct data as [| a [| b [| c [| d r]]]]; try reflexivity.
  cbn in H. lia.
Qed.

Lemma findHeaderEnd_skip (l : bytes) :
  forall rest i,
    ~ In CR l -> findHeaderEnd (l ++ rest) i = findHeaderEnd rest (i + len l).
Proof.
  induction l as [| a l IH]; intros rest i Hl.
  - cbn. f_equal. lia.
  - assert (Ha : (a =? CR) = false).
    { apply Z.eqb_neq. intros ->. apply Hl. left. reflexivity. }
    assert (Hl' : ~ In CR l) by (intros C; apply Hl; right; exact C).
    cbn [app findHeaderEnd]. rewrite Ha. cbn [andb].
    replace (i + len (a :: l)) with (i + 1 + len l)
      by (unfold len; cbn [length]; lia).
    destruct (l ++ rest) as [| b [| c [| d t]]] eqn:E;
      try (rewrite <- E; apply IH; exact Hl');
      symmetry; apply findHeaderEnd_short;
      apply (f_equal (@length Z)) in E; rewrite length_app in E; cbn in E; lia.
Qed.

Lemma findHeaderEnd_next_line (x : Z) (rest : bytes) (i : Z) :
  x <> CR ->
  findHeaderEnd (CR :: NL :: x :: rest) i = findHeaderEnd (x :: rest) (i + 2).
Proof.
  intros Hx. apply Z.eqb_neq in Hx.
  destruct rest as [| c [| d t]]; cbn [findHeaderEnd]; try reflexivity;
    rewrite Hx; cbn [Z.eqb andb CR NL Pos.eqb]; try reflexivity.
  replace (i + 1 + 1) with (i + 2) by lia. reflexivity.
Qed.

(** The blank line that ends a block of lines is the first of the
    message when no line holds a CR and no line but the first is
    empty. *)
Lemma findHeaderEnd_block (lines : list bytes) (body : bytes) :
  lines <> [] -> Forall (fun l => ~ In CR l) lines ->
  Forall (fun l => l <> []) (tl lines) ->
  forall i,
    findHeaderEnd (joinCRLF lines ++ CRLF ++ CRLF ++ body) i
    = i + len (joinCRLF lines).
Proof.
  intros Hne Hl. induction Hl as [| l rest Hl Hrest IH]; [contradiction |].
  intros Htl i. cbn [tl] in Htl. cbn [joinCRLF].
  destruct rest as [| l' rest'].
  - rewrite findHeaderEnd_skip by exact Hl. reflexivity.
  - rewrite <- !app_assoc. rewrite findHeaderEnd_skip by exact Hl.
    inversion Htl as [| ? ? Hl'ne Htl']; subst.
    inversion Hrest as [| ? ? Hl'cr _]; subst.
    specialize (IH ltac:(discriminate)).
    assert (Hhead : exists x t, joinCRLF (l' :: rest') = x :: t /\ x <> CR).
    { destruct l' as [| x l'']; [contradiction |].
      assert (x <> CR) by (intros ->; apply Hl'cr; left; reflexivity).
      cbn [joinCRLF]. destruct rest'; eexists _, _; split; eauto; reflexivity. }
    destruct Hhead as (x & t & Hj & Hx).
    assert (Htl'' : Forall (fun l0 : bytes => l0 <> []) (tl (l' :: rest'))) by exact Htl'.
    specialize (IH Htl'' (i + len l + 2)).
    unfold CRLF at 1. cbn [app]. rewrite Hj in *. cbn [app] in *.
    rewrite findHeaderEnd_next_line by exact Hx.
    rewrite IH. unfold len. rewrite !length_app. cbn [length]. unfold CRLF. cbn [length].
    lia.
Qed.

Lemma SSMLHeadersPlusData_lines (requestID timestamp ssml : bytes) :
  SSMLHeadersPlusData requestID timestamp ssml
  = joinCRLF [str "X-RequestId:" ++ requestID;
              str "Content-Type:application/ssml+xml";
              str "X-Timestamp:" ++ timestamp ++ str "Z";
              str "Path:ssml"]
    ++ CRLF ++ CRLF ++ ssml.
Proof.
  unfold SSMLHeadersPlusData, joinCRLF. rewrite <- !app_assoc. reflexivity.
Qed.

(** The request [SSMLHeadersPlusData] makes, read with the scan for the
    end of the headers and [GetHeadersAndData] as the session reads a
    text message: the four headers come back with the values they were
    given and the path is [ssml]; the body is the SSML behind the blank
    line, the four bytes of which are still in front of it. *)
Theorem SSMLHeadersPlusData_read_back (requestID timestamp ssml : bytes) :
  ~ In CR requestID -> ~ In CR timestamp ->
  findHeaderEnd (SSMLHeadersPlusData requestID timestamp ssml) 0
  = len (SSMLHeadersPlusData requestID timestamp ssml) - len ssml - 4
  /\ textPath (SSMLHeadersPlusData requestID timestamp ssml) = Some (str "ssml")
  /\ (forall k v,
        In (k, v) [(str "X-RequestId", requestID);
                   (str "Content-Type", str "application/ssml+xml");
                   (str "X-Timestamp", timestamp ++ str "Z");
                   (str "Path", str "ssml")] ->
        header
          (fst (GetHeadersAndData (SSMLHeadersPlusData requestID timestamp ssml)
                  (findHeaderEnd (SSMLHeadersPlusData requestID timestamp ssml) 0)))
          k = v)
  /\ snd (GetHeadersAndData (SSMLHeadersPlusData requestID timestamp ssml)
            (findHeaderEnd (SSMLHeadersPlusData requestID timestamp ssml) 0))
     = CRLF ++ CRLF ++ ssml.
Proof.
  intros Hr Ht. rewrite SSMLHeadersPlusData_lines.
  set (lines := [str "X-RequestId:" ++ requestID;
                 str "Content-Type:application/ssml+xml";
                 str "X-Timestamp:" ++ timestamp ++ str "Z";
                 str "Path:ssml"]).
  assert (Hne : lines <> []) by discriminate.
  assert (Hcr : Forall (fun l => ~ In CR l) lines).
  { subst lines. repeat constructor; intros C;
      repeat (apply in_app_or in C as [C | C]); try contradiction;
      vm_compute in C; intuition discriminate. }
  assert (Htl : Forall (fun l => l <> []) (tl lines)).
  { subst lines. cbn [tl]. repeat constructor; discriminate. }
  pose proof (findHeaderEnd_block lines ssml Hne Hcr Htl 0) as Hend.
  cbn [Z.add] in Hend. rewrite Hend.
  assert (Hpath : header
                    (fst (GetHeadersAndData (joinCRLF lines ++ CRLF ++ CRLF ++ ssml)
                            (len (joinCRLF lines)))) (str "Path") = str "ssml").
  { rewrite header_block by (auto; vm_compute; intuition discriminate).
    reflexivity. }
  split; [| split; [| split]].
  - unfold len. rewrite !length_app. unfold CRLF. cbn [length]. lia.
  - unfold textPath. rewrite Hend.
    destruct (Z.ltb_spec (len (joinCRLF lines)) 0) as [C | _];
      [unfold len in C; lia |].
    rewrite (GetHeadersAndData_block lines _ Hne Hcr).
    rewrite (GetHeadersAndData_block lines _ Hne Hcr) in Hpath.
    cbn [fst] in Hpath. rewrite Hpath. reflexivity.
  - intros k v Hin. cbn [In] in Hin.
    destruct Hin as [E | [E | [E | [E | []]]]]; injection E as <- <-;
      (rewrite header_block by (auto; vm_compute; intuition discriminate));
      reflexivity.
  - rewrite (GetHeadersAndData_block lines _ Hne Hcr). reflexivity.
Qed.

Lemma SSMLHeadersPlusData_read_back_witness :
  textPath (SSMLHeadersPlusData (str "0123abcd") (str "Thu Jan 01 1970")
              (MKSSML (defaultConfig DefaultVoice) (str "hello")))
  = Some (str "ssml").
Proof.
  apply (SSMLHeadersPlusData_read_back (str "0123abcd") (str "Thu Jan 01 1970")
           (MKSSML (defaultConfig DefaultVoice) (str "hello"))).
  - vm_compute. intuition discriminate.
  - vm_compute. intuition discriminate.
Defined.

(* ------------------------------------------------------------------ *)
(** ** communicate.go: binary messages *)

(** A binary message that [stream] takes for audio is its two bytes of
    header length, as many bytes of headers, and then the audio, which
    is not empty and goes into the chunk as it is. *)
Theorem binaryFrame_payload (data : bytes) (ch : TTSChunk) :
  Forall (fun b => 0 <= b < 256) data ->
  binaryFrame data = inr (Some ch) ->
  Type_ ch = str "audio" /\ Data ch <> []
  /\ exists headers,
       data = nth 0 data 0 :: nth 1 data 0 :: headers ++ Data ch
       /\ len headers = nth 0 data 0 * 256 + nth 1 data 0
       /\ header (fst (GetHeadersAndData headers (len headers))) (str "Path")
          = str "audio"
       /\ header (fst (GetHeadersAndData headers (len headers))) (str "Content-Type")
          = str "audio/mpeg".
Proof.
  intros Hrange. unfold binaryFrame.
  destruct (Z.ltb_spec (len data) 2) as [| H2]; [discriminate |].
  destruct data as [| b0 [| b1 rest]]; try (unfold len in H2; cbn in H2; lia).
  cbn [nth]. set (hl := b0 * 256 + b1).
  assert (Hhl : 0 <= hl).
  { inversion Hrange as [| ? ? Hb0 Hr]; subst. inversion Hr as [| ? ? Hb1 _]; subst.
    subst hl. lia. }
  destruct (Z.ltb_spec (len (b0 :: b1 :: rest)) (hl + 2)) as [| Hlen]; [discriminate |].
  change (slice_from (b0 :: b1 :: rest) 2) with rest.
  assert (Hle : hl <= len rest) by (unfold len in *; cbn [length] in Hlen; lia).
  assert (Hsame : GetHeadersAndData rest hl
                  = (fst (GetHeadersAndData (slice_to rest hl) (len (slice_to rest hl))),
                     slice_from rest hl)).
  { unfold GetHeadersAndData. cbv zeta. cbn [fst].
    destruct (Z.ltb_spec (len rest) hl) as [| _]; [lia |].
    assert (E : len (slice_to rest hl) = hl).
    { unfold slice_to, len in *. rewrite length_firstn. lia. }
    rewrite E. destruct (Z.ltb_spec hl hl) as [| _]; [lia |].
    assert (E2 : slice_to (slice_to rest hl) hl = slice_to rest hl).
    { unfold slice_to. rewrite firstn_firstn, Nat.min_id. reflexivity. }
    rewrite E2. reflexivity. }
  rewrite Hsame.
  set (hs := fst (GetHeadersAndData (slice_to rest hl) (len (slice_to rest hl)))).
  destruct (bytes_eq_dec (header hs (str "Path")) (str "audio")) as [Hp |];
    [| discriminate].
  destruct (bytes_eq_dec (header hs (str "Content-Type")) (str "audio/mpeg"))
    as [Hc |].
  - destruct (Z.eqb_spec (len (slice_from rest hl)) 0) as [| Hbody]; [discriminate |].
    intros H. injection H as <-. cbn [Type_ Data].
    split; [reflexivity |]. split.
    { intros C. rewrite C in Hbody. apply Hbody. reflexivity. }
    exists (slice_to rest hl). repeat split; auto.
    + unfold slice_to, slice_from. rewrite firstn_skipn. reflexivity.
    + unfold slice_to, len in *. rewrite length_firstn. lia.
  - destruct (bytes_eq_dec (header hs (str "Content-Type")) []); [| discriminate].
    destruct (len (slice_from rest hl) =? 0); discriminate.
Qed.

Lemma binaryFrame_payload_witness :
  exists ch,
    binaryFrame
      ([0; 39] ++ str "Content-Type:audio/mpeg" ++ CRLF ++ str "Path:audio" ++ CRLF
       ++ [255; 243; 100])
    = inr (Some ch)
    /\ Type_ ch = str "audio" /\ Data ch <> [].
Proof.
  eexists. split; [vm_compute; reflexivity |].
  match goal with
  | |- Type_ ?c = _ /\ _ =>
      destruct (binaryFrame_payload
                  ([0; 39] ++ str "Content-Type:audio/mpeg" ++ CRLF ++ str "Path:audio"
                   ++ CRLF ++ [255; 243; 100]) c) as (H1 & H2 & _)
  end.
  - vm_compute. repeat constructor; discriminate.
  - vm_compute. reflexivity.
  - split; assumption.
Defined.

(* ------------------------------------------------------------------ *)
(** ** communicate.go: what a caller of Stream receives *)

Lemma binaryFrame_data (data : bytes) (ch : TTSChunk) :
  binaryFrame data = inr (Some ch) -> Type_ ch = str "audio" /\ Data ch <> [].
Proof.
  unfold binaryFrame.
  destruct (len data <? 2); [discriminate |].
  destruct (len data <? _); [discriminate |].
  destruct (GetHeadersAndData _ _) as [headers body].
  destruct (bytes_eq_dec _ _); [| discriminate].
  destruct (bytes_eq_dec _ _).
  - destruct (Z.eqb_spec (len body) 0) as [| Hb]; [discriminate |].
    intros H. injection H as <-. cbn. split; [reflexivity |].
    intros ->. apply Hb. reflexivity.
  - destruct (bytes_eq_dec _ _); [| discriminate].
    destruct (len body =? 0); discriminate.
Qed.

Section StreamFacts.

Variable UnescapeXML : bytes -> bytes.

Lemma isAudio_audio (ch : TTSChunk) : Type_ ch = str "audio" -> isAudio ch = true.
Proof. intros H. unfold isAudio. rewrite H. reflexivity. Qed.

Lemma readLoop_chunks (msgs : list Message) :
  forall (st : CommunicateState) (a : bool),
    Forall wellFormedChunk (snd (fst (readLoop UnescapeXML st a msgs)))
    /\ (snd (readLoop UnescapeXML st a msgs) = None ->
        a = true
        \/ (1 <= length (filter isAudio (snd (fst (readLoop UnescapeXML st a msgs)))))%nat).
Proof.
  induction msgs as [| m rest IH]; intros st a.
  { cbn. split; [constructor | discriminate]. }
  destruct m as [err | nc err | data json | data]; cbn [readLoop].
  - cbn. split; [constructor | discriminate].
  - destruct nc; cbn; (split; [constructor |]); [| discriminate].
    destruct a; [left; reflexivity | discriminate].
  - destruct (textPath data) as [path |]; [| apply IH].
    destruct (bytes_eq_dec path (str "audio.metadata")).
    { destruct (parseMetadata UnescapeXML st json) as [err | parsed] eqn:Hp.
      { cbn. split; [constructor | discriminate]. }
      specialize (IH (setLastDurationOffset st (Offset parsed + Duration parsed)) a).
      destruct (readLoop UnescapeXML _ a rest) as [[st' out] er].
      cbn [send fst snd] in *. destruct IH as [IH1 IH2]. split.
      - constructor; [| exact IH1]. right.
        destruct json as [err | resp]; [discriminate |]. cbn [parseMetadata] in Hp.
        apply parseEntries_boundary in Hp as (meta & more & _ & Hb & ->).
        split; [exact Hb | reflexivity].
      - intros He. destruct (IH2 He) as [Ha | Hc]; [left; exact Ha |].
        right. cbn [filter].
        destruct (isAudio parsed); cbn [length]; lia. }
    destruct (bytes_eq_dec path (str "turn.end")).
    { cbn. split; [constructor |]. destruct a; [left; reflexivity | discriminate]. }
    destruct (bytes_eq_dec path (str "response")); [apply IH |].
    destruct (bytes_eq_dec path (str "turn.start")); [apply IH |].
    cbn. split; [constructor | discriminate].
  - destruct (binaryFrame data) as [err | [ch |]] eqn:Hb.
    + cbn. split; [constructor | discriminate].
    + apply binaryFrame_data in Hb as [Ht Hd].
      specialize (IH st true).
      destruct (readLoop UnescapeXML st true rest) as [[st' out] er].
      cbn [send fst snd] in *. destruct IH as [IH1 _]. split.
      * constructor; [left; split; assumption | exact IH1].
      * intros _. right. cbn [filter]. rewrite (isAudio_audio ch Ht).
        cbn [length]. lia.
    + apply IH.
Qed.

Lemma stream_chunks (st : CommunicateState) (conn : Conn) :
  Forall wellFormedChunk (snd (fst (stream UnescapeXML st conn)))
  /\ (snd (stream UnescapeXML st conn) = None ->
      (1 <= length (filter isAudio (snd (fst (stream UnescapeXML st conn)))))%nat).
Proof.
  destruct conn as [err | err | err | msgs]; cbn [stream];
    try (cbn; split; [constructor | discriminate]).
  destruct (readLoop_chunks msgs st false) as [H1 H2]. split; [exact H1 |].
  intros He. destruct (H2 He) as [C | H]; [discriminate | exact H].
Qed.

Lemma streamTexts_chunks (txts : list bytes) :
  forall (st : CommunicateState) (net : list Conn),
    Forall wellFormedChunk (snd (fst (streamTexts UnescapeXML st txts net)))
    /\ (snd (streamTexts UnescapeXML st txts net) = None ->
        (length txts
         <= length (filter isAudio (snd (fst (streamTexts UnescapeXML st txts net)))))%nat).
Proof.
  induction txts as [| text txts IH]; intros st net.
  { cbn. split; [constructor | intros _; lia]. }
  cbn [streamTexts].
  pose proof (stream_chunks (setPartialText st text) (hd (Connected []) net)) as Hs.
  destruct (stream UnescapeXML (setPartialText st text) (hd (Connected []) net))
    as [[st1 out] e].
  cbn [fst snd] in Hs. destruct Hs as [Hs1 Hs2].
  destruct e as [err |].
  { cbn. split; [exact Hs1 | discriminate]. }
  specialize (IH st1 (tl net)).
  destruct (streamTexts UnescapeXML st1 txts (tl net)) as [[st2 out'] e'].
  cbn [fst snd] in *. destruct IH as [IH1 IH2]. split.
  - apply Forall_app. split; assumption.
  - intros He. rewrite filter_app, length_app.
    specialize (Hs2 eq_refl). specialize (IH2 He). cbn [length]. lia.
Qed.

(** Every chunk a caller of [Stream] receives is audio with data that
    is not empty, or a word or sentence boundary, which carries no
    data.  And [Stream] ends without an error only on a first call and
    when every chunk of the text brought audio: there are at least as
    many audio chunks as chunks of text. *)
Theorem Stream_chunks (c : Communicate) (net : list Conn) :
  Forall wellFormedChunk (snd (fst (Stream UnescapeXML c net)))
  /\ (snd (Stream UnescapeXML c net) = None ->
      StreamWasCalled (state c) = false
      /\ (length (texts c)
          <= length (filter isAudio (snd (fst (Stream UnescapeXML c net)))))%nat).
Proof.
  unfold Stream. destruct (StreamWasCalled (state c)) eqn:Hc.
  { cbn. split; [constructor | discriminate]. }
  pose proof (streamTexts_chunks (texts c) (setStreamWasCalled (state c)) net) as H.
  destruct (streamTexts UnescapeXML (setStreamWasCalled (state c)) (texts c) net)
    as [[st out] e].
  cbn [fst snd] in *. destruct H as [H1 H2]. split; [exact H1 |].
  intros He. split; [reflexivity | exact (H2 He)].
Qed.

End StreamFacts.

(* ------------------------------------------------------------------ *)
(** ** regexp: what a pattern matches *)

Lemma dead_nullable (r : re) : dead r = true -> nullable r = false.
Proof.
  induction r; cbn; intros H; try discriminate; auto.
  - rewrite IHr1 by exact H. reflexivity.
  - apply andb_prop in H as [H1 H2]. rewrite IHr1, IHr2 by assumption. reflexivity.
Qed.

Lemma dead_deriv (c : Z) (r : re) : dead r = true -> dead (deriv c r) = true.
Proof.
  induction r; cbn; intros H; try discriminate; auto.
  - rewrite (dead_nullable r1 H). cbn. auto.
  - apply andb_prop in H as [H1 H2]. rewrite IHr1, IHr2 by assumption. reflexivity.
Qed.

Lemma dead_matchb (s : bytes) : forall r, dead r = true -> matchb r s = false.
Proof.
  induction s as [| c s IH]; intros r H; cbn [matchb].
  - apply dead_nullable. exact H.
  - apply IH. apply dead_deriv. exact H.
Qed.

Lemma matchb_Eps (s : bytes) : matchb Eps s = true <-> s = [].
Proof.
  destruct s as [| c s]; cbn; [tauto |].
  rewrite matchb_Void. split; discriminate.
Qed.

Lemma matchb_Cat_iff (s : bytes) :
  forall r1 r2,
    matchb (Cat r1 r2) s = true <->
    exists s1 s2, s = s1 ++ s2 /\ matchb r1 s1 = true /\ matchb r2 s2 = true.
Proof.
  induction s as [| c s IH]; intros r1 r2.
  - cbn [matchb nullable]. rewrite andb_true_iff. split.
    + intros [H1 H2]. exists [], []. auto.
    + intros (s1 & s2 & Hs & H1 & H2).
      symmetry in Hs. apply app_eq_nil in Hs as [-> ->]. auto.
  - cbn [matchb deriv]. split.
    + intros H. destruct (nullable r1) eqn:Hn.
      * rewrite matchb_Alt in H. apply orb_prop in H as [H | H].
        -- apply IH in H as (s1 & s2 & -> & H1 & H2).
           exists (c :: s1), s2. auto.
        -- exists [], (c :: s). auto.
      * apply IH in H as (s1 & s2 & -> & H1 & H2).
        exists (c :: s1), s2. auto.
    + intros (s1 & s2 & Hs & H1 & H2). destruct s1 as [| c' s1].
      * cbn [app] in Hs. subst s2. cbn [matchb] in H1. rewrite H1.
        rewrite matchb_Alt. cbn [matchb] in H2. rewrite H2. apply orb_true_r.
      * cbn [app] in Hs. injection Hs as <- ->. cbn [matchb] in H1.
        assert (H : matchb (Cat (deriv c r1) r2) (s1 ++ s2) = true).
        { apply IH. exists s1, s2. auto. }
        destruct (nullable r1); [rewrite matchb_Alt, H; reflexivity | exact H].
Qed.

Lemma matchb_Cls_iff (p : Z -> bool) (s : bytes) :
  matchb (Cls p) s = true <-> exists c, s = [c] /\ p c = true.
Proof.
  destruct s as [| c s]; cbn [matchb deriv nullable].
  - split; [discriminate | intros (c & H & _); discriminate].
  - destruct (p c) eqn:Hp.
    + rewrite matchb_Eps. split.
      * intros ->. exists c. auto.
      * intros (c' & H & _). injection H as _ ->. reflexivity.
    + rewrite matchb_Void. split; [discriminate |].
      intros (c' & H & Hc). injection H as -> _. congruence.
Qed.

Lemma matchb_Star_Cls_iff (p : Z -> bool) (s : bytes) :
  matchb (Star (Cls p)) s = true <-> Forall (fun c => p c = true) s.
Proof.
  split; [| apply matchb_Star_Cls].
  induction s as [| c s IH]; [constructor |].
  cbn [matchb deriv]. intros H. apply matchb_Cat_iff in H as (s1 & s2 & -> & H1 & H2).
  destruct (p c) eqn:Hp.
  - apply matchb_Eps in H1. subst s1. constructor; [exact Hp | apply IH; exact H2].
  - rewrite matchb_Void in H1. discriminate.
Qed.

Lemma matchb_plus_iff (p : Z -> bool) (s : bytes) :
  matchb (plus (Cls p)) s = true <-> s <> [] /\ Forall (fun c => p c = true) s.
Proof.
  split; [| intros [H1 H2]; apply matchb_plus; assumption].
  unfold plus. intros H. apply matchb_Cat_iff in H as (s1 & s2 & -> & H1 & H2).
  apply matchb_Cls_iff in H1 as (c & -> & Hc).
  apply matchb_Star_Cls_iff in H2. split; [discriminate |].
  constructor; assumption.
Qed.

Lemma matchb_lit_iff (c : Z) (s : bytes) : matchb (lit c) s = true <-> s = [c].
Proof.
  unfold lit. rewrite matchb_Cls_iff. split.
  - intros (c' & -> & H). apply Z.eqb_eq in H. subst. reflexivity.
  - intros ->. exists c. split; [reflexivity | apply Z.eqb_refl].
Qed.

Lemma matchb_lits_iff (l s : bytes) : matchb (lits l) s = true <-> s = l.
Proof.
  split; [| intros ->; apply matchb_lits].
  revert s. induction l as [| c l IH]; intros s H.
  - apply matchb_Eps. exact H.
  - change (lits (c :: l)) with (Cat (lit c) (lits l)) in H.
    apply matchb_Cat_iff in H as (s1 & s2 & -> & H1 & H2).
    apply matchb_lit_iff in H1. subst s1. cbn [app]. f_equal. apply IH. exact H2.
Qed.

Lemma digit_iff (ds : bytes) :
  Forall (fun c => between 48 57 c = true) ds <-> Forall isDigit ds.
Proof.
  split; intros H; (eapply Forall_impl; [| exact H]); cbn beta; intros c Hc;
    unfold isDigit in *; apply between_iff; exact Hc.
Qed.

Lemma dot_iff (l : bytes) :
  Forall (fun c => negb (c =? NL) = true) l <-> ~ In NL l.
Proof.
  split.
  - intros H Hin. rewrite Forall_forall in H. specialize (H NL Hin).
    rewrite Z.eqb_refl in H. discriminate.
  - apply not_newline.
Qed.

(** [^[+-]\d+unit$], for a pattern [ru] that matches the unit only. *)
Lemma signed_iff (ru : re) (unit s : bytes) :
  (forall x, matchb ru x = true <-> x = unit) ->
  matchb (Cat sign (Cat (plus digit) ru)) s = true <-> signed unit s.
Proof.
  intros Hu. unfold signed. split.
  - intros H. apply matchb_Cat_iff in H as (s1 & s2 & -> & H1 & H2).
    apply matchb_Cat_iff in H2 as (s3 & s4 & -> & H3 & H4).
    apply matchb_Cls_iff in H1 as (sg & -> & Hsg).
    apply matchb_plus_iff in H3 as [Hne Hd]. apply Hu in H4. subst s4.
    exists sg, s3. repeat split; auto.
    + apply orb_prop in Hsg as [E | E]; apply Z.eqb_eq in E; auto.
    + apply digit_iff. exact Hd.
  - intros (sg & ds & -> & Hsg & Hne & Hd).
    apply (matchb_Cat sign _ [sg] (ds ++ unit)).
    + apply matchb_Cls. destruct Hsg as [-> | ->]; reflexivity.
    + apply matchb_Cat; [| apply Hu; reflexivity].
      apply matchb_plus; [exact Hne | apply digit_iff; exact Hd].
Qed.

Lemma fullVoice_iff (v : bytes) :
  matchb voiceFullPattern v = true <-> fullVoice v.
Proof.
  unfold voiceFullPattern, fullVoice. split.
  - intros H. apply matchb_Cat_iff in H as (s0 & s1 & -> & H0 & H1).
    apply matchb_lits_iff in H0. subst s0.
    apply matchb_Cat_iff in H1 as (a & s2 & -> & Ha & H2).
    apply matchb_Cat_iff in H2 as (s3 & s4 & -> & H3 & H4).
    apply matchb_lit_iff in H3. subst s3.
    apply matchb_Cat_iff in H4 as (b & s5 & -> & Hb & H5).
    apply matchb_lit_iff in H5. subst s5.
    apply matchb_plus_iff in Ha as [Ha1 Ha2]. apply matchb_plus_iff in Hb as [Hb1 Hb2].
    exists a, b. repeat split; auto; apply dot_iff; assumption.
  - intros (a & b & -> & Ha & Hb & Hna & Hnb).
    apply matchb_Cat; [apply matchb_lits |].
    apply matchb_Cat; [apply matchb_plus; [exact Ha | apply dot_iff; exact Hna] |].
    apply (matchb_Cat (lit 44) _ [44]); [apply matchb_lit |].
    apply matchb_Cat; [apply matchb_plus; [exact Hb | apply dot_iff; exact Hnb] |].
    apply matchb_lit.
Qed.

(* ------------------------------------------------------------------ *)
(** ** util.go: ValidateTTSConfig *)

Lemma ValidateTTSConfig_checked (tc : TTSConfig) :
  snd (ValidateTTSConfig tc) = checked (fst (ValidateTTSConfig tc)).
Proof.
  unfold ValidateTTSConfig, checked.
  set (tc1 := match FindStringSubmatch (Voice tc) with
              | Some (lang, region, name) => _
              | None => tc
              end).
  destruct (negb (matchb voiceFullPattern (Voice tc1))) eqn:E1;
    [cbn [fst snd]; rewrite E1; reflexivity |].
  destruct (negb (matchb ratePattern (Rate tc1))) eqn:E2;
    [cbn [fst snd]; rewrite E1, E2; reflexivity |].
  destruct (negb (matchb volumePattern (Volume tc1))) eqn:E3;
    [cbn [fst snd]; rewrite E1, E2, E3; reflexivity |].
  destruct (negb (matchb pitchPattern (Pitch tc1))) eqn:E4;
    cbn [fst snd]; rewrite E1, E2, E3, E4; reflexivity.
Qed.

Lemma ValidateTTSConfig_unmatched (tc : TTSConfig) :
  FindStringSubmatch (Voice tc) = None -> fst (ValidateTTSConfig tc) = tc.
Proof.
  intros H. unfold ValidateTTSConfig. rewrite H.
  destruct (negb (matchb voiceFullPattern (Voice tc))); [reflexivity |].
  destruct (negb (matchb ratePattern (Rate tc))); [reflexivity |].
  destruct (negb (matchb volumePattern (Volume tc))); [reflexivity |].
  destruct (negb (matchb pitchPattern (Pitch tc))); reflexivity.
Qed.

Lemma voicePrefix_unmatched (x : bytes) :
  FindStringSubmatch (voicePrefix ++ x) = None.
Proof.
  unfold FindStringSubmatch.
  replace (matchb voicePattern (voicePrefix ++ x)) with false; [reflexivity |].
  symmetry. change (voicePrefix ++ x) with (77 :: (skipn 1 voicePrefix ++ x)).
  cbn [matchb]. apply dead_matchb. vm_compute. reflexivity.
Qed.

(** The fields [ValidateTTSConfig] leaves alone, and the voice it
    leaves: the one it was given or one in the long form. *)
Lemma ValidateTTSConfig_fields (tc : TTSConfig) :
  Rate (fst (ValidateTTSConfig tc)) = Rate tc
  /\ Volume (fst (ValidateTTSConfig tc)) = Volume tc
  /\ Pitch (fst (ValidateTTSConfig tc)) = Pitch tc
  /\ Boundary (fst (ValidateTTSConfig tc)) = Boundary tc
  /\ FindStringSubmatch (Voice (fst (ValidateTTSConfig tc))) = None.
Proof.
  destruct (FindStringSubmatch (Voice tc)) as [[[lang region] name] |] eqn:Hf.
  2:{ rewrite (ValidateTTSConfig_unmatched tc Hf). auto. }
  assert (H : exists x, fst (ValidateTTSConfig tc) = setVoice tc (voicePrefix ++ x)).
  { unfold ValidateTTSConfig. rewrite Hf.
    destruct (negb (Index name DASH =? -1));
      eexists;
      (destruct (negb (matchb voiceFullPattern _)); [reflexivity |]);
      (destruct (negb (matchb ratePattern _)); [reflexivity |]);
      (destruct (negb (matchb volumePattern _)); [reflexivity |]);
      (destruct (negb (matchb pitchPattern _)); reflexivity). }
  destruct H as [x ->]. cbn [setVoice Rate Volume Pitch Boundary Voice].
  repeat split. apply voicePrefix_unmatched.
Qed.

(** Validating twice is validating once: the configuration
    [ValidateTTSConfig] leaves is not rewritten again, and it gets the
    same verdict. *)
Theorem ValidateTTSConfig_idempotent (tc : TTSConfig) :
  ValidateTTSConfig (fst (ValidateTTSConfig tc)) = ValidateTTSConfig tc.
Proof.
  destruct (ValidateTTSConfig_fields tc) as (_ & _ & _ & _ & Hf).
  pose proof (ValidateTTSConfig_unmatched _ Hf) as H1.
  pose proof (ValidateTTSConfig_checked (fst (ValidateTTSConfig tc))) as H2.
  rewrite H1 in H2. rewrite <- ValidateTTSConfig_checked in H2.
  destruct (ValidateTTSConfig (fst (ValidateTTSConfig tc))) as [tc2 e2].
  destruct (ValidateTTSConfig tc) as [tc1 e1]. cbn [fst snd] in *.
  congruence.
Qed.

(** What [ValidateTTSConfig] accepts, and the error for what it does
    not: the voice, after its rewriting, must be in the long form; the
    rate and the volume a sign, digits and a percent sign; the pitch a
    sign, digits and Hz.  The first of the four that fails, in this
    order, names the error. *)
Theorem ValidateTTSConfig_verdict (tc : TTSConfig) :
  (snd (ValidateTTSConfig tc) = None <->
   fullVoice (Voice (fst (ValidateTTSConfig tc))) /\ percent (Rate tc)
   /\ percent (Volume tc) /\ hertz (Pitch tc))
  /\ (snd (ValidateTTSConfig tc) = Some ErrInvalidVoice <->
      ~ fullVoice (Voice (fst (ValidateTTSConfig tc))))
  /\ (snd (ValidateTTSConfig tc) = Some ErrInvalidRate <->
      fullVoice (Voice (fst (ValidateTTSConfig tc))) /\ ~ percent (Rate tc))
  /\ (snd (ValidateTTSConfig tc) = Some ErrInvalidVolume <->
      fullVoice (Voice (fst (ValidateTTSConfig tc))) /\ percent (Rate tc)
      /\ ~ percent (Volume tc))
  /\ (snd (ValidateTTSConfig tc) = Some ErrInvalidPitch <->
      fullVoice (Voice (fst (ValidateTTSConfig tc))) /\ percent (Rate tc)
      /\ percent (Volume tc) /\ ~ hertz (Pitch tc)).
Proof.
  rewrite ValidateTTSConfig_checked.
  destruct (ValidateTTSConfig_fields tc) as (Hr & Hv & Hp & _ & _).
  unfold checked. rewrite Hr, Hv, Hp.
  pose proof (fullVoice_iff (Voice (fst (ValidateTTSConfig tc)))) as Fv.
  pose proof (signed_iff (lit 37) (str "%") (Rate tc) (matchb_lit_iff 37)) as Fr.
  pose proof (signed_iff (lit 37) (str "%") (Volume tc) (matchb_lit_iff 37)) as Fo.
  pose proof (signed_iff (lits (str "Hz")) (str "Hz") (Pitch tc)
                (matchb_lits_iff (str "Hz"))) as Fp.
  change (Cat sign (Cat (plus digit) (lit 37))) with ratePattern in Fr.
  change (Cat sign (Cat (plus digit) (lit 37))) with volumePattern in Fo.
  change (Cat sign (Cat (plus digit) (lits (str "Hz")))) with pitchPattern in Fp.
  unfold percent, hertz.
  destruct (matchb voiceFullPattern _); destruct (matchb ratePattern _);
    destruct (matchb volumePattern _); destruct (matchb pitchPattern _);
    cbn [negb]; repeat split;
    try discriminate; try tauto;
    try (intros; intuition discriminate);
    try (intros; intuition congruence).
Qed.

(* ------------------------------------------------------------------ *)
(** ** srt.go: timestamps *)

Lemma itoa_pad_2 (n : Z) : 0 <= n < 100 -> itoa_pad 2 n = digits2 n.
Proof.
  intros Hn.
  assert (H : forallb (fun k => if bytes_eq_dec (itoa_pad 2 (Z.of_nat k))
                                     (digits2 (Z.of_nat k)) then true else false)
                (seq 0 100) = true) by (vm_compute; reflexivity).
  rewrite forallb_forall in H. specialize (H (Z.to_nat n)).
  rewrite Z2Nat.id in H by lia.
  destruct (bytes_eq_dec (itoa_pad 2 n) (digits2 n)) as [E | _]; [exact E |].
  assert (C : false = true) by (apply H; apply in_seq; lia). discriminate C.
Qed.

Lemma itoa_pad_3 (n : Z) : 0 <= n < 1000 -> itoa_pad 3 n = digits3 n.
Proof.
  intros Hn.
  assert (H : forallb (fun k => if bytes_eq_dec (itoa_pad 3 (Z.of_nat k))
                                     (digits3 (Z.of_nat k)) then true else false)
                (seq 0 1000) = true) by (vm_compute; reflexivity).
  rewrite forallb_forall in H. specialize (H (Z.to_nat n)).
  rewrite Z2Nat.id in H by lia.
  destruct (bytes_eq_dec (itoa_pad 3 n) (digits3 n)) as [E | _]; [exact E |].
  assert (C : false = true) by (apply H; apply in_seq; lia). discriminate C.
Qed.

(** For a time from zero to under a hundred hours the timestamp is
    twelve characters, HH:MM:SS,mmm: the hours, the minutes and the
    seconds in two digits and the milliseconds in three, the time being
    cut to whole milliseconds. *)
Theorem timeDurationToSRTTimestamp_fields (d : Z) :
  0 <= d < 360000 * 1000000000 ->
  timeDurationToSRTTimestamp d
  = digits2 (d / 3600000000000) ++ str ":"
    ++ digits2 ((d / 60000000000) mod 60) ++ str ":"
    ++ digits2 ((d / 1000000000) mod 60) ++ str ","
    ++ digits3 ((d / 1000000) mod 1000)
  /\ length (timeDurationToSRTTimestamp d) = 12%nat.
Proof.
  intros Hd. unfold timeDurationToSRTTimestamp.
  rewrite (Z.quot_div_nonneg d 1000000000) by lia.
  rewrite (Z.quot_div_nonneg d 1000000) by lia.
  assert (Hs : 0 <= d / 1000000000 < 360000)
    by (split; [apply Z.div_pos; lia | apply Z.div_lt_upper_bound; lia]).
  rewrite (Z.quot_div_nonneg (d / 1000000000) 3600) by lia.
  rewrite (Z.rem_mod_nonneg (d / 1000000000) 3600) by lia.
  rewrite (Z.rem_mod_nonneg (d / 1000000000) 60) by lia.
  rewrite (Z.quot_div_nonneg ((d / 1000000000) mod 3600) 60)
    by (try apply Z.mod_pos_bound; lia).
  rewrite (Z.rem_mod_nonneg (d / 1000000) 1000)
    by (try apply Z.div_pos; lia).
  assert (Hh : d / 1000000000 / 3600 = d / 3600000000000)
    by (rewrite Z.div_div by lia; reflexivity).
  assert (Hm : (d / 1000000000) mod 3600 / 60 = (d / 60000000000) mod 60).
  { replace 60000000000 with (1000000000 * 60) by reflexivity.
    rewrite <- Z.div_div by lia.
    Z.div_mod_to_equations. lia. }
  rewrite Hh, Hm.
  rewrite (itoa_pad_2 (d / 3600000000000))
    by (split; [apply Z.div_pos; lia | apply Z.div_lt_upper_bound; lia]).
  rewrite (itoa_pad_2 ((d / 60000000000) mod 60))
    by (pose proof (Z.mod_pos_bound (d / 60000000000) 60); lia).
  rewrite (itoa_pad_2 ((d / 1000000000) mod 60))
    by (pose proof (Z.mod_pos_bound (d / 1000000000) 60); lia).
  rewrite (itoa_pad_3 ((d / 1000000) mod 1000))
    by (pose proof (Z.mod_pos_bound (d / 1000000) 1000); lia).
  split; reflexivity.
Qed.

Lemma timeDurationToSRTTimestamp_fields_witness :
  timeDurationToSRTTimestamp 3723004999999
  = digits2 (3723004999999 / 3600000000000) ++ str ":"
    ++ digits2 ((3723004999999 / 60000000000) mod 60) ++ str ":"
    ++ digits2 ((3723004999999 / 1000000000) mod 60) ++ str ","
    ++ digits3 ((3723004999999 / 1000000) mod 1000)
  /\ length (timeDurationToSRTTimestamp 3723004999999) = 12%nat.
Proof.
  apply (timeDurationToSRTTimestamp_fields 3723004999999). lia.
Defined.

(* ------------------------------------------------------------------ *)
(** ** srt.go: sorting and numbering *)

Lemma less_iff (a b : Subtitle) :
  less a b = true <->
  Start a < Start b
  \/ (Start a = Start b
      /\ (End_ a < End_ b \/ (End_ a = End_ b /\ Index_ a < Index_ b))).
Proof.
  unfold less.
  destruct (Z.eqb_spec (Start a) (Start b)); cbn [negb].
  - destruct (Z.eqb_spec (End_ a) (End_ b)); cbn [negb]; rewrite Z.ltb_lt; lia.
  - rewrite Z.ltb_lt. lia.
Qed.

Lemma less_false_iff (a b : Subtitle) :
  less b a = false <->
  Start a < Start b
  \/ (Start a = Start b
      /\ (End_ a < End_ b \/ (End_ a = End_ b /\ Index_ a <= Index_ b))).
Proof.
  rewrite <- not_true_iff_false, less_iff. lia.
Qed.

Lemma insertCue_perm (x : Subtitle) (l : list Subtitle) :
  Permutation (insertCue x l) (x :: l).
Proof.
  induction l as [| y l IH]; cbn [insertCue]; [reflexivity |].
  destruct (less y x); [| reflexivity].
  rewrite IH. apply perm_swap.
Qed.

Lemma sortCues_perm (l : list Subtitle) : Permutation (sortCues l) l.
Proof.
  induction l as [| x l IH]; cbn [sortCues]; [reflexivity |].
  rewrite insertCue_perm. constructor. exact IH.
Qed.

Lemma insertCue_sorted (x : Subtitle) (l : list Subtitle) :
  StronglySorted (fun a b => less b a = false) l ->
  StronglySorted (fun a b => less b a = false) (insertCue x l).
Proof.
  induction 1 as [| y l Hl IH Hy]; cbn [insertCue].
  - repeat constructor.
  - destruct (less y x) eqn:E.
    + constructor; [exact IH |].
      apply (Permutation_Forall (symmetry (insertCue_perm x l))).
      constructor; [| exact Hy].
      apply less_false_iff. apply less_iff in E. lia.
    + constructor; [constructor; assumption |].
      constructor; [exact E |].
      eapply Forall_impl; [| exact Hy]. cbn beta. intros z Hz.
      apply less_false_iff. apply less_false_iff in E, Hz. lia.
Qed.

Lemma sortCues_sorted (l : list Subtitle) :
  StronglySorted (fun a b => less b a = false) (sortCues l).
Proof.
  induction l as [| x l IH]; cbn [sortCues]; [constructor |].
  apply insertCue_sorted. exact IH.
Qed.

(** What the loop keeps of a property of the times and the text. *)
Lemma reindexLoop_Forall (P : Z * Z * bytes -> Prop) (l : list Subtitle) :
  forall (skip : bool) (idx skipped : Z),
    Forall (fun c => P (shown c)) l ->
    Forall (fun c => P (shown c)) (reindexLoop l skip idx skipped).
Proof.
  induction l as [| sub rest IH]; intros skip idx skipped H; [constructor |].
  inversion H as [| ? ? Hsub Hrest]; subst. cbn [reindexLoop].
  destruct (skip && shouldSkip sub); [apply IH; exact Hrest |].
  constructor; [exact Hsub | apply IH; exact Hrest].
Qed.

Lemma reindexLoop_sorted (l : list Subtitle) :
  forall (skip : bool) (idx skipped : Z),
    StronglySorted byTime l ->
    StronglySorted byTime (reindexLoop l skip idx skipped).
Proof.
  induction l as [| sub rest IH]; intros skip idx skipped H; [constructor |].
  inversion H as [| ? ? Hrest Hsub]; subst. cbn [reindexLoop].
  destruct (skip && shouldSkip sub); [apply IH; exact Hrest |].
  constructor; [apply IH; exact Hrest |].
  apply (reindexLoop_Forall
           (fun s => Start sub < fst (fst s)
                     \/ (Start sub = fst (fst s) /\ End_ sub <= snd (fst s)))).
  exact Hsub.
Qed.

Lemma reindexLoop_shown (l : list Subtitle) :
  forall (skip : bool) (idx skipped : Z),
    map shown (reindexLoop l skip idx skipped)
    = map shown (filter (fun c => negb (skip && shouldSkip c)) l).
Proof.
  induction l as [| sub rest IH]; intros skip idx skipped; [reflexivity |].
  cbn [reindexLoop filter]. destruct (skip && shouldSkip sub); cbn [negb map].
  - apply IH.
  - f_equal. apply IH.
Qed.

Lemma reindexLoop_kept (l : list Subtitle) :
  forall (idx skipped : Z),
    Forall (fun c => shouldSkip c = false) (reindexLoop l true idx skipped).
Proof.
  induction l as [| sub rest IH]; intros idx skipped; [constructor |].
  cbn [reindexLoop andb]. destruct (shouldSkip sub) eqn:E; [apply IH |].
  constructor; [exact E | apply IH].
Qed.

Lemma Permutation_filter (A : Type) (f : A -> bool) (l l' : list A) :
  Permutation l l' -> Permutation (filter f l) (filter f l').
Proof.
  induction 1 as [| x l l' _ IH | x y l | l l' l'' _ IH1 _ IH2]; cbn [filter].
  - constructor.
  - destruct (f x); [constructor |]; exact IH.
  - destruct (f x); destruct (f y); try reflexivity. apply perm_swap.
  - etransitivity; eassumption.
Qed.

Lemma byTime_sorted (l : list Subtitle) :
  StronglySorted (fun a b => less b a = false) l -> StronglySorted byTime l.
Proof.
  induction 1 as [| x l Hl IH Hx]; [constructor |].
  constructor; [exact IH |].
  eapply Forall_impl; [| exact Hx]. cbn beta. intros z Hz.
  apply less_false_iff in Hz. unfold byTime. lia.
Qed.

(** With skipping on, [sortAndReindex] returns cues that all pass its
    three tests, in the order of their times (start, then end), and
    they show what the cues of the input that pass the tests show:
    the same times and texts, each as often. *)
Theorem sortAndReindex_survivors (subtitles : list Subtitle) (startIndex : Z) :
  Forall (fun c => shouldSkip c = false) (sortAndReindex subtitles startIndex true)
  /\ StronglySorted byTime (sortAndReindex subtitles startIndex true)
  /\ Permutation (map shown (sortAndReindex subtitles startIndex true))
       (map shown (filter (fun c => negb (shouldSkip c)) subtitles)).
Proof.
  unfold sortAndReindex. split; [apply reindexLoop_kept |]. split.
  - apply reindexLoop_sorted, byTime_sorted, sortCues_sorted.
  - rewrite reindexLoop_shown. cbn [andb].
    apply Permutation_map, Permutation_filter, sortCues_perm.
Qed.

Lemma reindexLoop_all (l : list Subtitle) :
  forall (skip : bool) (idx : Z),
    Forall (fun c => skip && shouldSkip c = false) l ->
    map Index_ (reindexLoop l skip idx 0)
    = map (fun i => idx + Z.of_nat i) (seq 0 (length l)).
Proof.
  induction l as [| sub rest IH]; intros skip idx H; [reflexivity |].
  inversion H as [| ? ? Hsub Hrest]; subst.
  cbn [reindexLoop length seq map]. rewrite Hsub. cbn [map Index_].
  apply f_equal2; [cbn [Z.of_nat]; lia |]. rewrite (IH skip (idx + 1) Hrest).
  rewrite <- seq_shift, map_map. apply map_ext. intros i. lia.
Qed.

(** When no cue is skipped (skipping is off, or every cue passes the
    three tests) the cues come out numbered [startIndex],
    [startIndex + 1], and so on, one number for each cue of the input. *)
Theorem sortAndReindex_consecutive (subtitles : list Subtitle) (startIndex : Z)
  (skip : bool) :
  (skip = true -> Forall (fun c => shouldSkip c = false) subtitles) ->
  map Index_ (sortAndReindex subtitles startIndex skip)
  = map (fun i => startIndex + Z.of_nat i) (seq 0 (length subtitles)).
Proof.
  intros H. unfold sortAndReindex.
  rewrite <- (Permutation_length (sortCues_perm subtitles)).
  apply reindexLoop_all. destruct skip; cbn [andb]; [| apply Forall_forall; auto].
  apply (Permutation_Forall (symmetry (sortCues_perm subtitles))).
  apply H. reflexivity.
Qed.

Lemma sortAndReindex_consecutive_witness :
  map Index_
    (sortAndReindex
       [cue 7 2000000000 2500000000 (str "two"); cue 9 0 1000000000 (str "one")] 1 true)
  = [1; 2].
Proof.
  apply (sortAndReindex_consecutive
           [cue 7 2000000000 2500000000 (str "two"); cue 9 0 1000000000 (str "one")]
           1 true).
  intros _. repeat constructor.
Defined.

(** Cues that differ in [sortKey] have one sorted order. *)
Lemma sorted_unique (l1 : list Subtitle) :
  forall l2 : list Subtitle,
    Permutation l1 l2 ->
    NoDup (map sortKey l1) ->
    StronglySorted (fun a b => less b a = false) l1 ->
    StronglySorted (fun a b => less b a = false) l2 ->
    l1 = l2.
Proof.
  induction l1 as [| a l1 IH]; intros l2 Hp Hnd H1 H2.
  { apply Permutation_nil in Hp. subst. reflexivity. }
  destruct l2 as [| b l2].
  { symmetry in Hp. apply Permutation_nil in Hp. discriminate. }
  inversion H1 as [| ? ? H1' Ha]; inversion H2 as [| ? ? H2' Hb]; subst.
  cbn [map] in Hnd. inversion Hnd as [| ? ? Hnotin Hnd']; subst.
  assert (E : a = b).
  { assert (Hin_a : In a (b :: l2))
      by (eapply Permutation_in; [exact Hp | left; reflexivity]).
    assert (Hin_b : In b (a :: l1))
      by (eapply Permutation_in; [symmetry; exact Hp | left; reflexivity]).
    destruct Hin_a as [E | Hin_a]; [symmetry; exact E |].
    destruct Hin_b as [E | Hin_b]; [exact E |].
    exfalso. apply Hnotin.
    rewrite Forall_forall in Ha, Hb.
    specialize (Ha b Hin_b). specialize (Hb a Hin_a).
    replace (sortKey a) with (sortKey b); [apply in_map; exact Hin_b |].
    apply less_false_iff in Ha, Hb. unfold sortKey. f_equal; [f_equal |]; lia. }
  subst b. f_equal. apply IH; auto.
  eapply Permutation_cons_inv. exact Hp.
Qed.

(** Reindexing as the code does it, in whatever order [sort.Slice]
    leaves the cues that tie: for every sorted order of the cues, a cue
    that is not skipped keeps its start, end and content, and its
    number is [startIndex] plus the number of survivors before it less
    the number of skipped cues before it.  When no two cues agree in
    start, end and index, what [sortAndReindex] returns is the outcome
    of the loop on this one order. *)
Theorem sortAndReindex_index (subtitles sorted pre rest : list Subtitle)
  (sub : Subtitle) (startIndex : Z) :
  Permutation sorted subtitles ->
  StronglySorted (fun a b => less b a = false) sorted ->
  sorted = pre ++ sub :: rest ->
  shouldSkip sub = false ->
  nth_error (reindexLoop sorted true startIndex 0)
    (length (filter (fun c => negb (shouldSkip c)) pre))
  = Some {| Index_ := startIndex
                      + Z.of_nat (length (filter (fun c => negb (shouldSkip c)) pre))
                      - Z.of_nat (length (filter shouldSkip pre));
            Start := Start sub; End_ := End_ sub; Content := Content sub |}
  /\ (NoDup (map sortKey subtitles) ->
      sortAndReindex subtitles startIndex true = reindexLoop sorted true startIndex 0).
Proof.
  intros Hp Hs Hsplit Hsub. split.
  - rewrite Hsplit, reindexLoop_index by exact Hsub. do 2 f_equal; lia.
  - intros Hnd. unfold sortAndReindex. f_equal.
    apply sorted_unique.
    + rewrite sortCues_perm. symmetry. exact Hp.
    + apply (Permutation_NoDup (l := map sortKey subtitles)); [| exact Hnd].
      apply Permutation_map. symmetry. apply sortCues_perm.
    + apply sortCues_sorted.
    + exact Hs.
Qed.

Lemma sortAndReindex_index_witness :
  nth_error
    (sortAndReindex
       [cue 2 1000000000 1500000000 (str "hi"); cue 1 0 0 (str "a")] 1 true)
    0
  = Some (cue 0 1000000000 1500000000 (str "hi")).
Proof.
  destruct (sortAndReindex_index
              [cue 2 1000000000 1500000000 (str "hi"); cue 1 0 0 (str "a")]
              [cue 1 0 0 (str "a"); cue 2 1000000000 1500000000 (str "hi")]
              [cue 1 0 0 (str "a")] []
              (cue 2 1000000000 1500000000 (str "hi")) 1) as [Hi Hs].
  - apply perm_swap.
  - repeat constructor.
  - reflexivity.
  - vm_compute. reflexivity.
  - rewrite Hs; [exact Hi |].
    vm_compute. constructor; [| constructor; [| constructor]]; cbn; intuition discriminate.
Defined.

(* ------------------------------------------------------------------ *)
(** ** submaker.go: a sequence of messages *)

Lemma isBoundaryType_nil : isBoundaryType [] = false.
Proof. reflexivity. Qed.

Lemma Feed_taken (sm : SubMaker) (msg : TTSChunk) :
  isBoundaryType (Type_ msg) = true ->
  CueType sm = [] \/ CueType sm = Type_ msg ->
  Feed sm msg
  = ({| Cues := Cues sm ++ [cueAt (length (Cues sm)) msg]; CueType := Type_ msg |},
     None).
Proof.
  intros Hb Hk. unfold Feed. rewrite Hb. cbn [negb].
  destruct (bytes_eq_dec (CueType sm) []) as [E | E]; [reflexivity |].
  destruct Hk as [Hk | Hk]; [contradiction |].
  destruct (bytes_eq_dec (CueType sm) (Type_ msg)) as [_ | C]; [| contradiction].
  rewrite Hk. reflexivity.
Qed.

Lemma Feed_refused (sm : SubMaker) (msg : TTSChunk) :
  isBoundaryType (Type_ msg) = false
  \/ (CueType sm <> [] /\ CueType sm <> Type_ msg) ->
  fst (Feed sm msg) = sm.
Proof.
  intros H. unfold Feed.
  destruct (isBoundaryType (Type_ msg)); cbn [negb]; [| reflexivity].
  destruct H as [H | [H1 H2]]; [discriminate |].
  destruct (bytes_eq_dec (CueType sm) []); [contradiction |].
  destruct (bytes_eq_dec (CueType sm) (Type_ msg)); [contradiction | reflexivity].
Qed.

Lemma ofKind_iff (kind : bytes) (msg : TTSChunk) :
  ofKind kind msg = true <-> isBoundaryType (Type_ msg) = true /\ Type_ msg = kind.
Proof.
  unfold ofKind. rewrite andb_true_iff.
  destruct (bytes_eq_dec (Type_ msg) kind); intuition discriminate.
Qed.

(** An assembler that is fixed to a kind takes the messages of this
    kind and no other. *)
Lemma feedAll_fixed (msgs : list TTSChunk) :
  forall (sm : SubMaker),
    isBoundaryType (CueType sm) = true ->
    feedAll sm msgs
    = {| Cues := Cues sm
                 ++ numberedFrom (length (Cues sm)) (filter (ofKind (CueType sm)) msgs);
         CueType := CueType sm |}.
Proof.
  induction msgs as [| msg rest IH]; intros sm Hk.
  { cbn. rewrite app_nil_r. destruct sm; reflexivity. }
  assert (Hne : CueType sm <> []).
  { intros C. rewrite C in Hk. discriminate. }
  unfold feedAll in *. cbn [fold_left filter].
  destruct (ofKind (CueType sm) msg) eqn:E.
  - apply ofKind_iff in E as [Hb Ht].
    rewrite (Feed_taken sm msg Hb (or_intror (eq_sym Ht))). cbn [fst].
    rewrite IH by (cbn [CueType]; exact Hb).
    cbn [Cues CueType numberedFrom]. rewrite length_app, Ht, <- app_assoc.
    cbn [length app]. rewrite Nat.add_1_r. reflexivity.
  - rewrite Feed_refused; [apply IH; exact Hk |].
    destruct (isBoundaryType (Type_ msg)) eqn:Hb; [right | left; reflexivity].
    split; [exact Hne |]. intros C.
    assert (ofKind (CueType sm) msg = true) by (apply ofKind_iff; auto).
    congruence.
Qed.

Lemma feedAll_empty (msgs : list TTSChunk) :
  feedAll NewSubMaker msgs
  = {| Cues := numberedFrom 0 (filter (ofKind (firstKind msgs)) msgs);
       CueType := firstKind msgs |}.
Proof.
  induction msgs as [| msg rest IH]; [reflexivity |].
  unfold feedAll, firstKind in *. cbn [fold_left find filter].
  destruct (isBoundaryType (Type_ msg)) eqn:Hb.
  - rewrite (Feed_taken NewSubMaker msg Hb (or_introl eq_refl)). cbn [fst].
    change (fold_left (fun sm m => fst (Feed sm m)) rest ?s) with (feedAll s rest).
    rewrite feedAll_fixed by (cbn [CueType]; exact Hb).
    cbn [Cues CueType NewSubMaker length app].
    replace (ofKind (Type_ msg) msg) with true
      by (symmetry; apply ofKind_iff; auto).
    reflexivity.
  - rewrite Feed_refused by (left; exact Hb). rewrite IH.
    replace (ofKind _ msg) with false; [reflexivity |].
    symmetry. unfold ofKind. rewrite Hb. reflexivity.
Qed.

Lemma numberedFrom_Index (l : list TTSChunk) :
  forall i : nat,
    map Index_ (numberedFrom i l)
    = map (fun j => Z.of_nat j + 1) (seq i (length l)).
Proof.
  induction l as [| m l IH]; intros i; [reflexivity |].
  cbn [numberedFrom map length seq cueAt Index_]. f_equal. apply IH.
Qed.

Lemma numberedFrom_Content (l : list TTSChunk) :
  forall i : nat, map Content (numberedFrom i l) = map Text l.
Proof.
  induction l as [| m l IH]; intros i; [reflexivity |].
  cbn [numberedFrom map cueAt Content]. f_equal. apply IH.
Qed.

(** Fed one message after the other, an error of [Feed] being passed
    over, a new assembler is fixed to the kind of the first boundary
    among the messages and holds one cue for each message of this kind,
    in the order they came, numbered 1, 2, 3 and so on and with the
    text of the message; a message of another kind, boundary or not,
    leaves no trace.  For tick counts of up to 2^53 in size the cues
    are those of [numberedFrom], times included. *)
Theorem Feed_sequence (msgs : list TTSChunk) :
  CueType (feedAll NewSubMaker msgs) = firstKind msgs
  /\ map Index_ (Cues (feedAll NewSubMaker msgs))
     = map (fun i => Z.of_nat i + 1)
         (seq 0 (length (filter (ofKind (firstKind msgs)) msgs)))
  /\ map Content (Cues (feedAll NewSubMaker msgs))
     = map Text (filter (ofKind (firstKind msgs)) msgs)
  /\ (Forall exactTimes (filter (ofKind (firstKind msgs)) msgs) ->
      Cues (feedAll NewSubMaker msgs)
      = numberedFrom 0 (filter (ofKind (firstKind msgs)) msgs)).
Proof.
  rewrite feedAll_empty. cbn [Cues CueType].
  split; [reflexivity |]. split; [apply numberedFrom_Index |].
  split; [apply numberedFrom_Content | reflexivity].
Qed.

Lemma Feed_sequence_witness :
  Cues (feedAll NewSubMaker
          [boundary WordBoundary 1000000 4000000 (str "Hello");
           boundary SentenceBoundary 1000000 9000000 (str "Hello world");
           boundary WordBoundary 6000000 5000000 (str "world")])
  = [cue 1 100000000 500000000 (str "Hello");
     cue 2 600000000 1100000000 (str "world")].
Proof.
  rewrite (proj2 (proj2 (proj2 (Feed_sequence
             [boundary WordBoundary 1000000 4000000 (str "Hello");
              boundary SentenceBoundary 1000000 9000000 (str "Hello world");
              boundary WordBoundary 6000000 5000000 (str "world")])))).
  - vm_compute. reflexivity.
  - apply Forall_forall. intros msg Hin. vm_compute in Hin.
    destruct Hin as [<- | [<- | []]]; unfold exactTimes, exactTicks; cbn; lia.
Defined.

(* ------------------------------------------------------------------ *)
(** ** submaker.go and srt.go: from the messages to the SRT text *)

Lemma sortCues_id (l : list Subtitle) :
  StronglySorted (fun a b => less b a = false) l -> sortCues l = l.
Proof.
  induction 1 as [| x l Hl IH Hx]; [reflexivity |].
  cbn [sortCues]. rewrite IH. destruct l as [| y l']; [reflexivity |].
  cbn [insertCue]. inversion Hx as [| ? ? Hy _]; subst. rewrite Hy. reflexivity.
Qed.

Lemma numberedFrom_indexes (msgs : list TTSChunk) :
  forall i, Forall (fun c => Z.of_nat i < Index_ c) (numberedFrom i msgs).
Proof.
  induction msgs as [| m rest IH]; intros i; [constructor |].
  cbn [numberedFrom]. constructor; [cbn; lia |].
  eapply Forall_impl; [| apply (IH (S i))]. cbn beta. intros c Hc. lia.
Qed.

Lemma numberedFrom_sorted (msgs : list TTSChunk) :
  forall i,
    StronglySorted byTime (numberedFrom i msgs) ->
    StronglySorted (fun a b => less b a = false) (numberedFrom i msgs).
Proof.
  induction msgs as [| m rest IH]; intros i H; [constructor |].
  cbn [numberedFrom] in *. inversion H as [| ? ? Hrest Hm]; subst.
  constructor; [apply IH; exact Hrest |].
  pose proof (numberedFrom_indexes rest (S i)) as Hi.
  rewrite Forall_forall in *. intros c Hc.
  specialize (Hm c Hc). specialize (Hi c Hc).
  apply less_false_iff. unfold byTime in Hm. cbn [Index_ cueAt] in *. lia.
Qed.

Lemma reindexLoop_numbered (msgs : list TTSChunk) :
  forall i,
    Forall (fun c => shouldSkip c = false) (numberedFrom i msgs) ->
    reindexLoop (numberedFrom i msgs) true (Z.of_nat i + 1) 0 = numberedFrom i msgs.
Proof.
  induction msgs as [| m rest IH]; intros i H; [reflexivity |].
  cbn [numberedFrom] in *. inversion H as [| ? ? Hm Hrest]; subst.
  cbn [reindexLoop andb]. rewrite Hm. f_equal.
  - unfold cueAt. cbn [Start End_ Content]. f_equal. lia.
  - replace (Z.of_nat i + 1 + 1) with (Z.of_nat (S i) + 1) by lia.
    apply IH. exact Hrest.
Qed.

(** From the messages to the SRT text: boundaries of one kind that end
    before a hundred hours, whose cues pass the three tests of
    [sortAndReindex] and come in the order of their times, give,
    through [Feed] and [GetSRT], one block for each message, in the
    order the messages came and numbered from 1. *)
Theorem GetSRT_numbered (kind : bytes) (msgs : list TTSChunk) :
  Forall (fun msg => ofKind kind msg = true) msgs ->
  Forall underHundredHours msgs ->
  Forall (fun c => shouldSkip c = false) (numberedFrom 0 msgs) ->
  StronglySorted byTime (numberedFrom 0 msgs) ->
  GetSRT (feedAll NewSubMaker msgs)
  = flat_map (fun c => ToSRT c []) (numberedFrom 0 msgs).
Proof.
  intros Hk _ Hkeep Hsorted. rewrite feedAll_empty.
  assert (Hf : filter (ofKind (firstKind msgs)) msgs = msgs).
  { destruct msgs as [| m rest]; [reflexivity |].
    assert (Hfk : firstKind (m :: rest) = kind).
    { inversion Hk as [| ? ? Hm _]; subst. apply ofKind_iff in Hm as [Hb Ht].
      unfold firstKind. cbn [find]. rewrite Hb. exact Ht. }
    rewrite Hfk. clear Hfk Hkeep Hsorted.
    induction Hk as [| x l Hx _ IH]; [reflexivity |].
    cbn [filter]. rewrite Hx, IH. reflexivity. }
  rewrite Hf. unfold GetSRT, ComposeSRT, sortAndReindex. cbn [Cues].
  rewrite (sortCues_id _ (numberedFrom_sorted msgs 0 Hsorted)).
  pose proof (reindexLoop_numbered msgs 0 Hkeep) as Hr.
  change (Z.of_nat 0 + 1) with 1 in Hr. rewrite Hr. reflexivity.
Qed.

Lemma GetSRT_numbered_witness :
  GetSRT (feedAll NewSubMaker
            [boundary WordBoundary 1000000 4000000 (str "Hello");
             boundary WordBoundary 6000000 5000000 (str "world")])
  = str "1" ++ [NL] ++ str "00:00:00,100 --> 00:00:00,500" ++ [NL]
    ++ str "Hello" ++ [NL; NL]
    ++ str "2" ++ [NL] ++ str "00:00:00,600 --> 00:00:01,100" ++ [NL]
    ++ str "world" ++ [NL; NL].
Proof.
  rewrite (GetSRT_numbered WordBoundary
             [boundary WordBoundary 1000000 4000000 (str "Hello");
              boundary WordBoundary 6000000 5000000 (str "world")]).
  - vm_compute. reflexivity.
  - repeat constructor.
  - repeat (apply Forall_cons; [unfold underHundredHours; cbn; lia |]).
    apply Forall_nil.
  - repeat constructor.
  - repeat constructor; vm_compute; left; reflexivity.
Defined.

(* ------------------------------------------------------------------ *)
(** ** drm.go: the clock correction *)

Lemma toInt64_comp (x y : Q) : (x == y)%Q -> toInt64 x = toInt64 y.
Proof.
  unfold Qeq, toInt64. intros H.
  rewrite <- (Z.quot_mul_cancel_r (Qnum x) (Zpos (Qden x)) (Zpos (Qden y))) by lia.
  rewrite <- (Z.quot_mul_cancel_r (Qnum y) (Zpos (Qden y)) (Zpos (Qden x))) by lia.
  rewrite H. f_equal. lia.
Qed.

Lemma roundToInteger_comp (x y : Q) : (x == y)%Q -> roundToInteger x = roundToInteger y.
Proof.
  intros H. unfold roundToInteger. rewrite (Qfloor_comp x y H).
  assert (E : (x - inject_Z (Qfloor y) ?= 1 # 2)%Q = (y - inject_Z (Qfloor y) ?= 1 # 2)%Q).
  { apply Qcompare_comp; [rewrite H |]; reflexivity. }
  rewrite E. reflexivity.
Qed.

(** The token depends on the clock correction as a number, not on the
    fraction that stands for it. *)
Lemma strToHash_comp (now : Z) (d1 d2 : DRM) :
  (clockSkewSeconds d1 == clockSkewSeconds d2)%Q -> strToHash now d1 = strToHash now d2.
Proof.
  intros H. unfold strToHash. f_equal. f_equal. apply roundToInteger_comp.
  unfold secMSGECTicks, GetUnixTimestamp.
  assert (E : (inject_Z now + clockSkewSeconds d1 + inject_Z WinEpoch
               == inject_Z now + clockSkewSeconds d2 + inject_Z WinEpoch)%Q)
    by (rewrite H; reflexivity).
  rewrite (toInt64_comp _ _ E), E. reflexivity.
Qed.

Lemma ticks_whole_seconds (now skew : Z) :
  0 <= now + skew + WinEpoch ->
  roundToInteger (secMSGECTicks now {| clockSkewSeconds := inject_Z skew |})
  = specTicks (inject_Z (now + skew)).
Proof.
  intros H.
  unfold roundToInteger, secMSGECTicks, specTicks, GetUnixTimestamp, toInt64,
    WinEpoch, SToNS in *.
  cbn [clockSkewSeconds].
  unfold Qfloor, Qcompare, Qminus, Qplus, Qdiv, Qopp, inject_Z.
  unfold Qinv, Qmult. cbn [Qnum Qden Pos.mul].
  change (1000000000 / 100) with 10000000.
  rewrite !Z.mul_1_r, !Z.div_1_r, Z.quot_1_r.
  set (T := now + skew + 11644473600) in *.
  rewrite Z.rem_mod_nonneg by lia.
  replace ((T + - (T mod 300)) * 10000000 + - ((T + - (T mod 300)) * 10000000))
    with 0 by lia.
  cbn [Z.mul Z.compare].
  Z.div_mod_to_equations. lia.
Qed.

Section DateFacts.

Variable parseRFC1123 : bytes -> error + Z.
Variable parseGMT : bytes -> error + Z.

Lemma ParseRFC2616Date_whole (dateStr : bytes) (s : Q) :
  ParseRFC2616Date parseRFC1123 parseGMT dateStr = inr s ->
  exists t, s = inject_Z t.
Proof.
  unfold ParseRFC2616Date.
  destruct (parseRFC1123 dateStr) as [e1 | t1].
  - destruct (parseGMT dateStr) as [e2 | t2]; [discriminate |].
    intros H. injection H as <-. exists t2. reflexivity.
  - intros H. injection H as <-. exists t1. reflexivity.
Qed.

(** [HandleClientResponseError] either fails, with an error that wraps
    [ErrSkewAdjustment], and leaves the clock correction as it was; or
    it succeeds, and then, at the same reading of the local clock, the
    corrected clock reads the time of the server, whatever the
    correction was before, and the token made is the token of the
    server's five minutes. *)
Theorem HandleClientResponseError_clock (now : Z) (d : DRM) (resp : option bytes) :
  match snd (HandleClientResponseError parseRFC1123 parseGMT now d resp) with
  | Some err =>
      fst (HandleClientResponseError parseRFC1123 parseGMT now d resp) = d
      /\ exists detail, err = Wrapf ErrSkewAdjustment detail
  | None =>
      exists serverDate t,
        resp = Some serverDate
        /\ ParseRFC2616Date parseRFC1123 parseGMT serverDate = inr (inject_Z t)
        /\ (GetUnixTimestamp now
              (fst (HandleClientResponseError parseRFC1123 parseGMT now d resp))
            == inject_Z t)%Q
        /\ (0 <= t + WinEpoch ->
            GenerateSecMSGEC now
              (fst (HandleClientResponseError parseRFC1123 parseGMT now d resp))
            = specToken (inject_Z t))
  end.
Proof.
  unfold HandleClientResponseError.
  destruct resp as [serverDate |]; [| cbn; split; [reflexivity | eexists; reflexivity]].
  destruct (bytes_eq_dec serverDate []);
    [cbn; split; [reflexivity | eexists; reflexivity] |].
  destruct (ParseRFC2616Date parseRFC1123 parseGMT serverDate) as [err | s] eqn:Hp;
    [cbn; split; [reflexivity | eexists; reflexivity] |].
  destruct (ParseRFC2616Date_whole _ _ Hp) as [t ->].
  cbn [fst snd]. exists serverDate, t.
  split; [reflexivity |]. split; [exact Hp |].
  assert (Hskew : (clockSkewSeconds
                     (AdjClockSkewSeconds d (inject_Z t - GetUnixTimestamp now d))
                   == inject_Z (t - now))%Q).
  { unfold AdjClockSkewSeconds, GetUnixTimestamp. cbn [clockSkewSeconds].
    unfold Z.sub. rewrite inject_Z_plus, inject_Z_opp. ring. }
  split.
  - unfold GetUnixTimestamp. rewrite Hskew.
    unfold Z.sub. rewrite inject_Z_plus, inject_Z_opp. ring.
  - intros Ht. unfold GenerateSecMSGEC, specToken.
    rewrite (strToHash_comp now _ {| clockSkewSeconds := inject_Z (t - now) |} Hskew).
    unfold strToHash. rewrite ticks_whole_seconds by lia.
    replace (now + (t - now)) with t by lia. reflexivity.
Qed.

End DateFacts.

(* ------------------------------------------------------------------ *)
(** ** voices.go: the voices manager *)

(** [Find] fails on a manager that [Create] has not filled.  [Create]
    with voices of the caller keeps them in order and sets the language
    of each to the part of its locale before the first dash; then
    [Find] with no criterion returns them all, every voice is found
    again under its own gender, locale and language, and a voice that
    [Find] returns is one of the manager and meets each criterion that
    is not empty. *)
Theorem Create_then_Find (voices : list VoiceInfo) (listed : error + list VoiceInfo) :
  (forall gender locale language,
     exists msg, Find NewVoicesManager gender locale language = inl (Errorf msg))
  /\ Create NewVoicesManager (Some voices) listed
     = ({| Voices := map setLanguage voices; CalledCreate := true |}, None)
  /\ Find (fst (Create NewVoicesManager (Some voices) listed)) [] [] []
     = inr (map setLanguage voices)
  /\ (forall v, In v voices ->
        exists found,
          Find (fst (Create NewVoicesManager (Some voices) listed))
            (Gender v) (Locale v) (languageOf (Locale v)) = inr found
          /\ In (setLanguage v) found)
  /\ (forall gender locale language found v,
        Find (fst (Create NewVoicesManager (Some voices) listed))
          gender locale language = inr found ->
        In v found ->
        In v (map setLanguage voices)
        /\ (gender = [] \/ Gender v = gender)
        /\ (locale = [] \/ Locale v = locale)
        /\ (language = [] \/ Language v = language)).
Proof.
  split; [intros; eexists; reflexivity |]. split; [reflexivity |].
  cbn [Create fst]. unfold Find. cbn [CalledCreate negb Voices].
  split; [| split].
  - f_equal. cbn. induction (map setLanguage voices) as [| v l IH]; [reflexivity |].
    cbn [filter]. rewrite IH. reflexivity.
  - intros v Hin. eexists. split; [reflexivity |].
    apply filter_In. split; [apply in_map; exact Hin |].
    cbn [setLanguage Gender Locale Language].
    destruct (bytes_eq_dec (Gender v) (Gender v)); [| contradiction].
    destruct (bytes_eq_dec (Locale v) (Locale v)); [| contradiction].
    destruct (bytes_eq_dec (languageOf (Locale v)) (languageOf (Locale v)));
      [| contradiction].
    rewrite !andb_false_r. reflexivity.
  - intros gender locale language found v H Hin. injection H as <-.
    apply filter_In in Hin as [Hin Hm]. split; [exact Hin |].
    assert (Hlen : forall s : bytes, (len s =? 0) = true -> s = []).
    { intros s E. apply Z.eqb_eq in E. destruct s; [reflexivity |].
      unfold len in E. cbn in E. lia. }
    destruct (len gender =? 0) eqn:Eg; destruct (len locale =? 0) eqn:El;
      destruct (len language =? 0) eqn:Ea; cbn [negb andb] in Hm;
      repeat match type of Hm with
             | context [bytes_eq_dec ?a ?b] => destruct (bytes_eq_dec a b)
             end;
      try discriminate; repeat split; auto.
Qed.

(* ------------------------------------------------------------------ *)
(** ** util.go and communicate.go: what goes into the SSML *)

Lemma Forall_concat (A : Type) (P : A -> Prop) (ls : list (list A)) :
  Forall P (concat ls) -> Forall (Forall P) ls.
Proof.
  induction ls as [| l ls IH]; cbn [concat]; intros H; [constructor |].
  apply Forall_app in H as [H1 H2]. constructor; [exact H1 | apply IH; exact H2].
Qed.

(** Whatever the text and the budget, no chunk of text that
    [NewCommunicate] prepares holds a quote or an angle bracket: the
    text of the caller brings no markup of its own into the SSML that
    [MKSSML] puts it in, where it stands as it is between the tags. *)
Theorem prepareTexts_no_markup (s : bytes) (L : Z) (tc : TTSConfig) :
  Forall (fun chunk =>
            Forall (fun b => ~ markup b) chunk
            /\ exists head,
                 MKSSML tc chunk = head ++ chunk ++ str "</prosody></voice></speak>")
    (prepareTexts s L).
Proof.
  unfold prepareTexts, SplitTextByByteLength.
  destruct (Z.leb_spec L 0) as [| HL]; [constructor |].
  destruct (splitLoop_pieces L HL (length (escapedText s)) (escapedText s)
              (Nat.le_refl _)) as (pieces & Hcat & ->).
  assert (Hp : Forall (Forall (fun b => ~ markup b)) pieces).
  { apply Forall_concat. rewrite Hcat. apply EscapeXML_clean. }
  clear Hcat. induction Hp as [| p l Hp _ IH]; [constructor |].
  cbn [flat_map]. apply Forall_app. split; [| exact IH].
  apply Forall_emit. split.
  - destruct (TrimSpace_spec p) as (pre & post & Hs & _).
    rewrite Hs in Hp. apply Forall_app in Hp as [_ Hp].
    apply Forall_app in Hp as [Hp _]. exact Hp.
  - exists (str "<speak version='1.0' xmlns='http://www.w3.org/2001/10/synthesis' xml:lang='en-US'>"
            ++ str "<voice name='" ++ Voice tc ++ str "'>"
            ++ str "<prosody pitch='" ++ Pitch tc ++ str "' rate='" ++ Rate tc
            ++ str "' volume='" ++ Volume tc ++ str "'>").
    unfold MKSSML. rewrite <- !app_assoc. reflexivity.
Qed.
